(** * Interacting-particle-system simulator: random source, force laws, integrator

    A shallow embedding of [src/sim/potentials.ts] and
    [src/sim/euler-maruyama.ts].

    Number model.  The 32-bit integer arithmetic of the generator is exact:
    words are integers of [Z], and the conversions JavaScript applies
    (ToInt32, ToUint32, the store into a [Uint32Array]) are written out.
    The seed is a double of integer value, and its increments round as
    additions of doubles do.
    A [Float64Array] is a [list R]: IEEE doubles are idealised as real
    numbers, so rounding, NaN and the infinities are not represented; only
    for [randn] are [Math.log] and [Math.sqrt] also given with their
    domains, a result that is not a finite number being [None].  A read
    outside a typed array (JavaScript: [undefined], then NaN in arithmetic)
    is modelled by the default [0]; a write outside a typed array is ignored,
    as in JavaScript.  Statements that read buffers carry the length facts
    that keep every read in range. *)

From Stdlib Require Import ZArith List Lia Reals Lra Bool.
From Stdlib Require String.
Import ListNotations.

(** ** Loops and typed arrays *)

(** [for (let i = 0; i < n; i++) body]: the loop state is threaded through
    the iterations [0, 1, ..., n-1]. *)
Definition for_loop {S : Type} (n : nat) (body : nat -> S -> S) (s : S) : S :=
  fold_left (fun acc i => body i acc) (seq 0 n) s.

(** [arr[k] = v] on a typed array: out of range, nothing happens. *)
Fixpoint upd {A : Type} (k : nat) (v : A) (arr : list A) : list A :=
  match arr, k with
  | [], _ => []
  | _ :: tl, O => v :: tl
  | hd :: tl, S k' => hd :: upd k' v tl
  end.

(** [arr.subarray(lo, hi)], read as a value. *)
Definition subarray {A : Type} (arr : list A) (lo hi : nat) : list A :=
  firstn (hi - lo) (skipn lo arr).

(** ** 32-bit integer operations of JavaScript *)

Module JS.
Local Open Scope Z_scope.

Definition two32 : Z := 4294967296.

Definition ToUint32 (x : Z) : Z := x mod two32.

Definition ToInt32 (x : Z) : Z := (x + 2147483648) mod two32 - 2147483648.

(** [a ^ b] *)
Definition xor (a b : Z) : Z := Z.lxor (ToInt32 a) (ToInt32 b).

(** [a | b] *)
Definition or (a b : Z) : Z := Z.lor (ToInt32 a) (ToInt32 b).

(** [a << n], for [0 <= n < 32] *)
Definition shl (a n : Z) : Z := ToInt32 (Z.shiftl (ToInt32 a) n).

(** [a >>> n], for [0 <= n < 32] *)
Definition ushr (a n : Z) : Z := Z.shiftr (ToUint32 a) n.

(** [Math.imul(a, b)] *)
Definition imul (a b : Z) : Z := ToInt32 (ToInt32 a * ToInt32 b).

(** the value read with [nth] from a [Uint32Array] *)
Definition word (s : list Z) (k : nat) : Z := nth k s 0.

(** The double nearest to the integer [x], for the sum of two doubles of
    integer value: [x] itself up to [2^53]; beyond, [x] rounded to 53
    significant bits, a tie going to the even significand.  (The sum of a
    double and [0x9e3779b9] stays below the overflow threshold.) *)
Definition to_double (x : Z) : Z :=
  if Z.abs x <? 2 ^ 53 then x
  else
    let e := Z.log2 (Z.abs x) - 52 in
    let q := Z.abs x / 2 ^ e in
    let r := Z.abs x mod 2 ^ e in
    let half := 2 ^ (e - 1) in
    let q :=
      if r <? half then q
      else if half <? r then q + 1
      else if Z.even q then q else q + 1 in
    Z.sgn x * (q * 2 ^ e).

End JS.

(** ** The seeded generator (class [PRNG]) *)

Module PRNG.
Import JS.
Local Open Scope Z_scope.

(** The state [this.s], a [Uint32Array] of four words. *)
Abbreviation state := (list Z).

(** One iteration of the constructor's loop: [seed] is the running
    JavaScript number, a double of integer value, and [s] the array being
    filled.  [seed += 0x9e3779b9] is an addition of doubles. *)
Definition seed_round (i : nat) (acc : Z * state) : Z * state :=
  let '(seed, s) := acc in
  let seed := to_double (seed + 0x9e3779b9) in
  let t := xor seed (ushr seed 16) in
  let t := imul t 0x21f0aaad in
  let t := xor t (ushr t 15) in
  let t := imul t 0x735a2d97 in
  let t := xor t (ushr t 15) in
  (seed, upd i (ToUint32 (ushr t 0)) s).

(** [new PRNG(seed)], for a seed that is a double of integer value. *)
Definition construct (seed : Z) : state :=
  snd (for_loop 4 seed_round (seed, [0; 0; 0; 0])).

(** The 32-bit output [result >>> 0] of [next]. *)
Definition next_bits (s : state) : Z :=
  ushr (ushr (imul (word s 1 * 5) 7) 0) 0.

(** The state left by [next]; every store into the [Uint32Array] wraps with
    [ToUint32]. *)
Definition next_state (s : state) : state :=
  let t := shl (word s 1) 9 in
  let s := upd 2 (ToUint32 (xor (word s 2) (word s 0))) s in
  let s := upd 3 (ToUint32 (xor (word s 3) (word s 1))) s in
  let s := upd 1 (ToUint32 (xor (word s 1) (word s 2))) s in
  let s := upd 0 (ToUint32 (xor (word s 0) (word s 3))) s in
  let s := upd 2 (ToUint32 (xor (word s 2) t)) s in
  upd 3 (ToUint32 (or (shl (word s 3) 11) (ushr (word s 3) 21))) s.

(** [next()]: the returned double [result / 4294967296] and the new state. *)
Definition next (s : state) : R * state :=
  ((IZR (next_bits s) / 4294967296)%R, next_state s).

(** [random()] *)
Definition random (s : state) : R * state := next s.

(** [randn()]: Box-Muller from two successive uniform draws. *)
Definition randn (s : state) : R * state :=
  let '(u1, s) := next s in
  let '(u2, s) := next s in
  ((sqrt (-2 * ln (u1 + 1e-30)) * cos (2 * PI * u2))%R, s).

(** [Math.log] and [Math.sqrt] at a double that is a real number: the
    result, when it is a finite number.  [Math.log] returns [-Infinity] at
    [0] and [NaN] below; [Math.sqrt] returns [NaN] below [0]. *)
Definition Math_log (x : R) : option R :=
  if Rlt_dec 0 x then Some (ln x) else None.

Definition Math_sqrt (x : R) : option R :=
  if Rle_dec 0 x then Some (sqrt x) else None.

(** [randn()] with these domains checked: the value returned, when it is a
    finite number. *)
Definition randn_finite (s : state) : option R :=
  let '(u1, s) := next s in
  let '(u2, s) := next s in
  match Math_log (u1 + 1e-30) with
  | Some l =>
      match Math_sqrt (-2 * l) with
      | Some q => Some (q * cos (2 * PI * u2))%R
      | None => None
      end
  | None => None
  end.

(** [randnArray(arr)] *)
Definition randnArray (arr : list R) (s : state) : list R * state :=
  for_loop (length arr)
    (fun i acc => let '(arr, s) := acc in
                  let '(z, s) := randn s in (upd i z arr, s))
    (arr, s).

(** A [Uint32Array(4)]: four words, each in [0, 2^32). *)
Definition wf (s : state) : Prop :=
  length s = 4%nat /\ Forall (fun w => 0 <= w < two32) s.

Definition all_zero (s : state) : Prop := Forall (fun w => w = 0) s.

End PRNG.

(** ** Force laws ([potentials.ts]) *)

(** A [Float64Array]. *)
Abbreviation vec := (list R).

(** [x[k]] on a [Float64Array] *)
Definition at_ (x : vec) (k : nat) : R := nth k x 0%R.

Module Potentials.
Local Open Scope R_scope.

(** [interface ConfinementPotential]: [gradient x out] is the content of
    [out] after the call. *)
Record ConfinementPotential := {
  evaluate : vec -> R;
  gradient : vec -> vec -> vec
}.

(** [type InteractionPotential = RadialInteraction | VectorInteraction],
    discriminated by the field [radial]. *)
Inductive InteractionPotential :=
| RadialInteraction (evaluate : R -> R) (gradient : R -> R)
| VectorInteraction (evaluate : vec -> R) (gradient : vec -> vec -> vec).

(** The loop [for (i < x.length) s += x[i] * x[i]] shared by the
    confinement classes. *)
Definition sum_squares (x : vec) : R :=
  for_loop (length x) (fun i s => s + at_ x i * at_ x i) 0.

(** *** [HarmonicPotential] *)
Definition Harmonic_evaluate (k : R) (x : vec) : R :=
  let s := sum_squares x in
  0.5 * k * s.

Definition Harmonic_gradient (k : R) (x out : vec) : vec :=
  for_loop (length x) (fun i out => upd i (k * at_ x i) out) out.

Definition HarmonicPotential (k : R) : ConfinementPotential :=
  {| evaluate := Harmonic_evaluate k; gradient := Harmonic_gradient k |}.

(** *** [QuadraticConfinement] *)
Definition Quadratic_evaluate (alpha1 alpha2 : R) (x : vec) : R :=
  let rSq := sum_squares x in
  let r := sqrt rSq in
  0.5 * alpha1 * r + alpha2 * rSq.

Definition Quadratic_gradient (alpha1 alpha2 : R) (x out : vec) : vec :=
  let rSq := sum_squares x in
  let r := Rmax (sqrt rSq) 1e-10 in
  let c1 := 0.5 * alpha1 / r in
  let c2 := 2.0 * alpha2 in
  for_loop (length x) (fun i out => upd i (c1 * at_ x i + c2 * at_ x i) out) out.

Definition QuadraticConfinement (alpha1 alpha2 : R) : ConfinementPotential :=
  {| evaluate := Quadratic_evaluate alpha1 alpha2;
     gradient := Quadratic_gradient alpha1 alpha2 |}.

(** *** [DoubleWellPotential] *)
Definition DoubleWell_evaluate (x : vec) : R :=
  let rSq := sum_squares x in
  0.25 * (rSq - 1.0) ^ 2.

Definition DoubleWell_gradient (x out : vec) : vec :=
  let rSq := sum_squares x in
  let c := rSq - 1.0 in
  for_loop (length x) (fun i out => upd i (c * at_ x i) out) out.

Definition DoubleWellPotential : ConfinementPotential :=
  {| evaluate := DoubleWell_evaluate; gradient := DoubleWell_gradient |}.

(** *** [AnisotropicConfinement] *)
Definition Anisotropic_evaluate (a : list R) (x : vec) : R :=
  for_loop (length x) (fun i s => s + at_ a i * at_ x i * at_ x i) 0.

Definition Anisotropic_gradient (a : list R) (x out : vec) : vec :=
  for_loop (length x) (fun i out => upd i (2.0 * at_ a i * at_ x i) out) out.

Definition AnisotropicConfinement (a : list R) : ConfinementPotential :=
  {| evaluate := Anisotropic_evaluate a; gradient := Anisotropic_gradient a |}.

(** *** [GaussianInteraction] *)
Definition Gaussian_evaluate (A sigma r : R) : R :=
  A * exp (- r * r / (2 * sigma * sigma)).

Definition Gaussian_gradient (A sigma r : R) : R :=
  let s2 := sigma * sigma in
  - A * r / s2 * exp (- r * r / (2 * s2)).

Definition GaussianInteraction (A sigma : R) : InteractionPotential :=
  RadialInteraction (Gaussian_evaluate A sigma) (Gaussian_gradient A sigma).

(** *** [PiecewiseInteraction] *)
Definition smoothInd (eps r lo hi : R) : R :=
  0.5 * (tanh ((r - lo) / eps) - tanh ((r - hi) / eps)).

Definition smoothIndGrad (eps r lo hi : R) : R :=
  let sech2Lo := 1.0 / cosh ((r - lo) / eps) ^ 2 in
  let sech2Hi := 1.0 / cosh ((r - hi) / eps) ^ 2 in
  0.5 / eps * (sech2Lo - sech2Hi).

Definition Piecewise_evaluate (beta1 beta2 eps r : R) : R :=
  beta1 * smoothInd eps r 0.5 1.0 + beta2 * smoothInd eps r 1.0 2.0.

Definition Piecewise_gradient (beta1 beta2 eps r : R) : R :=
  beta1 * smoothIndGrad eps r 0.5 1.0 + beta2 * smoothIndGrad eps r 1.0 2.0.

Definition PiecewiseInteraction (beta1 beta2 eps : R) : InteractionPotential :=
  RadialInteraction (Piecewise_evaluate beta1 beta2 eps)
                    (Piecewise_gradient beta1 beta2 eps).

(** *** [InverseInteraction] *)
Definition Inverse_evaluate (gamma r : R) : R := gamma / (r + 1.0).

Definition Inverse_gradient (gamma r : R) : R :=
  - gamma / ((r + 1.0) * (r + 1.0)).

Definition InverseInteraction (gamma : R) : InteractionPotential :=
  RadialInteraction (Inverse_evaluate gamma) (Inverse_gradient gamma).

(** *** [MorsePotential] *)
Definition Morse_evaluate (D a r0 r : R) : R :=
  let e := exp (- a * (r - r0)) in
  D * (1 - e) ^ 2.

Definition Morse_gradient (D a r0 r : R) : R :=
  let e := exp (- a * (r - r0)) in
  2 * D * a * (1 - e) * e.

Definition MorsePotential (D a r0 : R) : InteractionPotential :=
  RadialInteraction (Morse_evaluate D a r0) (Morse_gradient D a r0).

(** *** [LennardJonesPotential]: the fields set by the constructor *)
Record LennardJones := {
  epsilon : R;
  sigmaLJ : R;
  rCut : R;
  rSafe : R;
  shift : R
}.

Definition LennardJones_new (epsilon sigmaLJ rCut rSafeFactor : R)
  : LennardJones :=
  let rSafe := rSafeFactor * sigmaLJ in
  let sr6Cut := (sigmaLJ / rCut) ^ 6 in
  let shift := 4.0 * epsilon * (sr6Cut ^ 2 - sr6Cut) in
  {| epsilon := epsilon; sigmaLJ := sigmaLJ; rCut := rCut;
     rSafe := rSafe; shift := shift |}.

Definition LennardJones_evaluate (p : LennardJones) (r : R) : R :=
  if Rle_dec (rCut p) r then 0
  else
    let rc := Rmax r (rSafe p) in
    let sr6 := (sigmaLJ p / rc) ^ 6 in
    4.0 * epsilon p * (sr6 * sr6 - sr6) - shift p.

Definition LennardJones_gradient (p : LennardJones) (r : R) : R :=
  if Rle_dec (rCut p) r then 0
  else
    let rc := Rmax r (rSafe p) in
    let sr6 := (sigmaLJ p / rc) ^ 6 in
    (4.0 * epsilon p / rc) * (-12.0 * sr6 * sr6 + 6.0 * sr6).

(** The branch of [evaluate] and of [gradient] below the cutoff, as
    functions of the clamped distance [rc]. *)
Definition LJ_shifted (p : LennardJones) (rc : R) : R :=
  4.0 * epsilon p * ((sigmaLJ p / rc) ^ 6 * (sigmaLJ p / rc) ^ 6
                     - (sigmaLJ p / rc) ^ 6) - shift p.

Definition LJ_force (p : LennardJones) (rc : R) : R :=
  (4.0 * epsilon p / rc)
  * (-12.0 * (sigmaLJ p / rc) ^ 6 * (sigmaLJ p / rc) ^ 6
     + 6.0 * (sigmaLJ p / rc) ^ 6).

Definition LennardJonesPotential (epsilon sigmaLJ rCut rSafeFactor : R)
  : InteractionPotential :=
  let p := LennardJones_new epsilon sigmaLJ rCut rSafeFactor in
  RadialInteraction (LennardJones_evaluate p) (LennardJones_gradient p).

(** *** [AnisotropicGaussianInteraction]; [sSq] is [s.map(si => si * si)] *)
Definition AnisotropicGaussian_evaluate (A : R) (sSq : list R) (z : vec) : R :=
  let exponent :=
    for_loop (length z) (fun i e => e + (at_ z i * at_ z i) / at_ sSq i) 0 in
  A * exp (-0.5 * exponent).

Definition AnisotropicGaussian_gradient (A : R) (sSq : list R) (z out : vec)
  : vec :=
  let phi := AnisotropicGaussian_evaluate A sSq z in
  for_loop (length z) (fun i out => upd i (- phi * at_ z i / at_ sSq i) out) out.

Definition AnisotropicGaussianInteraction (A : R) (s : list R)
  : InteractionPotential :=
  let sSq := map (fun si => si * si) s in
  VectorInteraction (AnisotropicGaussian_evaluate A sSq)
                    (AnisotropicGaussian_gradient A sSq).

End Potentials.

(** ** The integrator ([euler-maruyama.ts]) *)

Module EulerMaruyama.
Import Potentials.
Local Open Scope R_scope.

(** [interface ParticleState]; [st_N] and [st_d] are its fields [N], [d]. *)
Record ParticleState := {
  positions : vec;
  st_N : Z;
  st_d : Z
}.

(** The fields of [class ParticleSystem].  [N] and [d] are JavaScript
    numbers holding integers. *)
Record ParticleSystem := {
  V : ConfinementPotential;
  Phi : InteractionPotential;
  sigma : R;
  dt : R;
  N : Z;
  d : Z;
  gradV : vec;
  gradPhi : vec;
  diff : vec;
  noise : vec;
  gradOut : vec;
  prng : PRNG.state
}.

(** Assignments to the mutable fields. *)
Definition set_gradV (b : vec) (sys : ParticleSystem) : ParticleSystem :=
  {| V := V sys; Phi := Phi sys; sigma := sigma sys; dt := dt sys;
     N := N sys; d := d sys; gradV := b; gradPhi := gradPhi sys;
     diff := diff sys; noise := noise sys; gradOut := gradOut sys;
     prng := prng sys |}.

Definition set_gradPhi (b : vec) (sys : ParticleSystem) : ParticleSystem :=
  {| V := V sys; Phi := Phi sys; sigma := sigma sys; dt := dt sys;
     N := N sys; d := d sys; gradV := gradV sys; gradPhi := b;
     diff := diff sys; noise := noise sys; gradOut := gradOut sys;
     prng := prng sys |}.

Definition set_diff (b : vec) (sys : ParticleSystem) : ParticleSystem :=
  {| V := V sys; Phi := Phi sys; sigma := sigma sys; dt := dt sys;
     N := N sys; d := d sys; gradV := gradV sys; gradPhi := gradPhi sys;
     diff := b; noise := noise sys; gradOut := gradOut sys;
     prng := prng sys |}.

Definition set_noise (b : vec) (sys : ParticleSystem) : ParticleSystem :=
  {| V := V sys; Phi := Phi sys; sigma := sigma sys; dt := dt sys;
     N := N sys; d := d sys; gradV := gradV sys; gradPhi := gradPhi sys;
     diff := diff sys; noise := b; gradOut := gradOut sys;
     prng := prng sys |}.

Definition set_gradOut (b : vec) (sys : ParticleSystem) : ParticleSystem :=
  {| V := V sys; Phi := Phi sys; sigma := sigma sys; dt := dt sys;
     N := N sys; d := d sys; gradV := gradV sys; gradPhi := gradPhi sys;
     diff := diff sys; noise := noise sys; gradOut := b;
     prng := prng sys |}.

Definition set_prng (p : PRNG.state) (sys : ParticleSystem) : ParticleSystem :=
  {| V := V sys; Phi := Phi sys; sigma := sigma sys; dt := dt sys;
     N := N sys; d := d sys; gradV := gradV sys; gradPhi := gradPhi sys;
     diff := diff sys; noise := noise sys; gradOut := gradOut sys;
     prng := p |}.

(** What a call can come to: a value, or the [RangeError] thrown by
    [new Float64Array(length)]. *)
Inductive result (A : Type) : Type :=
| Ok (a : A)
| RangeError.
Arguments Ok {A} a.
Arguments RangeError {A}.

Definition bind {A B : Type} (r : result A) (k : A -> result B) : result B :=
  match r with
  | Ok a => k a
  | RangeError => RangeError
  end.

Notation "x <- r ;; k" := (bind r (fun x => k))
  (at level 61, r at next level, right associativity).

(** [new Float64Array(len)] for an integer [len]: ToIndex throws a
    [RangeError] outside [0, 2^53 - 1], and so does the allocation when the
    engine cannot provide an array of that length; [allocates len] is the
    engine's answer.  Otherwise the array is zero-filled. *)
Definition Float64Array_new (allocates : Z -> bool) (len : Z) : result vec :=
  if ((len <? 0) || (9007199254740991 <? len))%Z then RangeError
  else if allocates len then Ok (repeat 0 (Z.to_nat len))
  else RangeError.

(** [new ParticleSystem(V, Phi, sigma, dt, N, d, seed)] *)
Definition construct (allocates : Z -> bool)
    (V : ConfinementPotential) (Phi : InteractionPotential)
    (sigma dt : R) (N d : Z) (seed : Z) : result ParticleSystem :=
  let prng := PRNG.construct seed in
  gradV <- Float64Array_new allocates d ;;
  gradPhi <- Float64Array_new allocates d ;;
  diff <- Float64Array_new allocates d ;;
  noise <- Float64Array_new allocates (N * d) ;;
  gradOut <- Float64Array_new allocates d ;;
  Ok {| V := V; Phi := Phi; sigma := sigma; dt := dt; N := N; d := d;
        gradV := gradV; gradPhi := gradPhi; diff := diff; noise := noise;
        gradOut := gradOut; prng := prng |}.

(** [initialize(std)].  The array has the length [N * d] that the
    constructor already allocated for [noise]. *)
Definition initialize (std : R) (sys : ParticleSystem)
  : ParticleState * ParticleSystem :=
  let pos := repeat 0 (Z.to_nat (N sys * d sys)) in
  let '(pos, p) :=
    for_loop (length pos)
      (fun i acc => let '(pos, p) := acc in
                    let '(z, p) := PRNG.randn p in (upd i (std * z) pos, p))
      (pos, prng sys) in
  ({| positions := pos; st_N := N sys; st_d := d sys |}, set_prng p sys).

(** [getParticle(state, i)]: a view of the position buffer.  It is read here
    as a value; [step] reads it only while the buffer is not written, and
    writes through it by writing the buffer itself at [i * d + k]. *)
Definition getParticle (sys : ParticleSystem) (pos : vec) (i : nat) : vec :=
  let dd := Z.to_nat (d sys) in
  subarray pos (i * dd) ((i + 1) * dd).

(** The body of the loop over [j] in the radial branch, for [i <> j]:
    the new contents of [diff] and [gradPhi]. *)
Definition radial_pair (gradient : R -> R) (dd : nat) (xi xj : vec)
    (diff gradPhi : vec) : vec * vec :=
  let '(diff, rSq) :=
    for_loop dd
      (fun k acc => let '(diff, rSq) := acc in
                    let diff := upd k (at_ xi k - at_ xj k) diff in
                    (diff, rSq + at_ diff k * at_ diff k))
      (diff, 0) in
  let r := Rmax (sqrt rSq) 1e-10 in
  let dPhiDr := gradient r in
  let gradPhi :=
    for_loop dd
      (fun k gradPhi => upd k (at_ gradPhi k + dPhiDr * at_ diff k / r) gradPhi)
      gradPhi in
  (diff, gradPhi).

(** The body of the loop over [j] in the other branch, for [i <> j]:
    the new contents of [diff], [gradOut] and [gradPhi]. *)
Definition vector_pair (gradient : vec -> vec -> vec) (dd : nat) (xi xj : vec)
    (diff gradOut gradPhi : vec) : vec * vec * vec :=
  let diff := for_loop dd (fun k diff => upd k (at_ xi k - at_ xj k) diff) diff in
  let gradOut := gradient diff gradOut in
  let gradPhi :=
    for_loop dd (fun k gradPhi => upd k (at_ gradPhi k + at_ gradOut k) gradPhi)
      gradPhi in
  (diff, gradOut, gradPhi).

(** The interaction sum for particle [i], both branches of
    [if (this.Phi.radial)]; [pos] is the buffer the views [xi], [xj] read. *)
Definition interaction (i : nat) (pos : vec) (sys : ParticleSystem)
  : ParticleSystem :=
  let n := Z.to_nat (N sys) in
  let dd := Z.to_nat (d sys) in
  let xi := getParticle sys pos i in
  match Phi sys with
  | RadialInteraction _ gradient =>
      for_loop n
        (fun j sys =>
           if Nat.eqb i j then sys
           else
             let xj := getParticle sys pos j in
             let '(df, gp) :=
               radial_pair gradient dd xi xj (diff sys) (gradPhi sys) in
             set_gradPhi gp (set_diff df sys))
        sys
  | VectorInteraction _ gradient =>
      for_loop n
        (fun j sys =>
           if Nat.eqb i j then sys
           else
             let xj := getParticle sys pos j in
             let '(df, go, gp) :=
               vector_pair gradient dd xi xj (diff sys) (gradOut sys)
                 (gradPhi sys) in
             set_gradPhi gp (set_gradOut go (set_diff df sys)))
        sys
  end.

(** The body of the loop over [i] in [step]: the system and the position
    buffer after particle [i] is done. *)
Definition step_particle (sqrtDt : R) (i : nat) (acc : ParticleSystem * vec)
  : ParticleSystem * vec :=
  let '(sys, pos) := acc in
  let dd := Z.to_nat (d sys) in
  let xi := getParticle sys pos i in
  let sys := set_gradV (gradient (V sys) xi (gradV sys)) sys in
  let sys :=
    set_gradPhi (for_loop dd (fun k gp => upd k 0 gp) (gradPhi sys)) sys in
  let sys := interaction i pos sys in
  let sys :=
    set_gradPhi
      (for_loop dd (fun k gp => upd k (at_ gp k / IZR (N sys)) gp)
         (gradPhi sys)) sys in
  let base := (i * dd)%nat in
  let pos :=
    for_loop dd
      (fun k pos =>
         upd (base + k)
           (at_ pos (base + k)
            + ((- at_ (gradV sys) k - at_ (gradPhi sys) k) * dt sys
               + sigma sys * sqrtDt * at_ (noise sys) (base + k)))
           pos)
      pos in
  (sys, pos).

(** [step(state)]: the system and the state after the call. *)
Definition step (sys : ParticleSystem) (state : ParticleState)
  : ParticleSystem * ParticleState :=
  let sqrtDt := sqrt (dt sys) in
  let '(nz, p) := PRNG.randnArray (noise sys) (prng sys) in
  let sys := set_prng p (set_noise nz sys) in
  let '(sys, pos) :=
    for_loop (Z.to_nat (N sys)) (step_particle sqrtDt) (sys, positions state) in
  (sys, {| positions := pos; st_N := st_N state; st_d := st_d state |}).

(** [simulate(nSteps, initStd)]: the recorded trajectory and the system. *)
Definition simulate (nSteps : Z) (initStd : R) (sys : ParticleSystem)
  : list ParticleState * ParticleSystem :=
  let '(state, sys) := initialize initStd sys in
  let snapshot (st : ParticleState) :=
    {| positions := positions st; st_N := N sys; st_d := d sys |} in
  let '(trajectory, state, sys) :=
    for_loop (Z.to_nat nSteps)
      (fun s acc =>
         let '(trajectory, state, sys) := acc in
         let '(sys, state) := step sys state in
         if ((Z.of_nat s mod 10 =? 0) || (Z.of_nat s =? nSteps - 1))%Z
         then (trajectory ++ [snapshot state], state, sys)
         else (trajectory, state, sys))
      ([snapshot state], state, sys) in
  (trajectory, sys).

End EulerMaruyama.

(** ** Vocabulary of the statements *)

Section Vocabulary.
Import Potentials EulerMaruyama.
Local Open Scope R_scope.

(** The state after [n] uniform draws. *)
Definition draws (n : nat) (s : PRNG.state) : PRNG.state :=
  Nat.iter n PRNG.next_state s.

(** The fields that only the constructor and the noise batch set. *)
Definition same_draws (a b : ParticleSystem) : Prop :=
  V a = V b /\ Phi a = Phi b /\ sigma a = sigma b /\ dt a = dt b /\
  N a = N b /\ d a = d b /\ noise a = noise b /\ prng a = prng b.

(** The partial derivative of [f] at [x] in coordinate [i] is [l]. *)
Definition partial_derivative (f : vec -> R) (x : vec) (i : nat) (l : R)
  : Prop :=
  derivable_pt_lim (fun t => f (upd i t x)) (at_ x i) l.

(** [g] holds the gradient of [f] at [x]. *)
Definition holds_gradient (f : vec -> R) (x g : vec) : Prop :=
  length g = length x /\
  forall i, (i < length x)%nat -> partial_derivative f x i (at_ g i).

(** *** The step as the specification words it

    Section 4.3, step 3: every particle reads the pre-step positions of all
    particles; the forces are computed from one snapshot [pos0] and the
    updates are written to a separate buffer. *)
Definition step_particle_snapshot (sqrtDt : R) (pos0 : vec) (i : nat)
    (acc : ParticleSystem * vec) : ParticleSystem * vec :=
  let '(sys, out) := acc in
  let dd := Z.to_nat (d sys) in
  let xi := getParticle sys pos0 i in
  let sys := set_gradV (gradient (V sys) xi (gradV sys)) sys in
  let sys :=
    set_gradPhi (for_loop dd (fun k gp => upd k 0 gp) (gradPhi sys)) sys in
  let sys := interaction i pos0 sys in
  let sys :=
    set_gradPhi
      (for_loop dd (fun k gp => upd k (at_ gp k / IZR (N sys)) gp)
         (gradPhi sys)) sys in
  let base := (i * dd)%nat in
  let out :=
    for_loop dd
      (fun k out =>
         upd (base + k)
           (at_ pos0 (base + k)
            + ((- at_ (gradV sys) k - at_ (gradPhi sys) k) * dt sys
               + sigma sys * sqrtDt * at_ (noise sys) (base + k)))
           out)
      out in
  (sys, out).

Definition step_snapshot (sys : ParticleSystem) (state : ParticleState)
  : ParticleSystem * ParticleState :=
  let sqrtDt := sqrt (dt sys) in
  let '(nz, p) := PRNG.randnArray (noise sys) (prng sys) in
  let sys := set_prng p (set_noise nz sys) in
  let '(sys, pos) :=
    for_loop (Z.to_nat (N sys))
      (step_particle_snapshot sqrtDt (positions state))
      (sys, positions state) in
  (sys, {| positions := pos; st_N := st_N state; st_d := st_d state |}).

(** *** Sequences of calls

    An instance is an integrator together with the state its last
    [initialize] returned, if any. *)

Inductive call : Type :=
| Initialize (std : R)
| Step.

Definition instance : Type := ParticleSystem * option ParticleState.

(** One call on an instance: the instance afterwards and the position
    buffer the caller then sees.  [Step] acts on the state held, and is
    skipped when there is none yet. *)
Definition act (c : call) (inst : instance) : instance * option vec :=
  let '(sys, state) := inst in
  match c with
  | Initialize std =>
      let '(st, sys) := initialize std sys in
      ((sys, Some st), Some (positions st))
  | Step =>
      match state with
      | Some st =>
          let '(sys, st) := step sys st in
          ((sys, Some st), Some (positions st))
      | None => ((sys, None), None)
      end
  end.

Definition record (out : option vec) (seen : list vec) : list vec :=
  match out with
  | Some v => v :: seen
  | None => seen
  end.

(** The position buffers seen, call after call, on one instance. *)
Fixpoint run (calls : list call) (inst : instance) : list vec :=
  match calls with
  | [] => []
  | c :: rest =>
      let '(inst, out) := act c inst in
      record out (run rest inst)
  end.

(** Two instances driven by one thread of control: a schedule says which
    instance receives which call. *)
Inductive which : Type :=
| First
| Second.

(** The calls a schedule sends to one of the two instances. *)
Fixpoint calls_of (w : which) (schedule : list (which * call)) : list call :=
  match schedule with
  | [] => []
  | (First, c) :: rest =>
      match w with
      | First => c :: calls_of w rest
      | Second => calls_of w rest
      end
  | (Second, c) :: rest =>
      match w with
      | First => calls_of w rest
      | Second => c :: calls_of w rest
      end
  end.

(** *** A two-particle system in one dimension *)

Definition two_particles : ParticleSystem :=
  {| V := HarmonicPotential 1; Phi := InverseInteraction 1;
     sigma := 0; dt := 1; N := 2; d := 1;
     gradV := [0]; gradPhi := [0]; diff := [0]; noise := [0; 0];
     gradOut := [0]; prng := PRNG.construct 42 |}.

Definition two_particles_state : ParticleState :=
  {| positions := [0; 1]; st_N := 2; st_d := 1 |}.

(** *** A single particle in the plane *)

Definition one_particle : ParticleSystem :=
  {| V := DoubleWellPotential; Phi := InverseInteraction 0.5;
     sigma := 0.15; dt := 0.02; N := 1; d := 2;
     gradV := [0; 0]; gradPhi := [0; 0]; diff := [0; 0]; noise := [0; 0];
     gradOut := [0; 0]; prng := PRNG.construct 42 |}.

Definition one_particle_state : ParticleState :=
  {| positions := [1; 2]; st_N := 1; st_d := 2 |}.

(** *** A system of no particle with a negative time step *)

Definition no_particle : ParticleSystem :=
  {| V := HarmonicPotential 1; Phi := InverseInteraction 1;
     sigma := 0; dt := -1; N := 0; d := 1;
     gradV := [0]; gradPhi := [0]; diff := [0]; noise := [];
     gradOut := [0]; prng := PRNG.construct 42 |}.

(** The largest length [new Float64Array] accepts, [2^53 - 1]. *)
Definition max_length : Z := 9007199254740991.

(** A length [new Float64Array] accepts: ToIndex takes it and the engine
    provides the array. *)
Definition accepted (allocates : Z -> bool) (len : Z) : Prop :=
  (0 <= len <= max_length)%Z /\ allocates len = true.

End Vocabulary.

(** ** Instances as objects of one heap

    A typed array is an object: an instance of [ParticleSystem] holds
    references to the five arrays and to the generator's array that its
    constructor allocated, a [ParticleState] holds a reference to its
    position array, and all the instances of a program live in one heap.
    The methods of [V] and [Phi] write nothing but the output buffer they
    are passed, so the two laws are held as values. *)

Module World.
Import Potentials EulerMaruyama.

Inductive cell : Type :=
| Float64Array (b : vec)
| Uint32Array (w : list Z).

Definition heap : Type := list cell.

(** [new Float64Array(..)], [new Uint32Array(..)]: a fresh object, holding
    [c]. *)
Definition alloc (c : cell) (h : heap) : heap * nat := (h ++ [c], length h).

Definition read_f64 (h : heap) (r : nat) : vec :=
  match nth r h (Float64Array []) with
  | Float64Array b => b
  | Uint32Array _ => []
  end.

Definition read_u32 (h : heap) (r : nat) : list Z :=
  match nth r h (Uint32Array []) with
  | Uint32Array w => w
  | Float64Array _ => []
  end.

(** The arrays written, last in the list first. *)
Definition write_all (l : list (nat * cell)) (h : heap) : heap :=
  fold_right (fun rc h => upd (fst rc) (snd rc) h) h l.

Record ParticleSystem := {
  V : ConfinementPotential;
  Phi : InteractionPotential;
  sigma : R;
  dt : R;
  N : Z;
  d : Z;
  gradV : nat;
  gradPhi : nat;
  diff : nat;
  noise : nat;
  gradOut : nat;
  prng : nat
}.

Record ParticleState := {
  positions : nat;
  st_N : Z;
  st_d : Z
}.

(** The arrays an instance refers to, as [step] and [initialize] find
    them. *)
Definition load (h : heap) (o : ParticleSystem) : EulerMaruyama.ParticleSystem :=
  {| EulerMaruyama.V := V o; EulerMaruyama.Phi := Phi o;
     EulerMaruyama.sigma := sigma o; EulerMaruyama.dt := dt o;
     EulerMaruyama.N := N o; EulerMaruyama.d := d o;
     EulerMaruyama.gradV := read_f64 h (gradV o);
     EulerMaruyama.gradPhi := read_f64 h (gradPhi o);
     EulerMaruyama.diff := read_f64 h (diff o);
     EulerMaruyama.noise := read_f64 h (noise o);
     EulerMaruyama.gradOut := read_f64 h (gradOut o);
     EulerMaruyama.prng := read_u32 h (prng o) |}.

Definition load_state (h : heap) (s : ParticleState)
  : EulerMaruyama.ParticleState :=
  {| EulerMaruyama.positions := read_f64 h (positions s);
     EulerMaruyama.st_N := st_N s; EulerMaruyama.st_d := st_d s |}.

(** The arrays of an instance as a call leaves them. *)
Definition store (sys : EulerMaruyama.ParticleSystem) (o : ParticleSystem)
    (h : heap) : heap :=
  write_all
    [ (prng o, Uint32Array (EulerMaruyama.prng sys));
      (gradV o, Float64Array (EulerMaruyama.gradV sys));
      (gradPhi o, Float64Array (EulerMaruyama.gradPhi sys));
      (diff o, Float64Array (EulerMaruyama.diff sys));
      (noise o, Float64Array (EulerMaruyama.noise sys));
      (gradOut o, Float64Array (EulerMaruyama.gradOut sys)) ] h.

(** [new ParticleSystem(V, Phi, sigma, dt, N, d, seed)]: the generator's
    array first, then the five buffers, each a fresh object. *)
Definition construct (allocates : Z -> bool)
    (V0 : ConfinementPotential) (Phi0 : InteractionPotential)
    (sigma0 dt0 : R) (N0 d0 : Z) (seed : Z) (h : heap)
  : result (heap * ParticleSystem) :=
  let '(h, prng) := alloc (Uint32Array (PRNG.construct seed)) h in
  gradV <- Float64Array_new allocates d0 ;;
  let '(h, gradV) := alloc (Float64Array gradV) h in
  gradPhi <- Float64Array_new allocates d0 ;;
  let '(h, gradPhi) := alloc (Float64Array gradPhi) h in
  diff <- Float64Array_new allocates d0 ;;
  let '(h, diff) := alloc (Float64Array diff) h in
  noise <- Float64Array_new allocates (N0 * d0) ;;
  let '(h, noise) := alloc (Float64Array noise) h in
  gradOut <- Float64Array_new allocates d0 ;;
  let '(h, gradOut) := alloc (Float64Array gradOut) h in
  Ok (h, {| V := V0; Phi := Phi0; sigma := sigma0; dt := dt0; N := N0;
            d := d0; gradV := gradV; gradPhi := gradPhi; diff := diff;
            noise := noise; gradOut := gradOut; prng := prng |}).

(** [initialize(std)]: a fresh position array, filled from the instance's
    generator, which is left advanced. *)
Definition initialize (std : R) (o : ParticleSystem) (h : heap)
  : heap * ParticleState :=
  let '(h, pos) :=
    alloc (Float64Array (repeat 0%R (Z.to_nat (N o * d o)))) h in
  let '(st, sys) := EulerMaruyama.initialize std (load h o) in
  let h := store sys o h in
  let h := write_all [(pos, Float64Array (EulerMaruyama.positions st))] h in
  (h, {| positions := pos; st_N := N o; st_d := d o |}).

(** [step(state)]: the call runs on the arrays the instance and the state
    refer to, and leaves them in the heap.  It reads them as seven
    different objects, which they are for an instance the constructor
    returned and a state [initialize] returned. *)
Definition step (o : ParticleSystem) (s : ParticleState) (h : heap) : heap :=
  let '(sys, st) := EulerMaruyama.step (load h o) (load_state h s) in
  let h := store sys o h in
  write_all [(positions s, Float64Array (EulerMaruyama.positions st))] h.

(** An instance and the state its last [initialize] returned, if any. *)
Definition instance : Type := ParticleSystem * option ParticleState.

(** One call on an instance of the heap: the heap and the instance
    afterwards, and the position buffer the caller then sees. *)
Definition act (c : call) (inst : instance) (h : heap)
  : heap * instance * option vec :=
  let '(o, state) := inst in
  match c with
  | Initialize std =>
      let '(h, s) := initialize std o h in
      (h, (o, Some s), Some (read_f64 h (positions s)))
  | Step =>
      match state with
      | Some s =>
          let h := step o s h in
          (h, (o, Some s), Some (read_f64 h (positions s)))
      | None => (h, (o, None), None)
      end
  end.

(** A schedule of calls on two instances of one heap: what is seen on
    each, and the heap left. *)
Fixpoint interleave (schedule : list (which * call)) (a b : instance)
    (h : heap) : list vec * list vec * heap :=
  match schedule with
  | [] => ([], [], h)
  | (First, c) :: rest =>
      let '(h, a, out) := act c a h in
      let '(seenA, seenB, h) := interleave rest a b h in
      (record out seenA, seenB, h)
  | (Second, c) :: rest =>
      let '(h, b, out) := act c b h in
      let '(seenA, seenB, h) := interleave rest a b h in
      (seenA, record out seenB, h)
  end.

(** The objects an instance owns. *)
Definition refs (o : ParticleSystem) : list nat :=
  [prng o; gradV o; gradPhi o; diff o; noise o; gradOut o].

Definition owned (inst : instance) : list nat :=
  match snd inst with Some s => [positions s] | None => [] end
  ++ refs (fst inst).

(** Two instances that share no array, all their arrays being different
    objects of the heap. *)
Definition separate (h : heap) (a b : instance) : Prop :=
  NoDup (owned a) /\ NoDup (owned b) /\
  (forall r, In r (owned a) -> ~ In r (owned b)) /\
  Forall (fun r => (r < length h)%nat) (owned a) /\
  Forall (fun r => (r < length h)%nat) (owned b).

(** The arrays of an instance of the heap hold what [p] holds. *)
Definition holds (h : heap) (inst : instance)
    (p : EulerMaruyama.ParticleSystem * option EulerMaruyama.ParticleState)
  : Prop :=
  load h (fst inst) = fst p /\
  match snd inst, snd p with
  | Some s, Some st => load_state h s = st
  | None, None => True
  | _, _ => False
  end.

End World.

(** ** Vocabulary of the further statements *)

Section MoreVocabulary.
Import Potentials EulerMaruyama.
Local Open Scope R_scope.

(** A seed whose four increments by [0x9e3779b9] are exact additions of
    doubles: the running seed stays within [2^53] in absolute value. *)
Definition exact_seed (a : Z) : Prop :=
  (- 2 ^ 53 < a /\ a + 4 * 0x9e3779b9 < 2 ^ 53)%Z.

(** The word the constructor's loop stores for the running seed [x]
    (the body of [seed_round] after [seed += 0x9e3779b9]). *)
Definition mix32 (x : Z) : Z :=
  let t := JS.xor x (JS.ushr x 16) in
  let t := JS.imul t 0x21f0aaad in
  let t := JS.xor t (JS.ushr t 15) in
  let t := JS.imul t 0x735a2d97 in
  let t := JS.xor t (JS.ushr t 15) in
  JS.ToUint32 (JS.ushr t 0).

(** [gradient x out], called with a buffer of the length of [x], leaves a
    buffer of that length whose content does not depend on what [out]
    held. *)
Definition fills (g : vec -> vec -> vec) : Prop :=
  forall x out, length out = length x ->
    length (g x out) = length x /\
    forall out', length out' = length x -> g x out' = g x out.

(** [n] successive calls [step(state)] on one integrator. *)
Fixpoint steps (n : nat) (sys : ParticleSystem) (state : ParticleState)
  : ParticleSystem * ParticleState :=
  match n with
  | O => (sys, state)
  | S n' => let '(sys, state) := steps n' sys state in step sys state
  end.

(** Two integrators with the same parameters and noise buffer, whose four
    scratch buffers have the length [d] (their contents may differ). *)
Definition scratch_agree (a b : ParticleSystem) : Prop :=
  V a = V b /\ Phi a = Phi b /\ sigma a = sigma b /\ dt a = dt b /\
  N a = N b /\ d a = d b /\ noise a = noise b /\
  (length (gradV a) = Z.to_nat (d a) /\ length (gradV b) = Z.to_nat (d a)) /\
  (length (gradPhi a) = Z.to_nat (d a) /\
   length (gradPhi b) = Z.to_nat (d a)) /\
  (length (diff a) = Z.to_nat (d a) /\ length (diff b) = Z.to_nat (d a)) /\
  (length (gradOut a) = Z.to_nat (d a) /\
   length (gradOut b) = Z.to_nat (d a)).

(** Two integrators with the same parameters and generator state, whose
    noise buffers have the same length and whose four scratch buffers have
    the length [d]; the contents of the five buffers may differ. *)
Definition same_run (a b : ParticleSystem) : Prop :=
  V a = V b /\ Phi a = Phi b /\ sigma a = sigma b /\ dt a = dt b /\
  N a = N b /\ d a = d b /\ prng a = prng b /\
  length (noise a) = length (noise b) /\
  (length (gradV a) = Z.to_nat (d a) /\ length (gradV b) = Z.to_nat (d a)) /\
  (length (gradPhi a) = Z.to_nat (d a) /\
   length (gradPhi b) = Z.to_nat (d a)) /\
  (length (diff a) = Z.to_nat (d a) /\ length (diff b) = Z.to_nat (d a)) /\
  (length (gradOut a) = Z.to_nat (d a) /\
   length (gradOut b) = Z.to_nat (d a)).

(** The gradients the integrator calls with an output buffer fill it. *)
Definition filling_laws (sys : ParticleSystem) : Prop :=
  fills (gradient (V sys)) /\
  match Phi sys with
  | RadialInteraction _ _ => True
  | VectorInteraction _ g => fills g
  end.

(** The two-particle system after earlier work: the same parameters and
    generator state as [two_particles], other contents in the five
    buffers. *)
Definition two_particles_used : ParticleSystem :=
  {| V := HarmonicPotential 1; Phi := InverseInteraction 1;
     sigma := 0; dt := 1; N := 2; d := 1;
     gradV := [7]; gradPhi := [8]; diff := [9]; noise := [1; 2];
     gradOut := [3]; prng := PRNG.construct 42 |}.

End MoreVocabulary.

(** ** The registry of models ([MODELS] of [sim/potentials.ts]) *)

Module Models.
Import Potentials.
Import Stdlib.Strings.String.
Local Open Scope string_scope.

Record ModelConfig := {
  name : string;
  label : string;
  V : ConfinementPotential;
  Phi : InteractionPotential;
  sigma : R;
  description : string
}.

(** The object [MODELS], key by key in the order of the source; the
    constructors' default arguments are written out. *)
Definition MODELS : list (string * ModelConfig) :=
  [ ("model_a",
     {| name := "model_a";
        label := "Model A (Quadratic + Piecewise)";
        V := QuadraticConfinement (-1.0) 2.0;
        Phi := PiecewiseInteraction (-3.0) 2.0 0.05;
        sigma := 0.1%R;
        description :=
          "Quadratic confinement with piecewise constant interaction" |});
    ("model_b",
     {| name := "model_b";
        label := "Model B (Double-Well + Inverse)";
        V := DoubleWellPotential;
        Phi := InverseInteraction 0.5;
        sigma := 0.1%R;
        description :=
          "Double-well confinement with inverse-distance interaction" |});
    ("model_lj",
     {| name := "model_lj";
        label := "Model C (Harmonic + Lennard-Jones)";
        V := HarmonicPotential 2.0;
        Phi := LennardJonesPotential 0.5 0.5 2.5 0.7;
        sigma := 0.1%R;
        description :=
          "Harmonic confinement with truncated Lennard-Jones interaction" |});
    ("model_morse",
     {| name := "model_morse";
        label := "Model D (Double-Well + Morse)";
        V := DoubleWellPotential;
        Phi := MorsePotential 0.5 2.0 0.8;
        sigma := 0.1%R;
        description := "Double-well confinement with Morse interaction" |});
    ("model_aniso",
     {| name := "model_aniso";
        label := "Model E (Anisotropic)";
        V := AnisotropicConfinement [1.0; 4.0]%R;
        Phi := AnisotropicGaussianInteraction 2.0 [0.5; 1.5]%R;
        sigma := 0.1%R;
        description :=
          "Anisotropic confinement with direction-dependent Gaussian interaction"
     |}) ].

End Models.

(** ** The energy ledger ([islands/EnergyBalanceViz.ts]) *)

Module EnergyBalanceViz.
Import Potentials.
Local Open Scope R_scope.

Definition N : nat := 10.
Definition d : nat := 2.

(** [trueV = new QuadraticConfinement(-1.0, 2.0)] and
    [truePhi = new PiecewiseInteraction(-3.0, 2.0)], whose [eps] is the
    default [0.05]. *)
Definition trueV_gradient : vec -> vec -> vec := Quadratic_gradient (-1.0) 2.0.
Definition truePhi_gradient : R -> R := Piecewise_gradient (-3.0) 2.0 0.05.

(** [computeDissipation(positions, vScale, phiScale)]; the loop state is
    [(sum, gradV, diff, tmpX)]. *)
Definition computeDissipation (positions : vec) (vScale phiScale : R) : R :=
  let '(sum, _, _, _) :=
    for_loop N
      (fun i acc =>
         let '(sum, gradV, diff, tmpX) := acc in
         let tmpX :=
           for_loop d (fun k tmpX => upd k (at_ positions (i * d + k)) tmpX)
             tmpX in
         let gradV := trueV_gradient tmpX gradV in
         let gradV :=
           for_loop d (fun k gradV => upd k (at_ gradV k * vScale) gradV)
             gradV in
         let '(gPhiX, gPhiY, diff) :=
           for_loop N
             (fun j acc =>
                let '(gPhiX, gPhiY, diff) := acc in
                if Nat.eqb i j then acc
                else
                  let '(diff, rSq) :=
                    for_loop d
                      (fun k acc =>
                         let '(diff, rSq) := acc in
                         let diff :=
                           upd k (at_ positions (i * d + k)
                                  - at_ positions (j * d + k)) diff in
                         (diff, rSq + at_ diff k * at_ diff k))
                      (diff, 0) in
                  let r := Rmax (sqrt rSq) 1e-10 in
                  let dPhiDr := truePhi_gradient r * phiScale in
                  (gPhiX + dPhiDr * at_ diff 0 / r,
                   gPhiY + dPhiDr * at_ diff 1 / r, diff))
             (0, 0, diff) in
         let gPhiX := gPhiX / INR N in
         let gPhiY := gPhiY / INR N in
         let totalGradX := at_ gradV 0 + gPhiX in
         let totalGradY := at_ gradV 1 + gPhiY in
         (sum + (totalGradX * totalGradX + totalGradY * totalGradY),
          gradV, diff, tmpX))
      (0, repeat 0 d, repeat 0 d, repeat 0 d) in
  sum / INR N.

End EnergyBalanceViz.

(** ** The two snapshots of [islands/ShuffleDemo.ts] *)

Module ShuffleDemo.
Local Open Scope R_scope.

Definition N : nat := 8.

(** The loop that fills [snapshot1] and [snapshot2] from a generator; the
    loop state is [(snapshot1, snapshot2, prng)]. *)
Definition snapshots (p : PRNG.state)
  : list (R * R) * list (R * R) * PRNG.state :=
  for_loop N
    (fun i acc =>
       let '(snapshot1, snapshot2, p) := acc in
       let '(u, p) := PRNG.random p in
       let x := -0.8 + u * 1.6 in
       let '(u, p) := PRNG.random p in
       let y := -0.7 + u * 1.4 in
       let snapshot1 := snapshot1 ++ [(x, y)] in
       let '(u1, p) := PRNG.random p in
       let '(u2, p) := PRNG.random p in
       let snapshot2 :=
         snapshot2 ++ [(x + (u1 - 0.5) * 0.6, y + (u2 - 0.5) * 0.6)] in
       (snapshot1, snapshot2, p))
    ([], [], p).

(** [new PRNG(123)] and the loop. *)
Definition demo_snapshots : list (R * R) * list (R * R) * PRNG.state :=
  snapshots (PRNG.construct 123).

End ShuffleDemo.

(** * Properties *)

(** ** Loops and typed arrays *)

Lemma for_loop_0 {S : Type} (body : nat -> S -> S) (s : S) :
  for_loop 0 body s = s.
Proof. reflexivity. Qed.

Lemma for_loop_S {S : Type} (n : nat) (body : nat -> S -> S) (s : S) :
  for_loop (Datatypes.S n) body s = body n (for_loop n body s).
Proof.
  unfold for_loop. rewrite seq_S, fold_left_app. reflexivity.
Qed.

(** Invariant rule for a counted loop. *)
Lemma for_loop_inv {S : Type} (P : nat -> S -> Prop) (n : nat)
    (body : nat -> S -> S) (s : S) :
  P 0%nat s ->
  (forall i acc, (i < n)%nat -> P i acc -> P (Datatypes.S i) (body i acc)) ->
  P n (for_loop n body s).
Proof.
  intros H0 Hstep.
  assert (G : forall m, (m <= n)%nat -> P m (for_loop m body s)).
  { induction m as [|m IH]; intros Hm.
    - exact H0.
    - rewrite for_loop_S. apply Hstep; [lia | apply IH; lia]. }
  apply G. lia.
Qed.

Lemma for_loop_ext {S : Type} (n : nat) (f g : nat -> S -> S) (s : S) :
  (forall i acc, (i < n)%nat -> f i acc = g i acc) ->
  for_loop n f s = for_loop n g s.
Proof.
  intros H.
  apply (for_loop_inv (fun i acc => acc = for_loop i g s)).
  - reflexivity.
  - intros i acc Hi ->. rewrite for_loop_S. apply H. exact Hi.
Qed.

Lemma length_upd {A : Type} (k : nat) (v : A) (arr : list A) :
  length (upd k v arr) = length arr.
Proof.
  revert k. induction arr as [|a arr IH]; intros [|k]; simpl; auto.
Qed.

Lemma nth_upd_same {A : Type} (k : nat) (v dflt : A) (arr : list A) :
  (k < length arr)%nat -> nth k (upd k v arr) dflt = v.
Proof.
  revert k. induction arr as [|a arr IH]; intros [|k] H; simpl in *;
    try lia; auto. apply IH. lia.
Qed.

Lemma nth_upd_other {A : Type} (k j : nat) (v dflt : A) (arr : list A) :
  k <> j -> nth j (upd k v arr) dflt = nth j arr dflt.
Proof.
  revert k j. induction arr as [|a arr IH]; intros [|k] [|j] H; simpl;
    try reflexivity; try congruence. apply IH. congruence.
Qed.

Lemma upd_out_of_range {A : Type} (k : nat) (v : A) (arr : list A) :
  (length arr <= k)%nat -> upd k v arr = arr.
Proof.
  revert k. induction arr as [|a arr IH]; intros [|k] H; simpl in *;
    try reflexivity; try lia. f_equal. apply IH. lia.
Qed.

(** ** The generator: 32-bit arithmetic *)

Section Words.
Import JS.
Local Open Scope Z_scope.

Lemma ToUint32_range x : 0 <= ToUint32 x < two32.
Proof. unfold ToUint32, two32. apply Z.mod_pos_bound. lia. Qed.

Lemma ToUint32_small x : 0 <= x < two32 -> ToUint32 x = x.
Proof. unfold ToUint32. intros H. apply Z.mod_small. exact H. Qed.

Lemma ToUint32_idem x : ToUint32 (ToUint32 x) = ToUint32 x.
Proof. apply ToUint32_small, ToUint32_range. Qed.

Lemma ToUint32_ToInt32 x : ToUint32 (ToInt32 x) = ToUint32 x.
Proof.
  unfold ToUint32, ToInt32, two32.
  rewrite Zminus_mod, Zmod_mod, <- Zminus_mod.
  f_equal. lia.
Qed.

Lemma ToUint32_land x : ToUint32 x = Z.land x (Z.ones 32).
Proof. unfold ToUint32, two32. rewrite Z.land_ones by lia. reflexivity. Qed.

Lemma ToUint32_xor a b :
  ToUint32 (xor a b) = Z.lxor (ToUint32 a) (ToUint32 b).
Proof.
  unfold xor.
  rewrite <- (ToUint32_ToInt32 a), <- (ToUint32_ToInt32 b).
  rewrite !ToUint32_land.
  apply Z.bits_inj'. intros n Hn.
  rewrite Z.lxor_spec, !Z.land_spec, Z.lxor_spec.
  destruct (Z.testbit (Z.ones 32) n); rewrite ?andb_true_r, ?andb_false_r;
    reflexivity.
Qed.

Lemma ToUint32_or a b :
  ToUint32 (or a b) = Z.lor (ToUint32 a) (ToUint32 b).
Proof.
  unfold or.
  rewrite <- (ToUint32_ToInt32 a), <- (ToUint32_ToInt32 b).
  rewrite !ToUint32_land.
  apply Z.bits_inj'. intros n Hn.
  rewrite Z.lor_spec, !Z.land_spec, Z.lor_spec.
  destruct (Z.testbit (Z.ones 32) n); rewrite ?andb_true_r, ?andb_false_r;
    reflexivity.
Qed.

Lemma ToUint32_mul_l a b : ToUint32 (ToInt32 a * b) = ToUint32 (a * b).
Proof.
  unfold ToUint32 at 1. rewrite Zmult_mod.
  fold (ToUint32 (ToInt32 a)). rewrite ToUint32_ToInt32.
  unfold ToUint32 at 1. rewrite <- Zmult_mod. reflexivity.
Qed.

Lemma ToUint32_imul a b : ToUint32 (imul a b) = ToUint32 (a * b).
Proof.
  unfold imul. rewrite ToUint32_ToInt32, ToUint32_mul_l.
  rewrite (Z.mul_comm a), ToUint32_mul_l, Z.mul_comm. reflexivity.
Qed.

Lemma ToUint32_shl a n : 0 <= n -> ToUint32 (shl a n) = ToUint32 (a * 2 ^ n).
Proof.
  intros Hn. unfold shl.
  rewrite ToUint32_ToInt32, Z.shiftl_mul_pow2 by exact Hn.
  apply ToUint32_mul_l.
Qed.

Lemma ushr_range a n : 0 <= n -> 0 <= ushr a n < two32.
Proof.
  intros Hn. unfold ushr. rewrite Z.shiftr_div_pow2 by exact Hn.
  pose proof (ToUint32_range a) as Ha.
  assert (0 < 2 ^ n) by (apply Z.pow_pos_nonneg; lia).
  split.
  - apply Z.div_pos; lia.
  - apply Z.le_lt_trans with (ToUint32 a); [|lia].
    apply Z.div_le_upper_bound; nia.
Qed.

Lemma ushr_0 a : ushr a 0 = ToUint32 a.
Proof. unfold ushr. apply Z.shiftr_0_r. Qed.

(** An odd multiplier is invertible modulo 2^32. *)
Lemma ToUint32_mul_odd_zero a c :
  Z.gcd two32 c = 1 -> ToUint32 (a * c) = 0 -> ToUint32 a = 0.
Proof.
  unfold ToUint32. intros Hg H.
  apply Z.mod_divide in H; [|unfold two32; lia].
  apply Z.mod_divide; [unfold two32; lia|].
  apply Z.gauss with c; [|exact Hg].
  rewrite Z.mul_comm. exact H.
Qed.

(** [x ^ (x >>> k)] vanishes only at zero. *)
Lemma xorshift_zero x k :
  0 < k -> ToUint32 (xor x (ushr x k)) = 0 -> ToUint32 x = 0.
Proof.
  intros Hk H. rewrite ToUint32_xor in H.
  rewrite (ToUint32_small (ushr x k)) in H by (apply ushr_range; lia).
  apply Z.lxor_eq in H. unfold ushr in H.
  rewrite Z.shiftr_div_pow2 in H by lia.
  pose proof (ToUint32_range x) as Hx.
  assert (2 <= 2 ^ k).
  { change 2 with (2 ^ 1) at 1. apply Z.pow_le_mono_r; lia. }
  destruct (Z.eq_dec (ToUint32 x) 0) as [E|E]; [exact E|].
  exfalso.
  assert (ToUint32 x / 2 ^ k < ToUint32 x).
  { apply Z.div_lt; lia. }
  lia.
Qed.

End Words.

(** ** The generator: the state is never all zero *)

Section Generator.
Import JS.
Local Open Scope Z_scope.

(** Below [2^53] every integer is a double. *)
Lemma to_double_small x : Z.abs x < 2 ^ 53 -> to_double x = x.
Proof.
  intros H. unfold to_double.
  replace (Z.abs x <? 2 ^ 53) with true; [reflexivity|].
  symmetry. apply Z.ltb_lt. exact H.
Qed.

(** The word the constructor stores for the running seed value [x]. *)
Lemma seed_round_word i seed s :
  exists w,
    PRNG.seed_round i (seed, s)
    = (to_double (seed + 0x9e3779b9), upd i w s) /\
    0 <= w < two32 /\
    (w = 0 -> ToUint32 (to_double (seed + 0x9e3779b9)) = 0).
Proof.
  unfold PRNG.seed_round.
  set (x := to_double (seed + 0x9e3779b9)).
  set (t1 := xor x (ushr x 16)).
  set (t2 := imul t1 0x21f0aaad).
  set (t3 := xor t2 (ushr t2 15)).
  set (t4 := imul t3 0x735a2d97).
  set (t5 := xor t4 (ushr t4 15)).
  exists (ToUint32 (ushr t5 0)). split; [reflexivity|]. split.
  - apply ToUint32_range.
  - rewrite ushr_0, ToUint32_idem. intros H.
    apply xorshift_zero in H; [|lia].
    unfold t4 in H. rewrite ToUint32_imul in H.
    apply ToUint32_mul_odd_zero in H; [|reflexivity].
    apply xorshift_zero in H; [|lia].
    unfold t2 in H. rewrite ToUint32_imul in H.
    apply ToUint32_mul_odd_zero in H; [|reflexivity].
    apply xorshift_zero in H; [|lia].
    exact H.
Qed.

Lemma construct_words seed :
  exists w0 w1 w2 w3,
    PRNG.construct seed = [w0; w1; w2; w3] /\
    (0 <= w0 < two32 /\ 0 <= w1 < two32 /\ 0 <= w2 < two32 /\ 0 <= w3 < two32) /\
    (w0 = 0 -> ToUint32 (to_double (seed + 0x9e3779b9)) = 0) /\
    (w1 = 0 ->
     ToUint32 (to_double (to_double (seed + 0x9e3779b9) + 0x9e3779b9)) = 0).
Proof.
  unfold PRNG.construct.
  rewrite !for_loop_S, for_loop_0.
  destruct (seed_round_word 0 seed [0; 0; 0; 0]) as (w0 & E0 & R0 & Z0).
  rewrite E0.
  set (x1 := to_double (seed + 0x9e3779b9)) in *.
  destruct (seed_round_word 1 x1 (upd 0 w0 [0; 0; 0; 0]))
    as (w1 & E1 & R1 & Z1).
  rewrite E1.
  set (x2 := to_double (x1 + 0x9e3779b9)) in *.
  destruct (seed_round_word 2 x2 (upd 1 w1 (upd 0 w0 [0; 0; 0; 0])))
    as (w2 & E2 & R2 & Z2).
  rewrite E2.
  set (x3 := to_double (x2 + 0x9e3779b9)) in *.
  destruct (seed_round_word 3 x3
              (upd 2 w2 (upd 1 w1 (upd 0 w0 [0; 0; 0; 0]))))
    as (w3 & E3 & R3 & Z3).
  rewrite E3.
  exists w0, w1, w2, w3. cbn [snd upd]. auto 10.
Qed.

Lemma construct_wf seed : PRNG.wf (PRNG.construct seed).
Proof.
  destruct (construct_words seed) as (w0 & w1 & w2 & w3 & E & R & _).
  rewrite E. split; [reflexivity|].
  repeat constructor; tauto.
Qed.

Lemma construct_not_all_zero seed :
  -2147483648 <= seed < 4294967296 ->
  ~ PRNG.all_zero (PRNG.construct seed).
Proof.
  intros Hseed.
  destruct (construct_words seed) as (w0 & w1 & w2 & w3 & E & _ & Z0 & Z1).
  rewrite E. intros H. unfold PRNG.all_zero in H.
  inversion H as [|? ? H0 H']; subst.
  inversion H' as [|? ? H1 _]; subst.
  specialize (Z0 eq_refl). specialize (Z1 eq_refl).
  rewrite (to_double_small (seed + 0x9e3779b9)) in Z0, Z1 by lia.
  rewrite to_double_small in Z1 by lia.
  unfold ToUint32, two32 in Z0, Z1.
  apply Z.mod_divide in Z0; [|lia]. apply Z.mod_divide in Z1; [|lia].
  destruct Z0 as [q0 Q0]. destruct Z1 as [q1 Q1]. lia.
Qed.

Lemma ToUint32_lxor a b :
  ToUint32 (Z.lxor (ToUint32 a) (ToUint32 b)) =
  Z.lxor (ToUint32 a) (ToUint32 b).
Proof. rewrite <- ToUint32_xor. apply ToUint32_idem. Qed.

(** The four words [next] leaves, for a state of four 32-bit words. *)
Lemma next_state_words s0 s1 s2 s3 :
  0 <= s0 < two32 -> 0 <= s1 < two32 -> 0 <= s2 < two32 -> 0 <= s3 < two32 ->
  PRNG.next_state [s0; s1; s2; s3] =
    [ Z.lxor s0 (Z.lxor s3 s1);
      Z.lxor s1 (Z.lxor s2 s0);
      Z.lxor (Z.lxor s2 s0) (ToUint32 (s1 * 2 ^ 9));
      Z.lor (ToUint32 (Z.lxor s3 s1 * 2 ^ 11)) (Z.shiftr (Z.lxor s3 s1) 21) ].
Proof.
  intros H0 H1 H2 H3.
  unfold PRNG.next_state, word. cbn [upd nth].
  rewrite !ToUint32_or, !ToUint32_xor, !ToUint32_lxor.
  rewrite !ToUint32_shl by lia.
  rewrite (ToUint32_small (ushr _ 21)) by (apply ushr_range; lia).
  unfold ushr. rewrite !ToUint32_lxor.
  rewrite !(ToUint32_small s0), !(ToUint32_small s1),
    !(ToUint32_small s2), !(ToUint32_small s3) by assumption.
  reflexivity.
Qed.

Lemma next_state_wf s : PRNG.wf s -> PRNG.wf (PRNG.next_state s).
Proof.
  intros [Hlen Hall].
  split.
  - unfold PRNG.next_state. rewrite !length_upd. exact Hlen.
  - destruct s as [|s0 [|s1 [|s2 [|s3 [|]]]]]; try discriminate.
    unfold PRNG.next_state, word. cbn [upd nth].
    repeat constructor; apply ToUint32_range.
Qed.

(** A left rotation of a 32-bit word vanishes only at zero. *)
Lemma rotl_zero x :
  0 <= x < two32 ->
  Z.lor (ToUint32 (x * 2 ^ 11)) (Z.shiftr x 21) = 0 -> x = 0.
Proof.
  intros Hx H. apply Z.lor_eq_0_iff in H. destruct H as [Hhi Hlo].
  rewrite Z.shiftr_div_pow2 in Hlo by lia.
  unfold ToUint32, two32 in *.
  assert (x < 2 ^ 21).
  { destruct (Z.lt_ge_cases x (2 ^ 21)) as [L|G]; [exact L|].
    exfalso. assert (1 <= x / 2 ^ 21).
    { apply Z.div_le_lower_bound; lia. }
    lia. }
  rewrite Z.mod_small in Hhi by lia. lia.
Qed.

(** [x ^ (x << 9)] vanishes only at zero. *)
Lemma shift_fixpoint_zero x :
  0 <= x < two32 -> x = ToUint32 (x * 2 ^ 9) -> x = 0.
Proof.
  intros Hx H. unfold ToUint32, two32 in *.
  assert (D : (4294967296 | x * 511)).
  { exists (x * 2 ^ 9 / 4294967296).
    pose proof (Z.div_mod (x * 2 ^ 9) 4294967296 ltac:(lia)). lia. }
  rewrite Z.mul_comm in D.
  apply Z.gauss in D; [|reflexivity].
  destruct D as [q Q]. lia.
Qed.

Lemma next_state_not_all_zero s :
  PRNG.wf s -> ~ PRNG.all_zero s -> ~ PRNG.all_zero (PRNG.next_state s).
Proof.
  intros [Hlen Hall] Hnz Hz. apply Hnz. clear Hnz.
  destruct s as [|s0 [|s1 [|s2 [|s3 [|]]]]]; try discriminate.
  inversion Hall as [|? ? R0 Hall1]; subst.
  inversion Hall1 as [|? ? R1 Hall2]; subst.
  inversion Hall2 as [|? ? R2 Hall3]; subst.
  inversion Hall3 as [|? ? R3 _]; subst.
  rewrite next_state_words in Hz by assumption.
  unfold PRNG.all_zero in Hz.
  inversion Hz as [|? ? Z0 Hz1]; subst.
  inversion Hz1 as [|? ? Z1 Hz2]; subst.
  inversion Hz2 as [|? ? Z2 Hz3]; subst.
  inversion Hz3 as [|? ? Z3 _]; subst.
  assert (R31 : 0 <= Z.lxor s3 s1 < two32).
  { rewrite <- (ToUint32_small s3), <- (ToUint32_small s1) by assumption.
    rewrite <- ToUint32_lxor. apply ToUint32_range. }
  apply rotl_zero in Z3; [|exact R31].
  rewrite Z3, Z.lxor_0_r in Z0.
  apply Z.lxor_eq in Z3.
  rewrite Z0, Z.lxor_0_r in Z1, Z2.
  apply Z.lxor_eq in Z1. apply Z.lxor_eq in Z2.
  assert (s1 = 0).
  { apply shift_fixpoint_zero; [exact R1 |].
    transitivity s2; [exact Z1 | exact Z2]. }
  unfold PRNG.all_zero. repeat constructor; congruence.
Qed.

(** C8.  The generator's four-word state is never all zero: for every
    32-bit integer seed (signed or unsigned reading) the constructor leaves
    four 32-bit words of which at least one is non-zero, and [next] maps a
    state of four 32-bit words that is not all zero to a state of four
    32-bit words that is not all zero. *)
Theorem prng_state_never_all_zero :
  (forall seed, -2147483648 <= seed < 4294967296 ->
     PRNG.wf (PRNG.construct seed) /\ ~ PRNG.all_zero (PRNG.construct seed)) /\
  (forall s, PRNG.wf s -> ~ PRNG.all_zero s ->
     PRNG.wf (snd (PRNG.next s)) /\ ~ PRNG.all_zero (snd (PRNG.next s))).
Proof.
  split.
  - intros seed Hseed.
    split; [apply construct_wf | apply construct_not_all_zero; exact Hseed].
  - intros s Hwf Hnz. cbn [PRNG.next snd].
    split; [apply next_state_wf | apply next_state_not_all_zero]; assumption.
Qed.

Lemma prng_state_never_all_zero_witness :
  (PRNG.wf (PRNG.construct 42) /\ ~ PRNG.all_zero (PRNG.construct 42)) /\
  (PRNG.wf (snd (PRNG.next (PRNG.construct 42))) /\
   ~ PRNG.all_zero (snd (PRNG.next (PRNG.construct 42)))).
Proof.
  assert (H42 : PRNG.wf (PRNG.construct 42) /\
                ~ PRNG.all_zero (PRNG.construct 42)).
  { apply (proj1 prng_state_never_all_zero 42). lia. }
  split; [exact H42|].
  apply (proj2 prng_state_never_all_zero (PRNG.construct 42));
    [exact (proj1 H42) | exact (proj2 H42)].
Defined.

End Generator.

(** ** The generator: range of the draws *)

Section Draws.
Local Open Scope R_scope.

Lemma next_bits_range s : (0 <= PRNG.next_bits s < JS.two32)%Z.
Proof. unfold PRNG.next_bits. apply ushr_range. lia. Qed.

Lemma next_range s : 0 <= fst (PRNG.next s) <= 1 - / 4294967296.
Proof.
  cbn [PRNG.next fst].
  destruct (next_bits_range s) as [Hlo Hhi]. unfold JS.two32 in Hhi.
  apply IZR_le in Hlo.
  assert (Hhi' : (PRNG.next_bits s <= 4294967295)%Z) by lia.
  apply IZR_le in Hhi'.
  split.
  - apply Rmult_le_reg_r with 4294967296; [lra|].
    unfold Rdiv. rewrite Rmult_assoc, Rinv_l by lra. lra.
  - apply Rmult_le_reg_r with 4294967296; [lra|].
    unfold Rdiv. rewrite Rmult_assoc, Rinv_l by lra.
    rewrite Rmult_minus_distr_r, Rinv_l by lra. lra.
Qed.

Lemma randn_value s :
  fst (PRNG.randn s) =
  sqrt (-2 * ln (fst (PRNG.next s) + 1e-30))
  * cos (2 * PI * fst (PRNG.next (snd (PRNG.next s)))).
Proof. reflexivity. Qed.

Lemma randn_state s :
  snd (PRNG.randn s) = PRNG.next_state (PRNG.next_state s).
Proof. reflexivity. Qed.

(** The argument of the logarithm in [randn]. *)
Lemma log_argument_range s :
  1e-30 <= fst (PRNG.next s) + 1e-30 < 1.
Proof.
  pose proof (next_range s) as [Hlo Hhi].
  split; [lra|].
  assert (1e-30 < / 4294967296).
  { apply Rmult_lt_reg_r with 4294967296; [lra|].
    rewrite Rinv_l by lra. lra. }
  lra.
Qed.

(** With the guard, the logarithm and the square root of [randn] are taken
    inside their domains, and the value is the one of the real formula. *)
Lemma randn_finite_value s :
  PRNG.Math_log (fst (PRNG.next s) + 1e-30)
  = Some (ln (fst (PRNG.next s) + 1e-30)) /\
  PRNG.Math_sqrt (-2 * ln (fst (PRNG.next s) + 1e-30))
  = Some (sqrt (-2 * ln (fst (PRNG.next s) + 1e-30))) /\
  PRNG.randn_finite s = Some (fst (PRNG.randn s)).
Proof.
  pose proof (log_argument_range s) as [Hlo Hhi].
  assert (Hln : ln (fst (PRNG.next s) + 1e-30) < 0).
  { rewrite <- ln_1. apply ln_increasing; lra. }
  assert (EL : PRNG.Math_log (fst (PRNG.next s) + 1e-30)
               = Some (ln (fst (PRNG.next s) + 1e-30))).
  { unfold PRNG.Math_log.
    destruct (Rlt_dec 0 (fst (PRNG.next s) + 1e-30)) as [_|H];
      [reflexivity | exfalso; apply H; lra]. }
  assert (ES : PRNG.Math_sqrt (-2 * ln (fst (PRNG.next s) + 1e-30))
               = Some (sqrt (-2 * ln (fst (PRNG.next s) + 1e-30)))).
  { unfold PRNG.Math_sqrt.
    destruct (Rle_dec 0 (-2 * ln (fst (PRNG.next s) + 1e-30))) as [_|H];
      [reflexivity | exfalso; apply H; lra]. }
  split; [exact EL|]. split; [exact ES|].
  rewrite randn_value. unfold PRNG.randn_finite.
  cbv beta iota delta [PRNG.next]. cbn [fst snd] in EL, ES.
  unfold PRNG.next in EL, ES. cbn [fst snd] in EL, ES.
  rewrite EL, ES. reflexivity.
Qed.

(** A state whose second word is zero draws exactly [0]. *)
Lemma next_zero_word s : JS.word s 1 = 0%Z -> fst (PRNG.next s) = 0.
Proof.
  intros H. cbn [PRNG.next fst]. unfold PRNG.next_bits. rewrite H.
  replace (JS.ushr (JS.ushr (JS.imul (0 * 5) 7) 0) 0) with 0%Z
    by (vm_compute; reflexivity).
  lra.
Qed.

(** C9.  For every generator state, [random()] returns [k / 2^32] for an
    integer [0 <= k < 2^32], a value of [[0, 1)].  [randn()] returns a
    finite value: what it passes to [Math.log] is the draw plus [1e-30], in
    [[1e-30, 1)], so the logarithm is finite and negative, what it passes to
    [Math.sqrt] is positive and at most [-2 ln 1e-30], and the value is
    that of the real formula, bounded by [sqrt (-2 ln 1e-30)].  The guard is
    what does it: a state whose second word is zero draws exactly [0],
    where [Math.log] of the bare draw is not finite. *)
Theorem random_unit_interval_randn_bounded (s : PRNG.state) :
  (exists k : Z, (0 <= k < 4294967296)%Z /\
                 fst (PRNG.random s) = IZR k / 4294967296) /\
  0 <= fst (PRNG.random s) < 1 /\
  1e-30 <= fst (PRNG.next s) + 1e-30 < 1 /\
  0 < -2 * ln (fst (PRNG.next s) + 1e-30) <= -2 * ln 1e-30 /\
  PRNG.Math_log (fst (PRNG.next s) + 1e-30)
  = Some (ln (fst (PRNG.next s) + 1e-30)) /\
  PRNG.Math_sqrt (-2 * ln (fst (PRNG.next s) + 1e-30))
  = Some (sqrt (-2 * ln (fst (PRNG.next s) + 1e-30))) /\
  PRNG.randn_finite s = Some (fst (PRNG.randn s)) /\
  Rabs (fst (PRNG.randn s)) <= sqrt (-2 * ln 1e-30) /\
  (JS.word s 1 = 0%Z ->
   fst (PRNG.next s) = 0 /\ PRNG.Math_log (fst (PRNG.next s)) = None).
Proof.
  pose proof (next_range s) as Hrange.
  pose proof (log_argument_range s) as [Hlo Hhi].
  destruct (randn_finite_value s) as (EL & ES & EF).
  assert (Hpos : 0 < 1e-30) by lra.
  assert (Hln_hi : ln (fst (PRNG.next s) + 1e-30) < 0).
  { rewrite <- ln_1. apply ln_increasing; lra. }
  assert (Hln_lo : ln 1e-30 <= ln (fst (PRNG.next s) + 1e-30)).
  { destruct Hlo as [Hlt|Heq].
    - left. apply ln_increasing; lra.
    - right. rewrite <- Heq. reflexivity. }
  split.
  { exists (PRNG.next_bits s). split; [apply next_bits_range | reflexivity]. }
  split.
  { unfold PRNG.random.
    assert (0 < / 4294967296) by (apply Rinv_0_lt_compat; lra). lra. }
  split; [split; assumption|].
  split; [lra|].
  split; [exact EL|]. split; [exact ES|]. split; [exact EF|].
  split.
  { rewrite randn_value, Rabs_mult.
    rewrite (Rabs_pos_eq (sqrt _)) by apply sqrt_pos.
    apply Rle_trans with (sqrt (-2 * ln (fst (PRNG.next s) + 1e-30)) * 1).
    - apply Rmult_le_compat_l; [apply sqrt_pos|].
      apply Rabs_le. pose proof (COS_bound
        (2 * PI * fst (PRNG.next (snd (PRNG.next s))))). lra.
    - rewrite Rmult_1_r. apply sqrt_le_1; lra. }
  intros Hw. pose proof (next_zero_word s Hw) as E0.
  split; [exact E0|]. rewrite E0. unfold PRNG.Math_log.
  destruct (Rlt_dec 0 0) as [H|_]; [exfalso; lra | reflexivity].
Qed.

Lemma random_unit_interval_randn_bounded_witness :
  fst (PRNG.next [1; 0; 0; 0]%Z) = 0 /\
  PRNG.Math_log (fst (PRNG.next [1; 0; 0; 0]%Z)) = None.
Proof.
  destruct (random_unit_interval_randn_bounded [1; 0; 0; 0]%Z)
    as (_ & _ & _ & _ & _ & _ & _ & _ & H).
  apply H. reflexivity.
Defined.

End Draws.

(** ** The integrator: what [step] draws *)

Section StepDraws.
Import Potentials EulerMaruyama.
Local Open Scope R_scope.

Lemma draws_two_more n s :
  draws (2 * S n) s = PRNG.next_state (PRNG.next_state (draws (2 * n) s)).
Proof.
  unfold draws. replace (2 * S n)%nat with (S (S (2 * n))) by lia.
  reflexivity.
Qed.

(** [randnArray] fills the whole array from successive [randn] draws and
    leaves the generator [2 * arr.length] uniform draws further. *)
Lemma randnArray_spec arr s :
  length (fst (PRNG.randnArray arr s)) = length arr /\
  snd (PRNG.randnArray arr s) = draws (2 * length arr) s /\
  forall k, (k < length arr)%nat ->
    at_ (fst (PRNG.randnArray arr s)) k = fst (PRNG.randn (draws (2 * k) s)).
Proof.
  unfold PRNG.randnArray.
  apply (for_loop_inv
    (fun i (acc : list R * PRNG.state) =>
       length (fst acc) = length arr /\
       snd acc = draws (2 * i) s /\
       forall k, (k < i)%nat ->
         at_ (fst acc) k = fst (PRNG.randn (draws (2 * k) s)))).
  - cbn [fst snd]. repeat split. intros k Hk. lia.
  - intros i [a p] Hi (Hlen & Hp & Hval). cbn [fst snd] in *.
    destruct (PRNG.randn p) as [z p'] eqn:E. cbn [fst snd].
    assert (Ez : z = fst (PRNG.randn p)) by (rewrite E; reflexivity).
    assert (Ep : p' = snd (PRNG.randn p)) by (rewrite E; reflexivity).
    rewrite randn_state in Ep. subst p.
    split; [rewrite length_upd; exact Hlen|].
    split; [rewrite draws_two_more; exact Ep|].
    intros k Hk. unfold at_.
    destruct (Nat.eq_dec i k) as [->|Hne].
    + rewrite nth_upd_same by lia. exact Ez.
    + rewrite nth_upd_other by exact Hne. apply Hval. lia.
Qed.

Lemma same_draws_refl a : same_draws a a.
Proof. unfold same_draws. tauto. Qed.

Lemma same_draws_trans a b c :
  same_draws a b -> same_draws b c -> same_draws a c.
Proof.
  unfold same_draws. intros H1 H2.
  decompose [and] H1. decompose [and] H2.
  repeat split; congruence.
Qed.

Lemma interaction_same_draws i pos sys :
  same_draws sys (interaction i pos sys).
Proof.
  unfold interaction.
  destruct (Phi sys) as [ev gr | ev gr].
  - apply (for_loop_inv (fun _ acc => same_draws sys acc)).
    + apply same_draws_refl.
    + intros j acc _ H. destruct (Nat.eqb i j); [exact H|].
      destruct (radial_pair _ _ _ _ _ _) as [df gp].
      apply same_draws_trans with acc; [exact H|].
      unfold same_draws. cbn. tauto.
  - apply (for_loop_inv (fun _ acc => same_draws sys acc)).
    + apply same_draws_refl.
    + intros j acc _ H. destruct (Nat.eqb i j); [exact H|].
      destruct (vector_pair _ _ _ _ _ _ _) as [[df go] gp].
      apply same_draws_trans with acc; [exact H|].
      unfold same_draws. cbn. tauto.
Qed.

Lemma step_particle_same_draws q i sys pos :
  same_draws sys (fst (step_particle q i (sys, pos))).
Proof.
  unfold step_particle. cbn [fst].
  match goal with
  | |- same_draws _ (set_gradPhi _ (interaction ?i ?p ?s)) =>
      apply same_draws_trans with (interaction i p s);
      [apply same_draws_trans with s;
         [unfold same_draws; cbn; tauto | apply interaction_same_draws]
      | unfold same_draws; cbn; tauto]
  end.
Qed.

Lemma step_loop_same_draws q n sys pos :
  same_draws sys (fst (for_loop n (step_particle q) (sys, pos))).
Proof.
  apply (for_loop_inv (fun _ acc => same_draws sys (fst acc))).
  - apply same_draws_refl.
  - intros i [a p] _ H. cbn [fst] in H.
    apply same_draws_trans with a; [exact H|].
    apply step_particle_same_draws.
Qed.

Lemma step_system sys state :
  same_draws
    (set_prng (snd (PRNG.randnArray (noise sys) (prng sys)))
       (set_noise (fst (PRNG.randnArray (noise sys) (prng sys))) sys))
    (fst (step sys state)).
Proof.
  unfold step.
  destruct (PRNG.randnArray (noise sys) (prng sys)) as [nz p]. cbn [fst snd].
  match goal with
  | |- context [for_loop ?n (step_particle ?q) (?s, ?p0)] =>
      pose proof (step_loop_same_draws q n s p0) as H;
      destruct (for_loop n (step_particle q) (s, p0)) as [s' pos']
  end.
  exact H.
Qed.

(** C5.  One [step] draws the whole noise batch from the generator before
    anything else: the noise buffer it leaves is [randnArray] of the old
    buffer on the old generator state, entry [k] being the [randn] draw
    made after [2 * k] uniform draws; a [randn] draw advances the generator
    by two uniform draws; and the generator ends exactly [2 * N * d] uniform
    draws further, whatever the positions, [V] and [Phi]. *)
Theorem step_draws_noise_batch (sys : ParticleSystem) (state : ParticleState) :
  length (noise sys) = Z.to_nat (N sys * d sys) ->
  noise (fst (step sys state)) = fst (PRNG.randnArray (noise sys) (prng sys)) /\
  (forall k, (k < Z.to_nat (N sys * d sys))%nat ->
     at_ (noise (fst (step sys state))) k =
     fst (PRNG.randn (draws (2 * k) (prng sys)))) /\
  (forall s, snd (PRNG.randn s) = draws 2 s) /\
  prng (fst (step sys state)) = draws (2 * Z.to_nat (N sys * d sys)) (prng sys) /\
  length (noise (fst (step sys state))) = Z.to_nat (N sys * d sys).
Proof.
  intros Hlen.
  pose proof (step_system sys state) as H.
  destruct H as (_ & _ & _ & _ & _ & _ & Hnoise & Hprng).
  cbn in Hnoise, Hprng.
  destruct (randnArray_spec (noise sys) (prng sys)) as (Hl & Hs & Hv).
  rewrite <- Hnoise, <- Hprng, Hs, Hl, Hlen.
  repeat split; try reflexivity.
  intros k Hk. apply Hv. lia.
Qed.

End StepDraws.

(** ** Element-wise loops over a buffer *)

Section BufferLoops.
Local Open Scope R_scope.

(** A loop whose iteration [k] rewrites entry [base + k] from its old value. *)
Lemma for_loop_upd_at (f : nat -> R -> R) (base n : nat) (buf : vec) :
  let res :=
    for_loop n (fun k b => upd (base + k) (f k (at_ b (base + k))) b) buf in
  length res = length buf /\
  forall j,
    at_ res j =
    if (base <=? j)%nat && (j <? base + n)%nat && (j <? length buf)%nat
    then f (j - base)%nat (at_ buf j) else at_ buf j.
Proof.
  cbv zeta.
  apply (for_loop_inv
    (fun i (acc : vec) =>
       length acc = length buf /\
       forall j,
         at_ acc j =
         if (base <=? j)%nat && (j <? base + i)%nat && (j <? length buf)%nat
         then f (j - base)%nat (at_ buf j) else at_ buf j)).
  - split; [reflexivity|]. intros j.
    destruct (base <=? j)%nat eqn:E1; cbn [andb]; [|reflexivity].
    apply Nat.leb_le in E1.
    destruct (j <? base + 0)%nat eqn:E2; [|reflexivity].
    apply Nat.ltb_lt in E2. lia.
  - intros i acc Hi [Hlen Hval]. split; [rewrite length_upd; exact Hlen|].
    intros j. unfold at_ at 1.
    destruct (Nat.eq_dec (base + i) j) as [E|E].
    + subst j.
      replace (base <=? base + i)%nat with true
        by (symmetry; apply Nat.leb_le; lia).
      replace (base + i <? base + S i)%nat with true
        by (symmetry; apply Nat.ltb_lt; lia).
      cbn [andb].
      destruct (base + i <? length buf)%nat eqn:E3.
      * apply Nat.ltb_lt in E3. rewrite nth_upd_same by lia.
        replace (base + i - base)%nat with i by lia.
        f_equal. rewrite Hval.
        replace (base + i <? base + i)%nat with false
          by (symmetry; apply Nat.ltb_ge; lia).
        rewrite andb_false_r. reflexivity.
      * apply Nat.ltb_ge in E3. rewrite upd_out_of_range by lia.
        fold (at_ acc (base + i)). rewrite Hval.
        replace (base + i <? length buf)%nat with false
          by (symmetry; apply Nat.ltb_ge; lia).
        rewrite andb_false_r. reflexivity.
    + rewrite nth_upd_other by exact E. fold (at_ acc j). rewrite Hval.
      replace (j <? base + S i)%nat with (j <? base + i)%nat; [reflexivity|].
      destruct (j <? base + i)%nat eqn:E4; symmetry.
      * apply Nat.ltb_lt in E4. apply Nat.ltb_lt. lia.
      * apply Nat.ltb_ge in E4. apply Nat.ltb_ge. lia.
Qed.

(** The same loop on a buffer written from its start. *)
Lemma for_loop_upd (f : nat -> R -> R) (n : nat) (buf : vec) :
  let res := for_loop n (fun k b => upd k (f k (at_ b k)) b) buf in
  length res = length buf /\
  forall j,
    at_ res j =
    if (j <? n)%nat && (j <? length buf)%nat
    then f j (at_ buf j) else at_ buf j.
Proof.
  cbv zeta.
  pose proof (for_loop_upd_at f 0 n buf) as H. cbv zeta in H.
  cbn [Nat.add] in H. destruct H as [Hlen Hval].
  split; [exact Hlen|]. intros j. rewrite Hval.
  cbn [Nat.leb andb]. rewrite Nat.sub_0_r. reflexivity.
Qed.

Lemma vec_ext (a b : vec) :
  length a = length b -> (forall j, (j < length a)%nat -> at_ a j = at_ b j) ->
  a = b.
Proof.
  intros Hlen H. apply (nth_ext a b 0 0 Hlen). exact H.
Qed.

Lemma at_out_of_range (a : vec) j : (length a <= j)%nat -> at_ a j = 0.
Proof. intros H. unfold at_. apply nth_overflow. exact H. Qed.

Lemma at_repeat (x : R) n j : (j < n)%nat -> at_ (repeat x n) j = x.
Proof. intros H. unfold at_. apply nth_repeat_lt. exact H. Qed.

Lemma at_map_opp (l : vec) k : at_ (map Ropp l) k = - at_ l k.
Proof.
  unfold at_. rewrite <- (map_nth Ropp l 0 k). f_equal. symmetry. apply Ropp_0.
Qed.

Lemma at_zeros n j : at_ (repeat 0 n) j = 0.
Proof.
  destruct (Nat.lt_ge_cases j n) as [H|H].
  - apply at_repeat. exact H.
  - apply at_out_of_range. rewrite repeat_length. exact H.
Qed.

(** [for (k < d) gradPhi[k] = 0] on a buffer of length [d]. *)
Lemma zero_loop (n : nat) (buf : vec) :
  length buf = n ->
  for_loop n (fun k gp => upd k 0 gp) buf = repeat 0 n.
Proof.
  intros Hlen.
  pose proof (for_loop_upd (fun _ _ => 0) n buf) as H.
  cbv beta zeta in H. destruct H as [Hl Hv].
  apply vec_ext.
  - rewrite Hl, repeat_length. exact Hlen.
  - intros j Hj. rewrite Hl in Hj. rewrite Hv, at_repeat by lia.
    replace (j <? n)%nat with true by (symmetry; apply Nat.ltb_lt; lia).
    replace (j <? length buf)%nat with true
      by (symmetry; apply Nat.ltb_lt; lia).
    reflexivity.
Qed.

End BufferLoops.

(** ** The integrator with a single particle *)

Section SingleParticle.
Import Potentials EulerMaruyama.
Local Open Scope R_scope.

Lemma interaction_single pos sys :
  N sys = 1%Z -> interaction 0 pos sys = sys.
Proof.
  intros HN. unfold interaction. rewrite HN.
  change (Z.to_nat 1) with 1%nat.
  destruct (Phi sys); rewrite for_loop_S, for_loop_0; reflexivity.
Qed.

Lemma mean_field_of_zero (n : nat) (c : R) :
  for_loop n (fun k gp => upd k (at_ gp k / c) gp) (repeat 0 n) = repeat 0 n.
Proof.
  pose proof (for_loop_upd (fun _ v => v / c) n (repeat 0 n)) as H.
  cbv beta zeta in H. destruct H as [Hl Hv].
  apply vec_ext; [exact Hl|].
  intros j Hj. rewrite Hl, repeat_length in Hj.
  rewrite Hv, at_repeat by exact Hj.
  destruct (_ && _); [unfold Rdiv; apply Rmult_0_l | reflexivity].
Qed.

Lemma step_particle_single q sys pos :
  N sys = 1%Z ->
  length (gradPhi sys) = Z.to_nat (d sys) ->
  let dd := Z.to_nat (d sys) in
  let gV := gradient (V sys) (getParticle sys pos 0) (gradV sys) in
  step_particle q 0 (sys, pos) =
  (set_gradPhi (repeat 0 dd) (set_gradV gV sys),
   for_loop dd
     (fun k pos =>
        upd k (at_ pos k
               + ((- at_ gV k - 0) * dt sys + sigma sys * q * at_ (noise sys) k))
          pos) pos).
Proof.
  intros HN Hlen dd gV. unfold step_particle.
  cbn [d set_gradV set_gradPhi gradPhi gradV V].
  fold dd. rewrite zero_loop by exact Hlen.
  rewrite interaction_single by exact HN.
  cbn [d set_gradV set_gradPhi gradPhi gradV V N noise dt sigma].
  fold dd. rewrite mean_field_of_zero.
  f_equal. cbn [Nat.mul Nat.add].
  apply for_loop_ext. intros k acc _. rewrite at_zeros. reflexivity.
Qed.

Lemma getParticle_single sys pos :
  length pos = Z.to_nat (d sys) -> getParticle sys pos 0 = pos.
Proof.
  intros H. unfold getParticle, subarray.
  cbn [Nat.mul Nat.add skipn]. rewrite Nat.add_0_r, Nat.sub_0_r, <- H.
  apply firstn_all.
Qed.

(** C10.  With [N = 1] the interaction term [step] computes is the zero
    vector, and the update is
    [x <- x + (- grad V(x)) * dt + sigma * sqrt(dt) * noise], the noise being
    the batch drawn by this step; the facts assumed of the system hold again
    after the step, so this is so at every step. *)
Theorem single_particle_no_interaction
    (sys : ParticleSystem) (state : ParticleState) :
  N sys = 1%Z ->
  length (gradPhi sys) = Z.to_nat (d sys) ->
  length (positions state) = Z.to_nat (d sys) ->
  let dd := Z.to_nat (d sys) in
  let x := positions state in
  let gV := gradient (V sys) x (gradV sys) in
  let sys' := fst (step sys state) in
  let x' := positions (snd (step sys state)) in
  gradPhi sys' = repeat 0 dd /\
  noise sys' = fst (PRNG.randnArray (noise sys) (prng sys)) /\
  length x' = dd /\
  (forall k, (k < dd)%nat ->
     at_ x' k =
     at_ x k + (- at_ gV k) * dt sys + sigma sys * sqrt (dt sys) * at_ (noise sys') k) /\
  N sys' = 1%Z /\ d sys' = d sys /\ length (gradPhi sys') = dd.
Proof.
  intros HN Hgp Hpos dd x gV sys' x'.
  subst sys' x'. unfold step.
  destruct (PRNG.randnArray (noise sys) (prng sys)) as [nz p]. cbn [fst].
  cbn [N set_prng set_noise]. rewrite HN.
  change (Z.to_nat 1) with 1%nat. rewrite for_loop_S, for_loop_0.
  rewrite step_particle_single by (cbn; assumption).
  cbn [fst snd positions gradPhi noise N d dt sigma V gradV
       set_gradPhi set_gradV set_prng set_noise].
  fold dd. rewrite getParticle_single by (cbn; assumption). fold x gV.
  match goal with
  | |- context [for_loop dd ?body x] =>
      pose proof (for_loop_upd
        (fun k v => v + ((- at_ gV k - 0) * dt sys
                         + sigma sys * sqrt (dt sys) * at_ nz k)) dd x) as H
  end.
  cbv beta zeta in H. destruct H as [Hl Hv].
  repeat split; try assumption; try reflexivity.
  - rewrite Hl. exact Hpos.
  - intros k Hk. rewrite Hv.
    replace (k <? dd)%nat with true by (symmetry; apply Nat.ltb_lt; lia).
    replace (k <? length x)%nat with true
      by (symmetry; apply Nat.ltb_lt; unfold x; lia).
    cbn [andb]. lra.
  - apply repeat_length.
Qed.

End SingleParticle.

(** ** The radial pair term *)

Section RadialPair.
Import Potentials EulerMaruyama.
Local Open Scope R_scope.

(** The squared distance the first inner loop accumulates. *)
Lemma radial_pair_distance (dd : nat) (xi xj diff : vec) :
  length diff = dd ->
  let res :=
    for_loop dd
      (fun k (acc : vec * R) =>
         let '(diff, rSq) := acc in
         let diff := upd k (at_ xi k - at_ xj k) diff in
         (diff, rSq + at_ diff k * at_ diff k))
      (diff, 0) in
  length (fst res) = dd /\
  (forall k, (k < dd)%nat -> at_ (fst res) k = at_ xi k - at_ xj k) /\
  snd res =
    for_loop dd
      (fun k s => s + (at_ xi k - at_ xj k) * (at_ xi k - at_ xj k)) 0.
Proof.
  intros Hlen. cbv zeta.
  apply (for_loop_inv
    (fun i (acc : vec * R) =>
       length (fst acc) = dd /\
       (forall k, (k < i)%nat -> at_ (fst acc) k = at_ xi k - at_ xj k) /\
       snd acc =
         for_loop i
           (fun k s => s + (at_ xi k - at_ xj k) * (at_ xi k - at_ xj k)) 0)).
  - cbn [fst snd]. repeat split; [exact Hlen | intros k Hk; lia].
  - intros i [df rSq] Hi (Hl & Hv & Hs). cbn [fst snd] in *.
    assert (Hsame : at_ (upd i (at_ xi i - at_ xj i) df) i
                    = at_ xi i - at_ xj i).
    { unfold at_ at 1. apply nth_upd_same. lia. }
    split; [rewrite length_upd; exact Hl|]. split.
    + intros k Hk. destruct (Nat.eq_dec i k) as [->|Hne].
      * exact Hsame.
      * unfold at_ at 1. rewrite nth_upd_other by exact Hne.
        apply Hv. lia.
    + rewrite for_loop_S, Hsame, Hs. reflexivity.
Qed.

(** What the loop body leaves in [gradPhi]. *)
Lemma radial_pair_spec (g : R -> R) (dd : nat) (xi xj diff gp : vec) :
  length diff = dd -> length gp = dd ->
  let rSq :=
    for_loop dd
      (fun k s => s + (at_ xi k - at_ xj k) * (at_ xi k - at_ xj k)) 0 in
  let r := Rmax (sqrt rSq) 1e-10 in
  length (snd (radial_pair g dd xi xj diff gp)) = dd /\
  forall k, (k < dd)%nat ->
    at_ (snd (radial_pair g dd xi xj diff gp)) k =
    at_ gp k + g r * (at_ xi k - at_ xj k) / r.
Proof.
  intros Hdiff Hgp rSq r. unfold radial_pair.
  pose proof (radial_pair_distance dd xi xj diff Hdiff) as H.
  cbv zeta in H.
  destruct (for_loop dd _ (diff, 0)) as [df s].
  cbn [fst snd] in H. destruct H as (Hl & Hv & Hs).
  cbn [snd]. rewrite Hs. fold rSq. fold r.
  pose proof (for_loop_upd (fun k v => v + g r * at_ df k / r) dd gp) as H.
  cbv beta zeta in H. destruct H as [Hl' Hv'].
  split; [rewrite Hl'; exact Hgp|].
  intros k Hk. rewrite Hv'.
  replace (k <? dd)%nat with true by (symmetry; apply Nat.ltb_lt; lia).
  replace (k <? length gp)%nat with true
    by (symmetry; apply Nat.ltb_lt; lia).
  cbn [andb]. rewrite Hv by exact Hk. reflexivity.
Qed.

(** C7.  In the radial branch, the term a pair adds to a zeroed
    accumulator for the displacement [x - y] is [dPhi/dr] at the clamped
    distance times the displacement over that distance, and it is the
    negation, component by component, of the term added for [y - x]. *)
Theorem radial_pair_antisymmetric
    (g : R -> R) (dd : nat) (x y diff1 diff2 : vec) :
  length x = dd -> length y = dd ->
  length diff1 = dd -> length diff2 = dd ->
  let r :=
    Rmax (sqrt (for_loop dd
                  (fun k s => s + (at_ x k - at_ y k) * (at_ x k - at_ y k)) 0))
         1e-10 in
  (forall k, (k < dd)%nat ->
     at_ (snd (radial_pair g dd x y diff1 (repeat 0 dd))) k
     = g r * (at_ x k - at_ y k) / r) /\
  snd (radial_pair g dd x y diff1 (repeat 0 dd)) =
  map Ropp (snd (radial_pair g dd y x diff2 (repeat 0 dd))).
Proof.
  intros Hx Hy H1 H2 r.
  pose proof (radial_pair_spec g dd x y diff1 (repeat 0 dd) H1
                (repeat_length 0 dd)) as HA.
  pose proof (radial_pair_spec g dd y x diff2 (repeat 0 dd) H2
                (repeat_length 0 dd)) as HB.
  cbv zeta in HA, HB. destruct HA as [LA VA]. destruct HB as [LB VB].
  assert (E : for_loop dd
                (fun k s => s + (at_ y k - at_ x k) * (at_ y k - at_ x k)) 0
              = for_loop dd
                (fun k s => s + (at_ x k - at_ y k) * (at_ x k - at_ y k)) 0).
  { apply for_loop_ext. intros k s _. ring. }
  rewrite E in VB. fold r in VA, VB.
  split.
  - intros k Hk. rewrite VA by exact Hk. rewrite at_zeros. ring.
  - apply vec_ext.
    + rewrite length_map. congruence.
    + intros k Hk. rewrite LA in Hk.
      rewrite VA, at_map_opp, VB by exact Hk.
      rewrite at_zeros. unfold Rdiv. ring.
Qed.

End RadialPair.

(** ** Derivatives of pointwise-defined functions *)

Section Derivatives.
Local Open Scope R_scope.

Lemma D_value (f : R -> R) (x l l' : R) :
  derivable_pt_lim f x l -> l = l' -> derivable_pt_lim f x l'.
Proof. intros H <-. exact H. Qed.

Lemma D_const (c x : R) : derivable_pt_lim (fun _ => c) x 0.
Proof. apply (derivable_pt_lim_const c x). Qed.

Lemma D_id (x : R) : derivable_pt_lim (fun t => t) x 1.
Proof. apply (derivable_pt_lim_id x). Qed.

Lemma D_plus (f g : R -> R) (x lf lg : R) :
  derivable_pt_lim f x lf -> derivable_pt_lim g x lg ->
  derivable_pt_lim (fun t => f t + g t) x (lf + lg).
Proof. intros Hf Hg. apply (derivable_pt_lim_plus f g x lf lg Hf Hg). Qed.

Lemma D_minus (f g : R -> R) (x lf lg : R) :
  derivable_pt_lim f x lf -> derivable_pt_lim g x lg ->
  derivable_pt_lim (fun t => f t - g t) x (lf - lg).
Proof. intros Hf Hg. apply (derivable_pt_lim_minus f g x lf lg Hf Hg). Qed.

Lemma D_opp (f : R -> R) (x lf : R) :
  derivable_pt_lim f x lf -> derivable_pt_lim (fun t => - f t) x (- lf).
Proof. intros Hf. apply (derivable_pt_lim_opp f x lf Hf). Qed.

Lemma D_mult (f g : R -> R) (x lf lg : R) :
  derivable_pt_lim f x lf -> derivable_pt_lim g x lg ->
  derivable_pt_lim (fun t => f t * g t) x (lf * g x + f x * lg).
Proof. intros Hf Hg. apply (derivable_pt_lim_mult f g x lf lg Hf Hg). Qed.

Lemma D_div (f g : R -> R) (x lf lg : R) :
  derivable_pt_lim f x lf -> derivable_pt_lim g x lg -> g x <> 0 ->
  derivable_pt_lim (fun t => f t / g t) x ((lf * g x - lg * f x) / (g x)²).
Proof.
  intros Hf Hg Hx. apply (derivable_pt_lim_div f g x lf lg Hf Hg Hx).
Qed.

Lemma D_comp (f g : R -> R) (x lf lg : R) :
  derivable_pt_lim f x lf -> derivable_pt_lim g (f x) lg ->
  derivable_pt_lim (fun t => g (f t)) x (lg * lf).
Proof. intros Hf Hg. apply (derivable_pt_lim_comp f g x lf lg Hf Hg). Qed.

Lemma D_pow (f : R -> R) (n : nat) (x lf : R) :
  derivable_pt_lim f x lf ->
  derivable_pt_lim (fun t => f t ^ n) x (INR n * f x ^ pred n * lf).
Proof.
  intros Hf.
  apply (D_comp f (fun y => y ^ n) x lf (INR n * f x ^ pred n) Hf).
  apply derivable_pt_lim_pow.
Qed.

Lemma D_exp (f : R -> R) (x lf : R) :
  derivable_pt_lim f x lf ->
  derivable_pt_lim (fun t => exp (f t)) x (exp (f x) * lf).
Proof.
  intros Hf. apply (D_comp f exp x lf (exp (f x)) Hf).
  apply derivable_pt_lim_exp.
Qed.

Lemma D_sqrt (f : R -> R) (x lf : R) :
  derivable_pt_lim f x lf -> 0 < f x ->
  derivable_pt_lim (fun t => sqrt (f t)) x (/ (2 * sqrt (f x)) * lf).
Proof.
  intros Hf Hpos. apply (D_comp f sqrt x lf (/ (2 * sqrt (f x))) Hf).
  apply derivable_pt_lim_sqrt. exact Hpos.
Qed.

Lemma cosh_pos (x : R) : 0 < cosh x.
Proof.
  unfold cosh. pose proof (exp_pos x). pose proof (exp_pos (- x)). lra.
Qed.

Lemma cosh2_minus_sinh2 (x : R) : cosh x * cosh x - sinh x * sinh x = 1.
Proof.
  unfold cosh, sinh.
  assert (E : exp x * exp (- x) = 1).
  { rewrite <- exp_plus, Rplus_opp_r. apply exp_0. }
  rewrite <- E. field.
Qed.

Lemma D_tanh (f : R -> R) (x lf : R) :
  derivable_pt_lim f x lf ->
  derivable_pt_lim (fun t => tanh (f t)) x (1 / cosh (f x) ^ 2 * lf).
Proof.
  intros Hf. apply (D_comp f tanh x lf (1 / cosh (f x) ^ 2) Hf).
  pose proof (cosh_pos (f x)) as Hc.
  apply D_value with
    ((cosh (f x) * cosh (f x) - sinh (f x) * sinh (f x)) / (cosh (f x))²).
  - apply (D_div sinh cosh (f x) (cosh (f x)) (sinh (f x))).
    + apply derivable_pt_lim_sinh.
    + apply derivable_pt_lim_cosh.
    + lra.
  - rewrite cosh2_minus_sinh2. unfold Rsqr. field. lra.
Qed.

(** A derivative only depends on the function near the point. *)
Lemma D_locally (f g : R -> R) (x l delta : R) :
  0 < delta ->
  (forall t, Rabs (t - x) < delta -> f t = g t) ->
  derivable_pt_lim g x l -> derivable_pt_lim f x l.
Proof.
  intros Hd Hfg Hg eps Heps.
  destruct (Hg eps Heps) as [d1 Hd1].
  assert (Hmin : 0 < Rmin d1 delta).
  { apply Rmin_glb_lt; [apply cond_pos | exact Hd]. }
  exists (mkposreal _ Hmin). intros h Hh Hlt. cbn [pos] in Hlt.
  rewrite (Hfg (x + h)), (Hfg x).
  - apply Hd1; [exact Hh|].
    apply Rlt_le_trans with (Rmin d1 delta); [exact Hlt | apply Rmin_l].
  - replace (x - x) with 0 by ring. rewrite Rabs_R0. exact Hd.
  - replace (x + h - x) with h by ring.
    apply Rlt_le_trans with (Rmin d1 delta); [exact Hlt | apply Rmin_r].
Qed.

Lemma D_ext (f g : R -> R) (x l : R) :
  (forall t, f t = g t) -> derivable_pt_lim g x l -> derivable_pt_lim f x l.
Proof.
  intros H. apply (D_locally f g x l 1); [lra|]. intros t _. apply H.
Qed.

Lemma D_inv (f : R -> R) (x lf : R) :
  derivable_pt_lim f x lf -> f x <> 0 ->
  derivable_pt_lim (fun t => / f t) x (- lf / (f x * f x)).
Proof.
  intros Hf Hx.
  apply D_ext with (fun t => 1 / f t).
  - intros t. unfold Rdiv. ring.
  - apply D_value with ((0 * f x - lf * 1) / (f x)²).
    + apply (D_div (fun _ => 1) f x 0 lf); [apply D_const | exact Hf | exact Hx].
    + unfold Rsqr. field. exact Hx.
Qed.

End Derivatives.

(** Differentiation of an expression in the variable, rule by rule. *)
Ltac derive_step :=
  first
    [ apply D_const
    | apply D_id
    | apply D_exp
    | apply D_tanh
    | apply D_pow
    | apply D_plus
    | apply D_minus
    | apply D_opp
    | apply D_mult
    | apply D_inv ].

Ltac derive := repeat derive_step.

(** Decimal literals as quotients of integers, for [ring] and [field]. *)
Ltac decimals :=
  unfold Q2R in *; cbn [QArith_base.Qnum QArith_base.Qden] in *.


(** ** The radial force laws: [gradient] is the derivative of [evaluate] *)

Section RadialGradients.
Import Potentials.
Local Open Scope R_scope.

Lemma Gaussian_derivative (A sigma r : R) :
  sigma <> 0 ->
  derivable_pt_lim (Gaussian_evaluate A sigma) r (Gaussian_gradient A sigma r).
Proof.
  intros Hs. unfold Gaussian_evaluate, Gaussian_gradient, Rdiv.
  eapply D_value; [derive|]. cbv beta.
  replace (2 * (sigma * sigma)) with (2 * sigma * sigma) by ring.
  field. exact Hs.
Qed.

Lemma smoothInd_derivative (eps lo hi r : R) :
  eps <> 0 ->
  derivable_pt_lim (fun t => smoothInd eps t lo hi) r (smoothIndGrad eps r lo hi).
Proof.
  intros He. unfold smoothInd, smoothIndGrad, Rdiv.
  eapply D_value; [derive|]. cbv beta.
  pose proof (cosh_pos ((r - lo) * / eps)).
  pose proof (cosh_pos ((r - hi) * / eps)).
  decimals. field. repeat split; lra.
Qed.

Lemma Piecewise_derivative (beta1 beta2 eps r : R) :
  eps <> 0 ->
  derivable_pt_lim (Piecewise_evaluate beta1 beta2 eps) r
    (Piecewise_gradient beta1 beta2 eps r).
Proof.
  intros He. unfold Piecewise_evaluate, Piecewise_gradient.
  eapply D_value.
  - apply D_plus; (apply D_mult; [apply D_const|]);
      apply smoothInd_derivative; exact He.
  - cbv beta. ring.
Qed.

Lemma Inverse_derivative (gamma r : R) :
  r + 1 <> 0 ->
  derivable_pt_lim (Inverse_evaluate gamma) r (Inverse_gradient gamma r).
Proof.
  intros Hr. unfold Inverse_evaluate, Inverse_gradient, Rdiv.
  eapply D_value.
  - apply D_mult; [apply D_const|].
    apply D_inv; [derive | decimals; lra].
  - cbv beta. decimals. field. lra.
Qed.

Lemma Morse_derivative (D a r0 r : R) :
  derivable_pt_lim (Morse_evaluate D a r0) r (Morse_gradient D a r0 r).
Proof.
  unfold Morse_evaluate, Morse_gradient.
  eapply D_value; [derive|]. cbv beta. simpl. ring.
Qed.

End RadialGradients.

(** ** The Lennard-Jones law *)

Section LennardJonesLaw.
Import Potentials.
Local Open Scope R_scope.

Variable p : LennardJones.

Lemma LJ_shifted_derivative (r : R) :
  r <> 0 -> derivable_pt_lim (LJ_shifted p) r (LJ_force p r).
Proof.
  intros Hr. unfold LJ_shifted, LJ_force, Rdiv.
  eapply D_value; [derive; exact Hr|].
  cbv beta. decimals. simpl. field. exact Hr.
Qed.

Lemma LJ_evaluate_beyond (r : R) :
  rCut p <= r -> LennardJones_evaluate p r = 0.
Proof.
  intros H. unfold LennardJones_evaluate.
  destruct (Rle_dec (rCut p) r); [reflexivity | contradiction].
Qed.

Lemma LJ_gradient_beyond (r : R) :
  rCut p <= r -> LennardJones_gradient p r = 0.
Proof.
  intros H. unfold LennardJones_gradient.
  destruct (Rle_dec (rCut p) r); [reflexivity | contradiction].
Qed.

Lemma LJ_evaluate_below (r : R) :
  r < rCut p -> LennardJones_evaluate p r = LJ_shifted p (Rmax r (rSafe p)).
Proof.
  intros H. unfold LennardJones_evaluate.
  destruct (Rle_dec (rCut p) r); [lra | reflexivity].
Qed.

Lemma LJ_gradient_below (r : R) :
  r < rCut p -> LennardJones_gradient p r = LJ_force p (Rmax r (rSafe p)).
Proof.
  intros H. unfold LennardJones_gradient.
  destruct (Rle_dec (rCut p) r); [lra | reflexivity].
Qed.

(** Between the clamp radius and the cutoff the gradient is the derivative. *)
Lemma LJ_derivative_inside (r : R) :
  r <> 0 -> rSafe p < r -> r < rCut p ->
  derivable_pt_lim (LennardJones_evaluate p) r (LennardJones_gradient p r).
Proof.
  intros Hr Hlo Hhi.
  rewrite LJ_gradient_below, Rmax_left by lra.
  apply (D_locally _ (LJ_shifted p) r _ (Rmin (r - rSafe p) (rCut p - r))).
  - apply Rmin_glb_lt; lra.
  - intros t Ht.
    assert (Rabs (t - r) < r - rSafe p)
      by (eapply Rlt_le_trans; [exact Ht | apply Rmin_l]).
    assert (Rabs (t - r) < rCut p - r)
      by (eapply Rlt_le_trans; [exact Ht | apply Rmin_r]).
    assert (rSafe p < t /\ t < rCut p) as [H1 H2].
    { pose proof (Rle_abs (t - r)). pose proof (Rle_abs (- (t - r))).
      rewrite Rabs_Ropp in *. lra. }
    rewrite LJ_evaluate_below, Rmax_left by lra. reflexivity.
  - apply LJ_shifted_derivative. exact Hr.
Qed.

(** Beyond the cutoff both are zero. *)
Lemma LJ_derivative_beyond (r : R) :
  rCut p < r ->
  derivable_pt_lim (LennardJones_evaluate p) r (LennardJones_gradient p r).
Proof.
  intros Hr. rewrite LJ_gradient_beyond by lra.
  apply (D_locally _ (fun _ => 0) r _ (r - rCut p)).
  - lra.
  - intros t Ht. apply LJ_evaluate_beyond.
    pose proof (Rle_abs (- (t - r))). rewrite Rabs_Ropp in *. lra.
  - apply D_const.
Qed.

(** Below the clamp radius [evaluate] is constant, while [gradient] returns
    the force at the clamp radius. *)
Lemma LJ_clamped (r : R) :
  r < rSafe p -> r < rCut p ->
  derivable_pt_lim (LennardJones_evaluate p) r 0 /\
  LennardJones_gradient p r = LJ_force p (rSafe p).
Proof.
  intros Hlo Hhi. split.
  - apply (D_locally _ (fun _ => LJ_shifted p (rSafe p)) r _
             (Rmin (rSafe p - r) (rCut p - r))).
    + apply Rmin_glb_lt; lra.
    + intros t Ht.
      assert (Rabs (t - r) < rSafe p - r)
        by (eapply Rlt_le_trans; [exact Ht | apply Rmin_l]).
      assert (Rabs (t - r) < rCut p - r)
        by (eapply Rlt_le_trans; [exact Ht | apply Rmin_r]).
      pose proof (Rle_abs (t - r)).
      rewrite LJ_evaluate_below, Rmax_right by lra. reflexivity.
    + apply D_const.
  - rewrite LJ_gradient_below, Rmax_right by lra. reflexivity.
Qed.

End LennardJonesLaw.

Section LennardJonesCutoff.
Import Potentials.
Local Open Scope R_scope.

Lemma LJ_shifted_at_cutoff (epsilon sigmaLJ rCut rSafeFactor : R) :
  LJ_shifted (LennardJones_new epsilon sigmaLJ rCut rSafeFactor) rCut = 0.
Proof. unfold LJ_shifted, LennardJones_new. cbn. ring. Qed.

Lemma LJ_shifted_power (p : LennardJones) (r : R) :
  LJ_shifted p r =
  4.0 * epsilon p * ((sigmaLJ p / r) ^ 12 - (sigmaLJ p / r) ^ 6) - shift p.
Proof. unfold LJ_shifted. ring. Qed.

Lemma LJ_shifted_continuous (p : LennardJones) (r : R) :
  r <> 0 -> continuity_pt (LJ_shifted p) r.
Proof.
  intros Hr. apply derivable_continuous_pt.
  exists (LJ_force p r). apply LJ_shifted_derivative. exact Hr.
Qed.

(** C6.  At and beyond the cutoff [evaluate] and [gradient] return [0];
    from the clamp radius up to the cutoff [evaluate] returns the shifted
    formula; and when the cutoff is positive and above the clamp radius, the
    shifted formula tends to [0] as [r] approaches the cutoff from below and
    [evaluate] is continuous at the cutoff. *)
Theorem LennardJones_cutoff (epsilon sigmaLJ rCut rSafeFactor : R) :
  let p := LennardJones_new epsilon sigmaLJ rCut rSafeFactor in
  (forall r, rCut <= r ->
     LennardJones_evaluate p r = 0 /\ LennardJones_gradient p r = 0) /\
  (forall r, rSafeFactor * sigmaLJ <= r -> r < rCut ->
     LennardJones_evaluate p r =
     4.0 * epsilon * ((sigmaLJ / r) ^ 12 - (sigmaLJ / r) ^ 6) - shift p) /\
  (0 < rCut -> rSafeFactor * sigmaLJ < rCut ->
     (forall eps, 0 < eps ->
        exists delta, 0 < delta /\
          forall r, rCut - delta < r < rCut ->
            Rabs (4.0 * epsilon * ((sigmaLJ / r) ^ 12 - (sigmaLJ / r) ^ 6)
                  - shift p) < eps) /\
     continuity_pt (LennardJones_evaluate p) rCut).
Proof.
  intros p.
  assert (Hcut : rCut = Potentials.rCut p) by reflexivity.
  assert (Hsafe : rSafeFactor * sigmaLJ = rSafe p) by reflexivity.
  split; [|split].
  - intros r Hr. split;
      [apply LJ_evaluate_beyond | apply LJ_gradient_beyond]; exact Hr.
  - intros r Hlo Hhi.
    rewrite LJ_evaluate_below by exact Hhi.
    rewrite Rmax_left by (rewrite <- Hsafe; exact Hlo).
    apply LJ_shifted_power.
  - intros Hpos Hgap.
    assert (Hc : continuity_pt (LJ_shifted p) rCut).
    { apply LJ_shifted_continuous. lra. }
    assert (H0 : LJ_shifted p rCut = 0) by apply LJ_shifted_at_cutoff.
    assert (Hnear : forall eps, 0 < eps ->
              exists delta, 0 < delta /\
                forall r, Rabs (r - rCut) < delta ->
                  Rabs (LJ_shifted p r) < eps).
    { intros eps Heps. destruct (Hc eps Heps) as (alp & Halp & H).
      exists alp. split; [exact Halp|]. intros r Hr.
      destruct (Req_dec rCut r) as [<-|Hne].
      - rewrite H0, Rabs_R0. exact Heps.
      - specialize (H r).
        change (D_x no_cond rCut r /\ Rabs (r - rCut) < alp ->
                Rabs (LJ_shifted p r - LJ_shifted p rCut) < eps) in H.
        rewrite H0, Rminus_0_r in H. apply H.
        split; [split; [exact I | exact Hne] | exact Hr]. }
    split.
    + intros eps Heps. destruct (Hnear eps Heps) as (delta & Hd & H).
      exists delta. split; [exact Hd|]. intros r [Hr1 Hr2].
      change (epsilon) with (Potentials.epsilon p).
      change (sigmaLJ) with (Potentials.sigmaLJ p).
      rewrite <- LJ_shifted_power. apply H.
      rewrite Rabs_left by lra. lra.
    + intros eps Heps. destruct (Hnear eps Heps) as (delta & Hd & H).
      exists (Rmin delta (rCut - rSafeFactor * sigmaLJ)).
      split; [apply Rmin_glb_lt; lra|].
      intros r [_ Hr].
      change (Rabs (r - rCut) < Rmin delta (rCut - rSafeFactor * sigmaLJ))
        in Hr.
      change (Rabs (LennardJones_evaluate p r - LennardJones_evaluate p rCut)
              < eps).
      rewrite (LJ_evaluate_beyond p rCut) by (rewrite <- Hcut; lra).
      rewrite Rminus_0_r.
      destruct (Rle_dec rCut r) as [Hge|Hlt].
      * rewrite LJ_evaluate_beyond by exact Hge. rewrite Rabs_R0. exact Heps.
      * assert (Rabs (r - rCut) < delta)
          by (eapply Rlt_le_trans; [exact Hr | apply Rmin_l]).
        assert (Rabs (r - rCut) < rCut - rSafeFactor * sigmaLJ)
          by (eapply Rlt_le_trans; [exact Hr | apply Rmin_r]).
        pose proof (Rle_abs (- (r - rCut))). rewrite Rabs_Ropp in *.
        rewrite LJ_evaluate_below by (rewrite <- Hcut; lra).
        rewrite Rmax_left by (rewrite <- Hsafe; lra).
        apply H. assumption.
Qed.

End LennardJonesCutoff.

(** ** Same-step leakage *)

(** Evaluation of the buffer operations on explicit arrays, leaving the
    arithmetic on the reals in place. *)
Ltac run_buffers :=
  cbv beta iota zeta delta
    [EulerMaruyama.step step_snapshot EulerMaruyama.step_particle
     step_particle_snapshot EulerMaruyama.interaction
     EulerMaruyama.radial_pair EulerMaruyama.vector_pair
     EulerMaruyama.getParticle subarray
     for_loop fold_left seq firstn skipn upd nth at_ length fst snd
     Nat.eqb Nat.mul Nat.add Nat.sub Z.to_nat Pos.to_nat Pos.iter_op
     EulerMaruyama.set_gradV EulerMaruyama.set_gradPhi EulerMaruyama.set_diff
     EulerMaruyama.set_noise EulerMaruyama.set_gradOut EulerMaruyama.set_prng
     EulerMaruyama.V EulerMaruyama.Phi EulerMaruyama.sigma EulerMaruyama.dt
     EulerMaruyama.N EulerMaruyama.d EulerMaruyama.gradV
     EulerMaruyama.gradPhi EulerMaruyama.diff EulerMaruyama.noise
     EulerMaruyama.gradOut EulerMaruyama.prng EulerMaruyama.positions
     two_particles two_particles_state
     Potentials.gradient Potentials.HarmonicPotential
     Potentials.Harmonic_gradient Potentials.InverseInteraction].

Section Leakage.
Import Potentials EulerMaruyama.
Local Open Scope R_scope.

Lemma two_particles_constructed (allocates : Z -> bool) :
  allocates 1%Z = true -> allocates 2%Z = true ->
  construct allocates (HarmonicPotential 1) (InverseInteraction 1) 0 1 2 1 42
  = Ok two_particles.
Proof.
  intros H1 H2. unfold construct, Float64Array_new.
  change (2 * 1)%Z with 2%Z.
  change ((1 <? 0)%Z || (9007199254740991 <? 1)%Z) with false.
  change ((2 <? 0)%Z || (9007199254740991 <? 2)%Z) with false.
  cbv iota. rewrite H1, H2. reflexivity.
Qed.

(** The clamped distance of two points on a line. *)
Lemma clamp_distance (u : R) :
  1e-10 <= Rabs u -> Rmax (sqrt (0 + u * u)) 1e-10 = Rabs u.
Proof.
  intros H. rewrite Rplus_0_l. fold (Rsqr u). rewrite sqrt_Rsqr_abs.
  apply Rmax_left. exact H.
Qed.

Lemma Inverse_gradient_1 (r : R) :
  r + 1 <> 0 -> Inverse_gradient 1 r = - / ((r + 1) * (r + 1)).
Proof. intros H. unfold Inverse_gradient. decimals. field. lra. Qed.

Lemma noise_batch_two :
  exists z0 z1 p,
    PRNG.randnArray (noise two_particles) (prng two_particles) = ([z0; z1], p).
Proof.
  destruct (randnArray_spec (noise two_particles) (prng two_particles))
    as (Hl & _ & _).
  destruct (PRNG.randnArray (noise two_particles) (prng two_particles))
    as [nz p].
  cbn [fst] in Hl.
  destruct nz as [|z0 [|z1 [|]]]; try discriminate.
  exists z0, z1, p. reflexivity.
Qed.

(** The first particle's move, read by the second one in the same step. *)
Lemma first_particle_move (z0 : R) :
  0 + ((- (1 * 0)
        - (0 + Inverse_gradient 1 (Rmax (sqrt (0 + (0 - 1) * (0 - 1))) 1e-10)
               * (0 - 1) / Rmax (sqrt (0 + (0 - 1) * (0 - 1))) 1e-10) / 2) * 1
       + 0 * sqrt 1 * z0) = - / 8.
Proof.
  rewrite clamp_distance by (rewrite Rabs_left; lra).
  rewrite Rabs_left by lra.
  rewrite Inverse_gradient_1 by lra. field.
Qed.

(** C1, on the code.  Two particles on a line at [0] and [1], harmonic
    confinement [k = 1], inverse interaction [gamma = 1], [sigma = 0],
    [dt = 1]: [step] moves the first particle to [-1/8] and then computes the
    second particle's interaction term [-32/289] from that new position,
    leaving it at [32/289]; computed from the positions at the start of the
    step, the term is [-1/8] and the second particle ends at [1/8]. *)
Theorem step_reads_updated_position :
  positions (snd (step two_particles two_particles_state)) = [- / 8; 32 / 289] /\
  gradPhi (fst (step two_particles two_particles_state)) = [- (32 / 289)] /\
  positions (snd (step_snapshot two_particles two_particles_state))
    = [- / 8; / 8] /\
  gradPhi (fst (step_snapshot two_particles two_particles_state)) = [- / 8].
Proof.
  destruct noise_batch_two as (z0 & z1 & p & E).
  unfold step, step_snapshot. rewrite E.
  run_buffers.
  rewrite !first_particle_move.
  rewrite !clamp_distance by (rewrite Rabs_right; lra).
  rewrite !Rabs_right by lra.
  rewrite !Inverse_gradient_1 by lra.
  repeat split;
    repeat match goal with
           | |- _ :: _ = _ :: _ => apply f_equal2
           end;
    try reflexivity; field.
Qed.

End Leakage.

(** ** The confinement laws and the vector law: partial derivatives *)

Section VectorGradients.
Import Potentials.
Local Open Scope R_scope.

(** Changing one term of an accumulated sum. *)
Lemma sum_loop_change (h h' : nat -> R) (n i : nat) :
  (i < n)%nat -> (forall j, j <> i -> h' j = h j) ->
  for_loop n (fun j s => s + h' j) 0 =
  for_loop n (fun j s => s + h j) 0 - h i + h' i.
Proof.
  intros Hi Hsame. induction n as [|n IH]; [lia|].
  rewrite !for_loop_S.
  destruct (Nat.eq_dec i n) as [->|Hne].
  - rewrite (for_loop_ext n (fun j s => s + h' j) (fun j s => s + h j)).
    + ring.
    + intros j s Hj. rewrite Hsame by lia. reflexivity.
  - rewrite IH by lia. rewrite (Hsame n) by congruence. ring.
Qed.

Lemma at_upd_same (x : vec) i t : (i < length x)%nat -> at_ (upd i t x) i = t.
Proof. intros H. unfold at_. apply nth_upd_same. exact H. Qed.

Lemma at_upd_other (x : vec) i j t : i <> j -> at_ (upd i t x) j = at_ x j.
Proof. intros H. unfold at_. apply nth_upd_other. exact H. Qed.

(** A sum over the coordinates of [x], with coordinate [i] replaced. *)
Lemma coordinate_sum_upd (w : nat -> R -> R) (x : vec) (i : nat) (t : R) :
  (i < length x)%nat ->
  for_loop (length (upd i t x)) (fun j s => s + w j (at_ (upd i t x) j)) 0 =
  for_loop (length x) (fun j s => s + w j (at_ x j)) 0
  - w i (at_ x i) + w i t.
Proof.
  intros Hi. rewrite length_upd.
  rewrite (sum_loop_change (fun j => w j (at_ x j))
             (fun j => w j (at_ (upd i t x) j)) (length x) i Hi).
  - rewrite at_upd_same by exact Hi. reflexivity.
  - intros j Hj. rewrite at_upd_other by congruence. reflexivity.
Qed.

Lemma sum_squares_upd (x : vec) (i : nat) (t : R) :
  (i < length x)%nat ->
  sum_squares (upd i t x) = sum_squares x - at_ x i * at_ x i + t * t.
Proof.
  intros Hi. unfold sum_squares.
  apply (coordinate_sum_upd (fun _ v => v * v) x i t Hi).
Qed.

(** A loop that writes [c i] to [out[i]] for every [i < n = out.length]. *)
Lemma write_loop (c : nat -> R) (n : nat) (out : vec) :
  length out = n ->
  length (for_loop n (fun i o => upd i (c i) o) out) = n /\
  forall i, (i < n)%nat ->
    at_ (for_loop n (fun i o => upd i (c i) o) out) i = c i.
Proof.
  intros Hlen.
  pose proof (for_loop_upd (fun i _ => c i) n out) as H.
  cbv beta zeta in H. destruct H as [Hl Hv].
  split; [rewrite Hl; exact Hlen|].
  intros i Hi. rewrite Hv.
  replace (i <? n)%nat with true by (symmetry; apply Nat.ltb_lt; lia).
  replace (i <? length out)%nat with true
    by (symmetry; apply Nat.ltb_lt; lia).
  reflexivity.
Qed.

Lemma Harmonic_holds_gradient (k : R) (x out : vec) :
  length out = length x ->
  holds_gradient (Harmonic_evaluate k) x (Harmonic_gradient k x out).
Proof.
  intros Hlen. unfold Harmonic_gradient.
  destruct (write_loop (fun i => k * at_ x i) (length x) out Hlen) as [Hl Hv].
  split; [exact Hl|]. intros i Hi. rewrite Hv by exact Hi.
  unfold partial_derivative, Harmonic_evaluate.
  apply D_ext with
    (fun t => 0.5 * k * (sum_squares x - at_ x i * at_ x i + t * t)).
  - intros t. cbv zeta. rewrite sum_squares_upd by exact Hi. reflexivity.
  - eapply D_value; [derive|]. cbv beta. decimals. field.
Qed.

Lemma DoubleWell_holds_gradient (x out : vec) :
  length out = length x ->
  holds_gradient DoubleWell_evaluate x (DoubleWell_gradient x out).
Proof.
  intros Hlen. unfold DoubleWell_gradient. cbv zeta.
  destruct (write_loop (fun i => (sum_squares x - 1.0) * at_ x i)
              (length x) out Hlen) as [Hl Hv].
  split; [exact Hl|]. intros i Hi. rewrite Hv by exact Hi.
  unfold partial_derivative, DoubleWell_evaluate.
  apply D_ext with
    (fun t => 0.25 * (sum_squares x - at_ x i * at_ x i + t * t - 1.0) ^ 2).
  - intros t. cbv zeta. rewrite sum_squares_upd by exact Hi. reflexivity.
  - eapply D_value; [derive|]. cbv beta. decimals. simpl. field.
Qed.

Lemma Anisotropic_holds_gradient (a : list R) (x out : vec) :
  length out = length x ->
  holds_gradient (Anisotropic_evaluate a) x (Anisotropic_gradient a x out).
Proof.
  intros Hlen. unfold Anisotropic_gradient.
  destruct (write_loop (fun i => 2.0 * at_ a i * at_ x i) (length x) out Hlen)
    as [Hl Hv].
  split; [exact Hl|]. intros i Hi. rewrite Hv by exact Hi.
  unfold partial_derivative, Anisotropic_evaluate.
  apply D_ext with
    (fun t =>
       for_loop (length x) (fun j s => s + at_ a j * at_ x j * at_ x j) 0
       - at_ a i * at_ x i * at_ x i + at_ a i * t * t).
  - intros t.
    apply (coordinate_sum_upd (fun j v => at_ a j * v * v) x i t Hi).
  - eapply D_value; [derive|]. cbv beta. decimals. field.
Qed.

Lemma sum_squares_nonneg (x : vec) : 0 <= sum_squares x.
Proof.
  unfold sum_squares.
  apply (for_loop_inv (fun _ s => 0 <= s)); [lra|].
  intros i s _ Hs. pose proof (Rle_0_sqr (at_ x i)) as H. unfold Rsqr in H.
  lra.
Qed.

Lemma Quadratic_holds_gradient (alpha1 alpha2 : R) (x out : vec) :
  length out = length x ->
  1e-10 <= sqrt (sum_squares x) ->
  holds_gradient (Quadratic_evaluate alpha1 alpha2) x
    (Quadratic_gradient alpha1 alpha2 x out).
Proof.
  intros Hlen Hfar. unfold Quadratic_gradient. cbv zeta.
  rewrite Rmax_left by exact Hfar.
  set (S := sum_squares x) in *.
  assert (HS : 0 < S).
  { destruct (Rle_lt_or_eq_dec 0 S (sum_squares_nonneg x)) as [H|H];
      [exact H|].
    rewrite <- H, sqrt_0 in Hfar. lra. }
  assert (Hroot : 0 < sqrt S) by (apply sqrt_lt_R0; exact HS).
  destruct (write_loop
              (fun i => 0.5 * alpha1 / sqrt S * at_ x i
                        + 2.0 * alpha2 * at_ x i)
              (length x) out Hlen) as [Hl Hv].
  split; [exact Hl|]. intros i Hi. rewrite Hv by exact Hi.
  unfold partial_derivative, Quadratic_evaluate.
  apply D_ext with
    (fun t => 0.5 * alpha1 * sqrt (S - at_ x i * at_ x i + t * t)
              + alpha2 * (S - at_ x i * at_ x i + t * t)).
  - intros t. cbv zeta. rewrite sum_squares_upd by exact Hi. reflexivity.
  - assert (E : S - at_ x i * at_ x i + at_ x i * at_ x i = S) by ring.
    eapply D_value.
    + apply D_plus.
      * apply D_mult; [apply D_const|].
        apply (D_sqrt (fun t => S - at_ x i * at_ x i + t * t)); [derive|].
        cbv beta. rewrite E. exact HS.
      * derive.
    + cbv beta. rewrite E. decimals. field. lra.
Qed.

Lemma AnisotropicGaussian_holds_gradient (A : R) (sSq : list R) (z out : vec) :
  length out = length z ->
  holds_gradient (AnisotropicGaussian_evaluate A sSq) z
    (AnisotropicGaussian_gradient A sSq z out).
Proof.
  intros Hlen. unfold AnisotropicGaussian_gradient. cbv zeta.
  destruct (write_loop
              (fun i => - AnisotropicGaussian_evaluate A sSq z * at_ z i
                        / at_ sSq i)
              (length z) out Hlen) as [Hl Hv].
  split; [exact Hl|]. intros i Hi. rewrite Hv by exact Hi.
  unfold partial_derivative, AnisotropicGaussian_evaluate.
  set (E := for_loop (length z)
              (fun j e => e + at_ z j * at_ z j / at_ sSq j) 0).
  apply D_ext with
    (fun t => A * exp (-0.5 * (E - at_ z i * at_ z i / at_ sSq i
                               + t * t / at_ sSq i))).
  - intros t. cbv zeta.
    rewrite (coordinate_sum_upd (fun j v => v * v / at_ sSq j) z i t Hi).
    reflexivity.
  - unfold Rdiv. eapply D_value; [derive|]. cbv beta.
    replace (E - at_ z i * at_ z i * / at_ sSq i
             + at_ z i * at_ z i * / at_ sSq i) with E by ring.
    generalize (/ at_ sSq i). intros w. decimals. field.
Qed.

End VectorGradients.

(** ** Every force law against its derivative *)

Section GradientsAreDerivatives.
Import Potentials.
Local Open Scope R_scope.

(** The default Lennard-Jones law, [new LennardJonesPotential()]. *)
Lemma default_LJ_clamp :
  rSafe (LennardJones_new 0.5 0.5 2.5 0.7) = 0.35 /\
  rCut (LennardJones_new 0.5 0.5 2.5 0.7) = 2.5.
Proof. cbn. split; lra. Qed.

Lemma default_LJ_clamped_force :
  LJ_force (LennardJones_new 0.5 0.5 2.5 0.7)
    (rSafe (LennardJones_new 0.5 0.5 2.5 0.7)) < 0.
Proof.
  unfold LJ_force. cbn [epsilon sigmaLJ rSafe LennardJones_new].
  replace (0.5 / (0.7 * 0.5)) with (10 / 7) by (decimals; field).
  replace ((10 / 7) ^ 6) with (1000000 / 117649) by (simpl; field).
  decimals. lra.
Qed.

(** C3, as stated, fails for the default Lennard-Jones law at [r = 0.2],
    below its clamp radius [0.35]: there [evaluate] is locally constant, so
    its derivative is [0], while [gradient] returns a negative value. *)
Lemma LennardJones_gradient_not_derivative :
  ~ derivable_pt_lim
      (LennardJones_evaluate (LennardJones_new 0.5 0.5 2.5 0.7)) 0.2
      (LennardJones_gradient (LennardJones_new 0.5 0.5 2.5 0.7) 0.2).
Proof.
  set (p := LennardJones_new 0.5 0.5 2.5 0.7).
  destruct default_LJ_clamp as [Hs Hc]. fold p in Hs, Hc.
  destruct (LJ_clamped p 0.2) as [H0 Hg]; [lra | lra |].
  intros H. rewrite Hg in H.
  pose proof (uniqueness_limite _ _ _ _ H H0) as E.
  pose proof default_LJ_clamped_force as Hneg. fold p in Hneg. lra.
Qed.

(** C3, amended.  For every class of the library the gradient is the
    derivative of [evaluate] (for the confinement laws and the vector law,
    coordinate by coordinate, in a buffer of the length of the input) on
    these domains: any [x] for the harmonic, double-well and anisotropic
    confinements; [|x| >= 1e-10] for the quadratic one; any [r] for the
    Gaussian ([sigma <> 0]), piecewise ([eps <> 0]) and Morse laws; [r >= 0]
    for the inverse law; for Lennard-Jones, [r > 0] above the clamp radius
    and different from the cutoff.  Below the clamp radius (and the cutoff)
    the Lennard-Jones [evaluate] is constant, with derivative [0], and
    [gradient] returns the force at the clamp radius. *)
Theorem gradient_is_derivative_off_clamp :
  (forall k x out, length out = length x ->
     holds_gradient (evaluate (HarmonicPotential k)) x
       (gradient (HarmonicPotential k) x out)) /\
  (forall alpha1 alpha2 x out, length out = length x ->
     1e-10 <= sqrt (sum_squares x) ->
     holds_gradient (evaluate (QuadraticConfinement alpha1 alpha2)) x
       (gradient (QuadraticConfinement alpha1 alpha2) x out)) /\
  (forall x out, length out = length x ->
     holds_gradient (evaluate DoubleWellPotential) x
       (gradient DoubleWellPotential x out) /\
     forall i, (i < length x)%nat ->
       at_ (gradient DoubleWellPotential x out) i
       = (sum_squares x - 1) * at_ x i) /\
  (forall a x out, length out = length x -> (length x <= length a)%nat ->
     holds_gradient (evaluate (AnisotropicConfinement a)) x
       (gradient (AnisotropicConfinement a) x out)) /\
  (forall A sigma r, sigma <> 0 ->
     derivable_pt_lim (Gaussian_evaluate A sigma) r
       (Gaussian_gradient A sigma r)) /\
  (forall beta1 beta2 eps r, eps <> 0 ->
     derivable_pt_lim (Piecewise_evaluate beta1 beta2 eps) r
       (Piecewise_gradient beta1 beta2 eps r)) /\
  (forall gamma r, 0 <= r ->
     derivable_pt_lim (Inverse_evaluate gamma) r (Inverse_gradient gamma r)) /\
  (forall D a r0 r,
     derivable_pt_lim (Morse_evaluate D a r0) r (Morse_gradient D a r0 r)) /\
  (forall p r, 0 < r -> rSafe p < r -> r <> rCut p ->
     derivable_pt_lim (LennardJones_evaluate p) r
       (LennardJones_gradient p r)) /\
  (forall p r, r < rSafe p -> r < rCut p ->
     derivable_pt_lim (LennardJones_evaluate p) r 0 /\
     LennardJones_gradient p r = LJ_force p (rSafe p)) /\
  (forall A s z out, length out = length z -> (length z <= length s)%nat ->
     (forall i, (i < length z)%nat -> at_ s i <> 0) ->
     holds_gradient
       (AnisotropicGaussian_evaluate A (map (fun si => si * si) s)) z
       (AnisotropicGaussian_gradient A (map (fun si => si * si) s) z out)).
Proof.
  repeat match goal with |- _ /\ _ => split end.
  - intros. apply Harmonic_holds_gradient. assumption.
  - intros. apply Quadratic_holds_gradient; assumption.
  - intros x out Hlen. split.
    + apply DoubleWell_holds_gradient. assumption.
    + intros i Hi. cbn [gradient DoubleWellPotential].
      unfold DoubleWell_gradient. cbv zeta.
      destruct (write_loop (fun i => (sum_squares x - 1.0) * at_ x i)
                  (length x) out Hlen) as [_ Hv].
      rewrite Hv by exact Hi. decimals. field.
  - intros. apply Anisotropic_holds_gradient. assumption.
  - intros. apply Gaussian_derivative. assumption.
  - intros. apply Piecewise_derivative. assumption.
  - intros. apply Inverse_derivative. lra.
  - intros. apply Morse_derivative.
  - intros p r Hr Hsafe Hcut.
    destruct (Rlt_le_dec r (rCut p)) as [Hlt|Hge].
    + apply LJ_derivative_inside; lra.
    + apply LJ_derivative_beyond. lra.
  - intros. apply LJ_clamped; assumption.
  - intros. apply AnisotropicGaussian_holds_gradient. assumption.
Qed.

End GradientsAreDerivatives.

(** ** Construction *)

Section Construction.
Import Potentials EulerMaruyama.
Local Open Scope R_scope.

Lemma Float64Array_new_ok (allocates : Z -> bool) (len : Z) :
  accepted allocates len ->
  Float64Array_new allocates len = Ok (repeat 0 (Z.to_nat len)).
Proof.
  intros [H Ha]. unfold Float64Array_new, max_length in *.
  destruct (len <? 0)%Z eqn:E1; [apply Z.ltb_lt in E1; lia|].
  destruct (9007199254740991 <? len)%Z eqn:E2; [apply Z.ltb_lt in E2; lia|].
  cbn [orb]. rewrite Ha. reflexivity.
Qed.

Lemma Float64Array_new_error (allocates : Z -> bool) (len : Z) :
  ~ accepted allocates len -> Float64Array_new allocates len = RangeError.
Proof.
  intros H. unfold Float64Array_new, accepted, max_length in *.
  destruct (len <? 0)%Z eqn:E1; [reflexivity|].
  destruct (9007199254740991 <? len)%Z eqn:E2; [reflexivity|].
  cbn [orb]. destruct (allocates len); [|reflexivity].
  apply Z.ltb_ge in E1. apply Z.ltb_ge in E2.
  exfalso. apply H. split; [lia | reflexivity].
Qed.

Lemma accepted_dec (allocates : Z -> bool) (len : Z) :
  accepted allocates len \/ ~ accepted allocates len.
Proof.
  unfold accepted.
  destruct (Z_le_dec 0 len); [|right; lia].
  destruct (Z_le_dec len max_length); [|right; lia].
  destruct (allocates len); [left; auto | right; intros [_ H]; discriminate].
Qed.

(** A construction whose two lengths are accepted returns the integrator
    holding the parameters as given. *)
Lemma construct_ok (allocates : Z -> bool)
    (V0 : ConfinementPotential) (Phi0 : InteractionPotential)
    (sigma0 dt0 : R) (N0 d0 seed : Z) :
  accepted allocates d0 -> accepted allocates (N0 * d0) ->
  construct allocates V0 Phi0 sigma0 dt0 N0 d0 seed =
  Ok {| V := V0; Phi := Phi0; sigma := sigma0; dt := dt0; N := N0; d := d0;
        gradV := repeat 0 (Z.to_nat d0);
        gradPhi := repeat 0 (Z.to_nat d0);
        diff := repeat 0 (Z.to_nat d0);
        noise := repeat 0 (Z.to_nat (N0 * d0));
        gradOut := repeat 0 (Z.to_nat d0);
        prng := PRNG.construct seed |}.
Proof.
  intros Hd Hn. unfold construct.
  rewrite !(Float64Array_new_ok allocates d0) by exact Hd. cbn [bind].
  rewrite (Float64Array_new_ok allocates (N0 * d0)) by exact Hn. reflexivity.
Qed.

Lemma construct_error (allocates : Z -> bool)
    (V0 : ConfinementPotential) (Phi0 : InteractionPotential)
    (sigma0 dt0 : R) (N0 d0 seed : Z) :
  ~ (accepted allocates d0 /\ accepted allocates (N0 * d0)) ->
  construct allocates V0 Phi0 sigma0 dt0 N0 d0 seed = RangeError.
Proof.
  intros Hnot. unfold construct.
  destruct (accepted_dec allocates d0) as [H1|H1].
  - rewrite !(Float64Array_new_ok allocates d0) by exact H1. cbn [bind].
    rewrite (Float64Array_new_error allocates (N0 * d0)); [reflexivity|].
    intros Hn. apply Hnot. split; assumption.
  - rewrite (Float64Array_new_error allocates d0) by exact H1. reflexivity.
Qed.

(** What a successful construction returns. *)
Lemma construct_Ok_inv (allocates : Z -> bool)
    (V0 : ConfinementPotential) (Phi0 : InteractionPotential)
    (sigma0 dt0 : R) (N0 d0 seed : Z) (sys : ParticleSystem) :
  construct allocates V0 Phi0 sigma0 dt0 N0 d0 seed = Ok sys ->
  (accepted allocates d0 /\ accepted allocates (N0 * d0)) /\
  sys = {| V := V0; Phi := Phi0; sigma := sigma0; dt := dt0; N := N0; d := d0;
           gradV := repeat 0 (Z.to_nat d0);
           gradPhi := repeat 0 (Z.to_nat d0);
           diff := repeat 0 (Z.to_nat d0);
           noise := repeat 0 (Z.to_nat (N0 * d0));
           gradOut := repeat 0 (Z.to_nat d0);
           prng := PRNG.construct seed |}.
Proof.
  intros E.
  destruct (accepted_dec allocates d0) as [H1|H1];
    [destruct (accepted_dec allocates (N0 * d0)) as [H2|H2]|].
  - rewrite construct_ok in E by assumption.
    injection E as <-. split; [split; assumption | reflexivity].
  - rewrite construct_error in E by tauto. discriminate.
  - rewrite construct_error in E by tauto. discriminate.
Qed.

(** The buffers of a constructed integrator have the lengths [step]
    relies on. *)
Lemma construct_buffer_lengths (allocates : Z -> bool)
    (V0 : ConfinementPotential)
    (Phi0 : InteractionPotential) (sigma0 dt0 : R) (N0 d0 seed : Z)
    (sys : ParticleSystem) :
  construct allocates V0 Phi0 sigma0 dt0 N0 d0 seed = Ok sys ->
  N sys = N0 /\ d sys = d0 /\
  length (gradV sys) = Z.to_nat d0 /\
  length (gradPhi sys) = Z.to_nat d0 /\
  length (diff sys) = Z.to_nat d0 /\
  length (noise sys) = Z.to_nat (N0 * d0) /\
  length (gradOut sys) = Z.to_nat d0.
Proof.
  intros H. apply construct_Ok_inv in H. destruct H as [_ ->].
  cbn. rewrite !repeat_length. repeat split.
Qed.

(** C4, as stated, fails: on an engine that provides the two arrays,
    construction with [N = 0] and [dt = -1] returns an integrator, and
    [step] on it returns the positions it was given. *)
Lemma construct_accepts_invalid_parameters :
  construct (fun _ => true)
    (HarmonicPotential 1) (InverseInteraction 1) 0 (-1) 0 1 42
    = Ok no_particle /\
  N no_particle = 0%Z /\ dt no_particle < 0 /\
  positions (snd (step no_particle two_particles_state)) = [0; 1].
Proof.
  split; [reflexivity|]. split; [reflexivity|]. split; [cbn; lra|].
  reflexivity.
Qed.

(** C4, amended.  Construction with invalid parameters does not fail: the
    constructor checks none of them.  Whatever [V], [Phi], [sigma], [dt],
    the seed and [N] (zero included), it returns the integrator holding
    them as given, with zero-filled buffers, whenever [new Float64Array]
    accepts the two lengths [d] and [N * d]; and the only failure is the
    [RangeError] of these allocations, raised when one of the two lengths
    is not accepted (ToIndex rejects it, or the engine cannot provide the
    array). *)
Theorem construct_validates_nothing (allocates : Z -> bool)
    (V0 : ConfinementPotential) (Phi0 : InteractionPotential)
    (sigma0 dt0 : R) (N0 d0 seed : Z) :
  (accepted allocates d0 -> accepted allocates (N0 * d0) ->
   construct allocates V0 Phi0 sigma0 dt0 N0 d0 seed =
   Ok {| V := V0; Phi := Phi0; sigma := sigma0; dt := dt0; N := N0; d := d0;
         gradV := repeat 0 (Z.to_nat d0);
         gradPhi := repeat 0 (Z.to_nat d0);
         diff := repeat 0 (Z.to_nat d0);
         noise := repeat 0 (Z.to_nat (N0 * d0));
         gradOut := repeat 0 (Z.to_nat d0);
         prng := PRNG.construct seed |}) /\
  (construct allocates V0 Phi0 sigma0 dt0 N0 d0 seed = RangeError <->
   ~ (accepted allocates d0 /\ accepted allocates (N0 * d0))).
Proof.
  split; [apply construct_ok|]. split.
  - intros E [Hd Hn]. rewrite (construct_ok _ _ _ _ _ _ _ _ Hd Hn) in E.
    discriminate.
  - apply construct_error.
Qed.

Lemma construct_validates_nothing_witness :
  construct (fun len => (len <? 1024)%Z)
    (HarmonicPotential 1) (InverseInteraction 1) 0 (-1) 0 1 42 =
  Ok {| V := HarmonicPotential 1; Phi := InverseInteraction 1;
        sigma := 0; dt := -1; N := 0; d := 1;
        gradV := repeat 0 (Z.to_nat 1);
        gradPhi := repeat 0 (Z.to_nat 1);
        diff := repeat 0 (Z.to_nat 1);
        noise := repeat 0 (Z.to_nat (0 * 1));
        gradOut := repeat 0 (Z.to_nat 1);
        prng := PRNG.construct 42 |}.
Proof.
  apply (proj1 (construct_validates_nothing (fun len => (len <? 1024)%Z)
                  (HarmonicPotential 1) (InverseInteraction 1) 0 (-1) 0 1 42));
    (split; [unfold max_length; lia | reflexivity]).
Defined.

End Construction.

(** ** The statements at concrete inputs *)

Section Instances.
Import Potentials EulerMaruyama.
Local Open Scope R_scope.

Lemma step_draws_noise_batch_witness :
  noise (fst (step two_particles two_particles_state))
    = fst (PRNG.randnArray (noise two_particles) (prng two_particles)) /\
  prng (fst (step two_particles two_particles_state))
    = draws 4 (PRNG.construct 42).
Proof.
  destruct (step_draws_noise_batch two_particles two_particles_state)
    as (H1 & _ & _ & H2 & _); [reflexivity|].
  split; [exact H1 | exact H2].
Defined.

Lemma radial_pair_antisymmetric_witness :
  snd (radial_pair (Inverse_gradient 1) 1 [0] [1] [0] (repeat 0 1)) =
  map Ropp (snd (radial_pair (Inverse_gradient 1) 1 [1] [0] [0] (repeat 0 1))).
Proof.
  apply (proj2 (radial_pair_antisymmetric (Inverse_gradient 1) 1
                  [0] [1] [0] [0] eq_refl eq_refl eq_refl eq_refl)).
Defined.

Lemma single_particle_no_interaction_witness :
  gradPhi (fst (step one_particle one_particle_state)) = [0; 0] /\
  N (fst (step one_particle one_particle_state)) = 1%Z.
Proof.
  destruct (single_particle_no_interaction one_particle one_particle_state)
    as (H1 & _ & _ & _ & H2 & _); try reflexivity.
  split; [exact H1 | exact H2].
Defined.

Lemma LennardJones_cutoff_witness :
  (LennardJones_evaluate (LennardJones_new 0.5 0.5 2.5 0.7) 3 = 0 /\
   LennardJones_gradient (LennardJones_new 0.5 0.5 2.5 0.7) 3 = 0) /\
  LennardJones_evaluate (LennardJones_new 0.5 0.5 2.5 0.7) 1 =
    4.0 * 0.5 * ((0.5 / 1) ^ 12 - (0.5 / 1) ^ 6)
    - shift (LennardJones_new 0.5 0.5 2.5 0.7) /\
  continuity_pt (LennardJones_evaluate (LennardJones_new 0.5 0.5 2.5 0.7)) 2.5.
Proof.
  destruct (LennardJones_cutoff 0.5 0.5 2.5 0.7) as (H1 & H2 & H3).
  split; [apply H1; lra|].
  split; [apply H2; lra|].
  apply H3; lra.
Defined.

Lemma gradient_is_derivative_off_clamp_witness :
  holds_gradient (evaluate (HarmonicPotential 2)) [1; 2]
    (gradient (HarmonicPotential 2) [1; 2] [0; 0]) /\
  holds_gradient (evaluate (QuadraticConfinement (-1) 2)) [1; 0]
    (gradient (QuadraticConfinement (-1) 2) [1; 0] [0; 0]) /\
  holds_gradient (evaluate DoubleWellPotential) [1; 2]
    (gradient DoubleWellPotential [1; 2] [0; 0]) /\
  holds_gradient (evaluate (AnisotropicConfinement [1; 4])) [1; 2]
    (gradient (AnisotropicConfinement [1; 4]) [1; 2] [0; 0]) /\
  derivable_pt_lim (Gaussian_evaluate 1 1) 1 (Gaussian_gradient 1 1 1) /\
  derivable_pt_lim (Piecewise_evaluate (-3) 2 0.05) 1
    (Piecewise_gradient (-3) 2 0.05 1) /\
  derivable_pt_lim (Inverse_evaluate 0.5) 1 (Inverse_gradient 0.5 1) /\
  derivable_pt_lim (LennardJones_evaluate (LennardJones_new 0.5 0.5 2.5 0.7)) 1
    (LennardJones_gradient (LennardJones_new 0.5 0.5 2.5 0.7) 1) /\
  derivable_pt_lim
    (LennardJones_evaluate (LennardJones_new 0.5 0.5 2.5 0.7)) 0.2 0 /\
  holds_gradient
    (AnisotropicGaussian_evaluate 2 (map (fun si => si * si) [0.5; 1.5])) [1; 2]
    (AnisotropicGaussian_gradient 2 (map (fun si => si * si) [0.5; 1.5])
       [1; 2] [0; 0]).
Proof.
  destruct gradient_is_derivative_off_clamp
    as (H1 & H2 & H3 & H4 & H5 & H6 & H7 & _ & H9 & H10 & H11).
  split; [apply H1; reflexivity|].
  split.
  { apply H2; [reflexivity|].
    unfold sum_squares. run_buffers.
    replace (0 + 1 * 1 + 0 * 0) with 1 by ring. rewrite sqrt_1. lra. }
  split; [apply (proj1 (H3 [1; 2] [0; 0] eq_refl))|].
  split; [apply H4; [reflexivity | cbn; lia]|].
  split; [apply H5; lra|].
  split; [apply H6; lra|].
  split; [apply H7; lra|].
  split; [apply H9; cbn; lra|].
  split; [apply (proj1 (H10 (LennardJones_new 0.5 0.5 2.5 0.7) 0.2
                          ltac:(cbn; lra) ltac:(cbn; lra)))|].
  apply H11; [reflexivity | cbn; lia |].
  intros i Hi. cbn in Hi.
  destruct i as [|[|i]]; [cbn; lra | cbn; lra | lia].
Defined.

End Instances.

(** * Further properties *)

(** ** The generator: seeds and states *)

Section GeneratorMore.
Import JS.
Local Open Scope Z_scope.

Lemma seed_round_mix i seed (s : list Z) :
  PRNG.seed_round i (seed, s) =
  (to_double (seed + 0x9e3779b9),
   upd i (mix32 (to_double (seed + 0x9e3779b9))) s).
Proof. unfold PRNG.seed_round, mix32. cbv zeta. reflexivity. Qed.

Lemma construct_mix seed :
  exact_seed seed ->
  PRNG.construct seed =
  [ mix32 (seed + 0x9e3779b9);
    mix32 (seed + 0x9e3779b9 + 0x9e3779b9);
    mix32 (seed + 0x9e3779b9 + 0x9e3779b9 + 0x9e3779b9);
    mix32 (seed + 0x9e3779b9 + 0x9e3779b9 + 0x9e3779b9 + 0x9e3779b9) ].
Proof.
  intros [Hlo Hhi].
  unfold PRNG.construct. rewrite !for_loop_S, for_loop_0.
  rewrite seed_round_mix, (to_double_small (seed + 0x9e3779b9)) by lia.
  rewrite seed_round_mix,
    (to_double_small (seed + 0x9e3779b9 + 0x9e3779b9)) by lia.
  rewrite seed_round_mix,
    (to_double_small (seed + 0x9e3779b9 + 0x9e3779b9 + 0x9e3779b9)) by lia.
  rewrite seed_round_mix,
    (to_double_small
       (seed + 0x9e3779b9 + 0x9e3779b9 + 0x9e3779b9 + 0x9e3779b9)) by lia.
  reflexivity.
Qed.

Lemma ToInt32_congr a b : ToUint32 a = ToUint32 b -> ToInt32 a = ToInt32 b.
Proof.
  unfold ToUint32, ToInt32, two32. intros H.
  rewrite (Zplus_mod a), (Zplus_mod b), H. reflexivity.
Qed.

Lemma xor_congr a a' b b' :
  ToUint32 a = ToUint32 a' -> ToUint32 b = ToUint32 b' -> xor a b = xor a' b'.
Proof.
  intros Ha Hb. unfold xor.
  rewrite (ToInt32_congr a a' Ha), (ToInt32_congr b b' Hb). reflexivity.
Qed.

Lemma ushr_congr a a' n : ToUint32 a = ToUint32 a' -> ushr a n = ushr a' n.
Proof. intros H. unfold ushr. rewrite H. reflexivity. Qed.

Lemma imul_congr a a' c : ToUint32 a = ToUint32 a' -> imul a c = imul a' c.
Proof.
  intros H. unfold imul. rewrite (ToInt32_congr a a' H). reflexivity.
Qed.

Lemma mix32_congr a b : ToUint32 a = ToUint32 b -> mix32 a = mix32 b.
Proof.
  intros H. unfold mix32.
  rewrite (xor_congr a b (ushr a 16) (ushr b 16) H)
    by (rewrite (ushr_congr a b 16 H); reflexivity).
  reflexivity.
Qed.

(** From [a ^ p = b ^ q], [a ^ b = p ^ q]. *)
Lemma lxor_cross a b p q :
  Z.lxor a p = Z.lxor b q -> Z.lxor a b = Z.lxor p q.
Proof.
  intros H. apply Z.bits_inj'. intros n Hn.
  apply (f_equal (fun z => Z.testbit z n)) in H.
  rewrite !Z.lxor_spec in *.
  destruct (Z.testbit a n), (Z.testbit b n), (Z.testbit p n),
    (Z.testbit q n); cbn in *; congruence.
Qed.

Lemma lxor_cancel_r a b p : Z.lxor a p = Z.lxor b p -> a = b.
Proof.
  intros H. apply lxor_cross in H. rewrite Z.lxor_nilpotent in H.
  apply Z.lxor_eq. exact H.
Qed.

(** [x ^ (x >>> k)] is injective on 32-bit words. *)
Lemma xorshift_injective x y k :
  0 < k ->
  ToUint32 (xor x (ushr x k)) = ToUint32 (xor y (ushr y k)) ->
  ToUint32 x = ToUint32 y.
Proof.
  intros Hk H. rewrite !ToUint32_xor in H.
  rewrite !(ToUint32_small (ushr _ k)) in H by (apply ushr_range; lia).
  unfold ushr in H. apply lxor_cross in H.
  rewrite <- Z.shiftr_lxor in H.
  set (dlt := Z.lxor (ToUint32 x) (ToUint32 y)) in *.
  assert (Hd : 0 <= dlt).
  { apply Z.lxor_nonneg. pose proof (ToUint32_range x).
    pose proof (ToUint32_range y). lia. }
  rewrite Z.shiftr_div_pow2 in H by lia.
  assert (2 <= 2 ^ k).
  { change 2 with (2 ^ 1) at 1. apply Z.pow_le_mono_r; lia. }
  assert (dlt = 0).
  { destruct (Z.eq_dec dlt 0) as [E|E]; [exact E|]. exfalso.
    assert (dlt / 2 ^ k < dlt) by (apply Z.div_lt; lia). lia. }
  apply Z.lxor_eq. assumption.
Qed.

(** Multiplication by an odd constant is injective modulo [2^32]. *)
Lemma mul_odd_injective a b c :
  Z.gcd two32 c = 1 ->
  ToUint32 (a * c) = ToUint32 (b * c) -> ToUint32 a = ToUint32 b.
Proof.
  unfold ToUint32. intros Hg H.
  assert (D : (two32 | (a - b) * c)).
  { apply Z.mod_divide; [unfold two32; lia|].
    rewrite Z.mul_sub_distr_r, Zminus_mod, H, Z.sub_diag. reflexivity. }
  rewrite Z.mul_comm in D. apply Z.gauss in D; [|exact Hg].
  destruct D as [q Hq].
  replace a with (b + q * two32) by lia.
  apply Z_mod_plus_full.
Qed.

Lemma mix32_injective a b : mix32 a = mix32 b -> ToUint32 a = ToUint32 b.
Proof.
  unfold mix32. rewrite !ushr_0, !ToUint32_idem. intros H.
  apply xorshift_injective in H; [|lia].
  rewrite !ToUint32_imul in H. apply mul_odd_injective in H; [|reflexivity].
  apply xorshift_injective in H; [|lia].
  rewrite !ToUint32_imul in H. apply mul_odd_injective in H; [|reflexivity].
  apply xorshift_injective in H; [|lia].
  exact H.
Qed.

(** X1.  For seeds whose four increments are exact in doubles (from
    [-2^53] up to [2^53 - 4 * 0x9e3779b9], bounds excluded), the constructor
    builds the same state from two seeds exactly when they are equal modulo
    [2^32].  Beyond that range the additions round: the seed [2^53] does not
    give the state of the seed [0], and the seed [2^100], which absorbs the
    increment, leaves the state of four zero words. *)
Theorem construct_seed_modulo :
  (forall a b, exact_seed a -> exact_seed b ->
     (PRNG.construct a = PRNG.construct b
      <-> a mod 4294967296 = b mod 4294967296)) /\
  PRNG.construct 9007199254740992 <> PRNG.construct 0 /\
  PRNG.construct 1267650600228229401496703205376 = [0; 0; 0; 0].
Proof.
  split; [|split].
  - intros a b Ha Hb.
    change (PRNG.construct a = PRNG.construct b <-> ToUint32 a = ToUint32 b).
    rewrite !construct_mix by assumption. split.
    + intros H. injection H as H _ _ _. apply mix32_injective in H.
      unfold ToUint32, two32 in *. Z.div_mod_to_equations. lia.
    + intros H.
      assert (E : forall c, ToUint32 (a + c) = ToUint32 (b + c)).
      { intros c. unfold ToUint32, two32 in *.
        Z.div_mod_to_equations. lia. }
      rewrite <- !Z.add_assoc.
      repeat (f_equal; try (apply mix32_congr; apply E)).
  - intros H. vm_compute in H. discriminate H.
  - vm_compute. reflexivity.
Qed.

Lemma construct_seed_modulo_witness :
  PRNG.construct 42 = PRNG.construct (42 + 4294967296).
Proof.
  apply (proj1 construct_seed_modulo 42 (42 + 4294967296));
    [unfold exact_seed; lia | unfold exact_seed; lia | reflexivity].
Defined.

(** The left rotation by 11, bit by bit. *)
Lemma rotl_bits x n :
  0 <= x < two32 -> 0 <= n ->
  Z.testbit (Z.lor (ToUint32 (x * 2 ^ 11)) (Z.shiftr x 21)) n =
  if n <? 11 then Z.testbit x (n + 21)
  else if n <? 32 then Z.testbit x (n - 11) else false.
Proof.
  intros Hx Hn.
  assert (Hhigh : forall m, 32 <= m -> Z.testbit x m = false).
  { intros m Hm. destruct (Z.eq_dec x 0) as [->|Hne];
      [apply Z.bits_0|].
    apply Z.bits_above_log2; [lia|].
    apply Z.lt_le_trans with 32; [|exact Hm].
    apply Z.log2_lt_pow2; unfold two32 in Hx; lia. }
  rewrite Z.lor_spec, Z.shiftr_spec by exact Hn.
  unfold ToUint32, two32. change 4294967296 with (2 ^ 32).
  destruct (n <? 11) eqn:E1; [apply Z.ltb_lt in E1 | apply Z.ltb_ge in E1].
  - rewrite Z.mod_pow2_bits_low by lia.
    rewrite Z.mul_pow2_bits_low by lia. reflexivity.
  - destruct (n <? 32) eqn:E2; [apply Z.ltb_lt in E2 | apply Z.ltb_ge in E2].
    + rewrite Z.mod_pow2_bits_low by lia.
      rewrite Z.mul_pow2_bits by lia.
      rewrite (Hhigh (n + 21)) by lia. apply orb_false_r.
    + rewrite Z.mod_pow2_bits_high by lia.
      rewrite (Hhigh (n + 21)) by lia. reflexivity.
Qed.

Lemma word_bits_high x m : 0 <= x < two32 -> 32 <= m -> Z.testbit x m = false.
Proof.
  intros Hx Hm. destruct (Z.eq_dec x 0) as [->|Hne]; [apply Z.bits_0|].
  apply Z.bits_above_log2; [lia|].
  apply Z.lt_le_trans with 32; [|exact Hm].
  apply Z.log2_lt_pow2; unfold two32 in Hx; lia.
Qed.

(** The left rotation is injective on 32-bit words. *)
Lemma rotl_injective x y :
  0 <= x < two32 -> 0 <= y < two32 ->
  Z.lor (ToUint32 (x * 2 ^ 11)) (Z.shiftr x 21) =
  Z.lor (ToUint32 (y * 2 ^ 11)) (Z.shiftr y 21) ->
  x = y.
Proof.
  intros Hx Hy H. apply Z.bits_inj'. intros n Hn.
  destruct (Z.lt_ge_cases n 32) as [Hlt|Hge].
  - destruct (Z.lt_ge_cases n 21) as [Hlo|Hhi].
    + apply (f_equal (fun z => Z.testbit z (n + 11))) in H.
      rewrite !rotl_bits in H by (assumption || lia).
      replace (n + 11 <? 11) with false in H
        by (symmetry; apply Z.ltb_ge; lia).
      replace (n + 11 <? 32) with true in H
        by (symmetry; apply Z.ltb_lt; lia).
      replace (n + 11 - 11) with n in H by lia. exact H.
    + apply (f_equal (fun z => Z.testbit z (n - 21))) in H.
      rewrite !rotl_bits in H by (assumption || lia).
      replace (n - 21 <? 11) with true in H
        by (symmetry; apply Z.ltb_lt; lia).
      replace (n - 21 + 21) with n in H by lia. exact H.
  - rewrite !word_bits_high by (assumption || lia). reflexivity.
Qed.

Lemma lxor_word a b :
  0 <= a < two32 -> 0 <= b < two32 -> 0 <= Z.lxor a b < two32.
Proof.
  intros Ha Hb.
  rewrite <- (ToUint32_small a), <- (ToUint32_small b) by assumption.
  rewrite <- ToUint32_lxor. apply ToUint32_range.
Qed.

(** The left shift by 9 distributes over [^]. *)
Lemma shl9_lxor a b :
  ToUint32 (Z.lxor a b * 2 ^ 9) =
  Z.lxor (ToUint32 (a * 2 ^ 9)) (ToUint32 (b * 2 ^ 9)).
Proof.
  rewrite <- !Z.shiftl_mul_pow2 by lia. rewrite Z.shiftl_lxor.
  rewrite !ToUint32_land.
  apply Z.bits_inj'. intros n Hn.
  rewrite Z.lxor_spec, !Z.land_spec, Z.lxor_spec.
  destruct (Z.testbit (Z.ones 32) n); rewrite ?andb_true_r, ?andb_false_r;
    reflexivity.
Qed.

(** X2.  [next] never maps two different states to the same state: on
    states of four 32-bit words its transition is injective. *)
Theorem next_state_injective (s t : list Z) :
  PRNG.wf s -> PRNG.wf t ->
  snd (PRNG.next s) = snd (PRNG.next t) -> s = t.
Proof.
  intros [Ls Fs] [Lt Ft]. cbn [PRNG.next snd].
  destruct s as [|a0 [|a1 [|a2 [|a3 [|]]]]]; try discriminate.
  destruct t as [|b0 [|b1 [|b2 [|b3 [|]]]]]; try discriminate.
  inversion Fs as [|? ? A0 Fs1]; subst.
  inversion Fs1 as [|? ? A1 Fs2]; subst.
  inversion Fs2 as [|? ? A2 Fs3]; subst.
  inversion Fs3 as [|? ? A3 _]; subst.
  inversion Ft as [|? ? B0 Ft1]; subst.
  inversion Ft1 as [|? ? B1 Ft2]; subst.
  inversion Ft2 as [|? ? B2 Ft3]; subst.
  inversion Ft3 as [|? ? B3 _]; subst.
  rewrite !next_state_words by assumption.
  intros H. injection H as E0 E1 E2 E3.
  apply rotl_injective in E3; try (apply lxor_word; assumption).
  rewrite E3 in E0. apply lxor_cancel_r in E0. subst b0.
  assert (Q : Z.lxor a1 a2 = Z.lxor b1 b2).
  { rewrite <- !Z.lxor_assoc in E1. apply lxor_cancel_r in E1. exact E1. }
  assert (E2' : Z.lxor a2 (ToUint32 (a1 * 2 ^ 9))
                = Z.lxor b2 (ToUint32 (b1 * 2 ^ 9))).
  { rewrite (Z.lxor_comm a2 a0), (Z.lxor_comm b2 a0) in E2.
    rewrite !Z.lxor_assoc in E2.
    rewrite (Z.lxor_comm a0), (Z.lxor_comm a0 (Z.lxor b2 _)) in E2.
    apply lxor_cancel_r in E2. exact E2. }
  assert (D : Z.lxor a1 b1 = 0).
  { apply (shift_fixpoint_zero (Z.lxor a1 b1));
      [apply lxor_word; assumption|].
    rewrite shl9_lxor.
    transitivity (Z.lxor a2 b2);
      [apply lxor_cross; exact Q | apply lxor_cross; exact E2']. }
  apply Z.lxor_eq in D. subst b1.
  rewrite (Z.lxor_comm a1 a2), (Z.lxor_comm a1 b2) in Q.
  apply lxor_cancel_r in Q. subst b2.
  apply lxor_cancel_r in E3. subst b3.
  reflexivity.
Qed.

Lemma next_state_injective_witness :
  PRNG.construct 42 = PRNG.construct 42.
Proof.
  apply (next_state_injective (PRNG.construct 42) (PRNG.construct 42));
    [apply construct_wf | apply construct_wf | reflexivity].
Defined.

(** X3.  The 32 bits [next] returns are [35 * s[1]] modulo [2^32]: they
    depend on the second state word only, and determine it. *)
Theorem next_bits_second_word (s t : list Z) :
  PRNG.next_bits s = (35 * word s 1) mod 4294967296 /\
  (0 <= word s 1 < 4294967296 -> 0 <= word t 1 < 4294967296 ->
   PRNG.next_bits s = PRNG.next_bits t -> word s 1 = word t 1).
Proof.
  assert (F : forall u, PRNG.next_bits u = ToUint32 (word u 1 * 35)).
  { intros u. unfold PRNG.next_bits.
    rewrite !ushr_0, ToUint32_idem, ToUint32_imul.
    f_equal. ring. }
  split.
  - rewrite F. unfold ToUint32, two32. f_equal. ring.
  - intros Hs Ht H. rewrite !F in H.
    apply mul_odd_injective in H; [|reflexivity].
    rewrite !ToUint32_small in H by (unfold two32; assumption). exact H.
Qed.

Lemma next_bits_second_word_witness :
  word (PRNG.construct 42) 1 = word (PRNG.construct 42) 1.
Proof.
  apply (proj2 (next_bits_second_word (PRNG.construct 42) (PRNG.construct 42)));
    [vm_compute; split; [discriminate | reflexivity]
    | vm_compute; split; [discriminate | reflexivity]
    | reflexivity].
Defined.

End GeneratorMore.

(** ** The integrator: initialisation and the frame of a step *)

Section IntegratorFrame.
Import Potentials EulerMaruyama.
Local Open Scope R_scope.

(** X4.  [randnArray] overwrites the whole array and keeps its length:
    entry [k] is the [randn] draw made after [2 * k] uniform draws, whatever
    the array held, and the generator ends [2 * arr.length] uniform draws
    further. *)
Theorem randnArray_fills (arr arr' : list R) (s : PRNG.state) :
  length arr' = length arr ->
  length (fst (PRNG.randnArray arr s)) = length arr /\
  (forall k, (k < length arr)%nat ->
     at_ (fst (PRNG.randnArray arr s)) k = fst (PRNG.randn (draws (2 * k) s))) /\
  snd (PRNG.randnArray arr s) = draws (2 * length arr) s /\
  PRNG.randnArray arr' s = PRNG.randnArray arr s.
Proof.
  intros Hlen.
  destruct (randnArray_spec arr s) as (L1 & S1 & V1).
  destruct (randnArray_spec arr' s) as (L2 & S2 & V2).
  repeat split; try assumption.
  rewrite (surjective_pairing (PRNG.randnArray arr' s)),
    (surjective_pairing (PRNG.randnArray arr s)).
  f_equal.
  - apply vec_ext; [congruence|].
    intros j Hj. rewrite V2, V1 by lia. reflexivity.
  - rewrite S1, S2, Hlen. reflexivity.
Qed.

Lemma randnArray_fills_witness :
  PRNG.randnArray [1; 2] (PRNG.construct 42)
  = PRNG.randnArray [0; 0] (PRNG.construct 42).
Proof.
  apply (randnArray_fills [0; 0] [1; 2] (PRNG.construct 42) eq_refl).
Defined.

(** The loop of [initialize]. *)
Lemma initialize_loop (std : R) (arr : list R) (s : PRNG.state) :
  let res :=
    for_loop (length arr)
      (fun i (acc : list R * PRNG.state) =>
         let '(pos, p) := acc in
         let '(z, p) := PRNG.randn p in (upd i (std * z) pos, p))
      (arr, s) in
  length (fst res) = length arr /\
  snd res = draws (2 * length arr) s /\
  forall k, (k < length arr)%nat ->
    at_ (fst res) k = std * fst (PRNG.randn (draws (2 * k) s)).
Proof.
  cbv zeta.
  apply (for_loop_inv
    (fun i (acc : list R * PRNG.state) =>
       length (fst acc) = length arr /\
       snd acc = draws (2 * i) s /\
       forall k, (k < i)%nat ->
         at_ (fst acc) k = std * fst (PRNG.randn (draws (2 * k) s)))).
  - cbn [fst snd]. repeat split. intros k Hk. lia.
  - intros i [a p] Hi (Hlen & Hp & Hval). cbn [fst snd] in *.
    destruct (PRNG.randn p) as [z p'] eqn:E. cbn [fst snd].
    assert (Ez : z = fst (PRNG.randn p)) by (rewrite E; reflexivity).
    assert (Ep : p' = snd (PRNG.randn p)) by (rewrite E; reflexivity).
    rewrite randn_state in Ep. subst p.
    split; [rewrite length_upd; exact Hlen|].
    split; [rewrite draws_two_more; exact Ep|].
    intros k Hk. unfold at_.
    destruct (Nat.eq_dec i k) as [->|Hne].
    + rewrite nth_upd_same by lia. rewrite Ez. reflexivity.
    + rewrite nth_upd_other by exact Hne. apply Hval. lia.
Qed.

(** X5.  [initialize(std)] returns a state of [N * d] positions, entry [k]
    being [std] times the [randn] draw made after [2 * k] uniform draws, with
    the integrator's [N] and [d]; it leaves the generator [2 * N * d] uniform
    draws further and touches no parameter and no scratch buffer. *)
Theorem initialize_draws (std : R) (sys : ParticleSystem) :
  (0 <= N sys * d sys)%Z ->
  let n := Z.to_nat (N sys * d sys) in
  let state := fst (initialize std sys) in
  let sys' := snd (initialize std sys) in
  length (positions state) = n /\
  (forall k, (k < n)%nat ->
     at_ (positions state) k
     = std * fst (PRNG.randn (draws (2 * k) (prng sys)))) /\
  st_N state = N sys /\ st_d state = d sys /\
  prng sys' = draws (2 * n) (prng sys) /\
  sys' = set_prng (prng sys') sys.
Proof.
  intros _. cbv zeta. unfold initialize.
  pose proof (initialize_loop std (repeat 0 (Z.to_nat (N sys * d sys)))
                (prng sys)) as H.
  cbv zeta in H.
  destruct (for_loop _ _ (repeat 0 (Z.to_nat (N sys * d sys)), prng sys))
    as [pos p].
  cbn [fst snd positions st_N st_d prng set_prng] in *.
  rewrite repeat_length in H. destruct H as (H1 & H2 & H3).
  repeat split; assumption.
Qed.

Lemma initialize_draws_witness :
  length (positions (fst (initialize 1 two_particles))) = 2%nat /\
  prng (snd (initialize 1 two_particles)) = draws 4 (PRNG.construct 42).
Proof.
  destruct (initialize_draws 1 two_particles) as (H1 & _ & _ & _ & H2 & _).
  - cbn. lia.
  - split; [exact H1 | exact H2].
Defined.

(** What one particle's turn does to the position buffer. *)
Lemma step_particle_positions q i sys pos :
  let dd := Z.to_nat (d sys) in
  length (snd (step_particle q i (sys, pos))) = length pos /\
  forall j, ((j < i * dd)%nat \/ ((i + 1) * dd <= j)%nat) ->
    at_ (snd (step_particle q i (sys, pos))) j = at_ pos j.
Proof.
  intros dd. unfold step_particle. cbn [snd].
  match goal with
  | |- context [for_loop ?n (fun k p => upd (?b + k) (at_ p (?b + k) + @?c k) p) pos] =>
      pose proof (for_loop_upd_at (fun k v => v + c k) b n pos) as H
  end.
  cbv beta zeta in H. destruct H as [Hl Hv].
  split; [exact Hl|].
  intros j Hj. rewrite Hv.
  cbn [d set_gradV set_gradPhi]. fold dd.
  destruct (i * dd <=? j)%nat eqn:E1; cbn [andb]; [|reflexivity].
  apply Nat.leb_le in E1.
  destruct (j <? i * dd + dd)%nat eqn:E2; cbn [andb]; [|reflexivity].
  apply Nat.ltb_lt in E2. lia.
Qed.

(** X6.  [step] never resizes the position buffer and writes only the
    entries of the [N] particles: the entries at [N * d] and beyond are left
    as they were, so are the state's [N] and [d] and the integrator's
    parameters, and for [N <= 0] the whole buffer is left as it was. *)
Theorem step_frame (sys : ParticleSystem) (state : ParticleState) :
  let sys' := fst (step sys state) in
  let state' := snd (step sys state) in
  length (positions state') = length (positions state) /\
  (forall j, (Z.to_nat (N sys) * Z.to_nat (d sys) <= j)%nat ->
     at_ (positions state') j = at_ (positions state) j) /\
  ((N sys <= 0)%Z -> positions state' = positions state) /\
  st_N state' = st_N state /\ st_d state' = st_d state /\
  V sys' = V sys /\ Phi sys' = Phi sys /\ sigma sys' = sigma sys /\
  dt sys' = dt sys /\ N sys' = N sys /\ d sys' = d sys.
Proof.
  cbv zeta.
  pose proof (step_system sys state) as Hsame.
  destruct Hsame as (HV & HPhi & Hsig & Hdt & HN & Hd & _ & _).
  cbn [V Phi sigma dt N d set_prng set_noise] in *.
  assert (Hpos :
    length (positions (snd (step sys state))) = length (positions state) /\
    forall j, (Z.to_nat (N sys) * Z.to_nat (d sys) <= j)%nat ->
      at_ (positions (snd (step sys state))) j = at_ (positions state) j).
  { unfold step.
    destruct (PRNG.randnArray (noise sys) (prng sys)) as [nz p].
    cbn [N set_prng set_noise].
    set (sys1 := set_prng p (set_noise nz sys)).
    assert (G : forall n (acc := for_loop n (step_particle (sqrt (dt sys)))
                                   (sys1, positions state)),
               d (fst acc) = d sys /\
               length (snd acc) = length (positions state) /\
               forall j, (n * Z.to_nat (d sys) <= j)%nat ->
                 at_ (snd acc) j = at_ (positions state) j).
    { induction n as [|n IH]; cbv zeta.
      - rewrite for_loop_0. cbn [fst snd]. repeat split.
      - rewrite for_loop_S. cbv zeta in IH.
        destruct (for_loop n _ (sys1, positions state)) as [s1 p1].
        cbn [fst snd] in IH. destruct IH as (Hd1 & Hl1 & Hv1).
        pose proof (step_particle_same_draws (sqrt (dt sys)) n s1 p1) as Hs.
        destruct Hs as (_ & _ & _ & _ & _ & Hd2 & _).
        pose proof (step_particle_positions (sqrt (dt sys)) n s1 p1) as Hp.
        cbv zeta in Hp. rewrite Hd1 in Hp. destruct Hp as [Hl2 Hv2].
        split; [congruence|]. split; [congruence|].
        intros j Hj. rewrite Hv2 by (right; lia). apply Hv1. lia. }
    specialize (G (Z.to_nat (N sys))). cbv zeta in G.
    destruct (for_loop (Z.to_nat (N sys)) _ (sys1, positions state))
      as [s2 p2].
    cbn [fst snd positions] in *. tauto. }
  destruct Hpos as [Hl Hv].
  repeat split; try (symmetry; assumption); try assumption.
  - intros Hle. apply vec_ext; [exact Hl|].
    intros j _. apply Hv. replace (Z.to_nat (N sys)) with 0%nat by lia. lia.
  - unfold step. destruct (PRNG.randnArray _ _) as [nz p].
    destruct (for_loop _ _ _) as [s2 p2]. reflexivity.
  - unfold step. destruct (PRNG.randnArray _ _) as [nz p].
    destruct (for_loop _ _ _) as [s2 p2]. reflexivity.
Qed.

Lemma step_frame_witness :
  positions (snd (step no_particle two_particles_state))
  = positions two_particles_state.
Proof.
  destruct (step_frame no_particle two_particles_state) as (_ & _ & H & _).
  apply H. cbn. lia.
Defined.

End IntegratorFrame.

(** ** The force laws and their output buffer *)

Section OutputBuffers.
Import Potentials EulerMaruyama.
Local Open Scope R_scope.

(** A loop that writes [c i] to [out[i]] for [i < n]: the length is kept,
    the entries from [n] on are kept, and writes past the end are dropped. *)
Lemma write_loop_frame (c : nat -> R) (n : nat) (out : vec) :
  length (for_loop n (fun i o => upd i (c i) o) out) = length out /\
  (forall j, (j < n)%nat -> (j < length out)%nat ->
     at_ (for_loop n (fun i o => upd i (c i) o) out) j = c j) /\
  (forall j, (n <= j)%nat ->
     at_ (for_loop n (fun i o => upd i (c i) o) out) j = at_ out j).
Proof.
  pose proof (for_loop_upd (fun i _ => c i) n out) as H.
  cbv beta zeta in H. destruct H as [Hl Hv].
  split; [exact Hl|]. split.
  - intros j H1 H2. rewrite Hv.
    replace (j <? n)%nat with true by (symmetry; apply Nat.ltb_lt; lia).
    replace (j <? length out)%nat with true
      by (symmetry; apply Nat.ltb_lt; lia).
    reflexivity.
  - intros j Hj. rewrite Hv.
    replace (j <? n)%nat with false by (symmetry; apply Nat.ltb_ge; lia).
    reflexivity.
Qed.

Lemma write_loop_fills (c : vec -> nat -> R) :
  fills (fun x out => for_loop (length x) (fun i o => upd i (c x i) o) out).
Proof.
  intros x out Hlen.
  destruct (write_loop (c x) (length x) out Hlen) as [Hl Hv].
  split; [exact Hl|].
  intros out' Hlen'.
  destruct (write_loop (c x) (length x) out' Hlen') as [Hl' Hv'].
  apply vec_ext; [congruence|].
  intros j Hj. rewrite Hl' in Hj. rewrite Hv, Hv' by exact Hj. reflexivity.
Qed.

Lemma write_loop_law (c : vec -> nat -> R) :
  let g := fun x out =>
             for_loop (length x) (fun i o => upd i (c x i) o) out in
  fills g /\
  forall x out,
    length (g x out) = length out /\
    forall j, (length x <= j)%nat -> at_ (g x out) j = at_ out j.
Proof.
  cbv zeta. split; [apply write_loop_fills|].
  intros x out.
  destruct (write_loop_frame (c x) (length x) out) as (Hl & _ & Hv).
  split; assumption.
Qed.

(** X7.  The gradient of each confinement law and of the anisotropic
    Gaussian law never resizes its output buffer, writes only its first
    [x.length] entries, and, given a buffer of the length of [x], leaves a
    content that does not depend on what the buffer held. *)
Theorem library_gradients_fill (k alpha1 alpha2 A : R) (a sSq : list R) :
  Forall
    (fun g : vec -> vec -> vec =>
       fills g /\
       forall x out,
         length (g x out) = length out /\
         forall j, (length x <= j)%nat -> at_ (g x out) j = at_ out j)
    [ gradient (HarmonicPotential k);
      gradient (QuadraticConfinement alpha1 alpha2);
      gradient DoubleWellPotential;
      gradient (AnisotropicConfinement a);
      AnisotropicGaussian_gradient A sSq ].
Proof.
  repeat apply Forall_cons; [| | | | | apply Forall_nil].
  - exact (write_loop_law (fun x i => k * at_ x i)).
  - exact (write_loop_law
             (fun x i => 0.5 * alpha1 / Rmax (sqrt (sum_squares x)) 1e-10
                         * at_ x i + 2.0 * alpha2 * at_ x i)).
  - exact (write_loop_law (fun x i => (sum_squares x - 1.0) * at_ x i)).
  - exact (write_loop_law (fun x i => 2.0 * at_ a i * at_ x i)).
  - exact (write_loop_law
             (fun z i => - AnisotropicGaussian_evaluate A sSq z * at_ z i
                         / at_ sSq i)).
Qed.

End OutputBuffers.

(** ** The scratch buffers carry nothing from one step to the next *)

Section ScratchBuffers.
Import Potentials EulerMaruyama.
Local Open Scope R_scope.

Lemma library_gradients_fill_witness :
  Harmonic_gradient 2 [1; 2] [5; 6] = Harmonic_gradient 2 [1; 2] [0; 0].
Proof.
  pose proof (library_gradients_fill 2 0 0 0 [] []) as H.
  apply Forall_inv in H. destruct H as [Hf _].
  destruct (Hf [1; 2] [0; 0] eq_refl) as [_ Hsame].
  exact (Hsame [5; 6] eq_refl).
Defined.

(** Two runs of a loop, related step by step. *)
Lemma for_loop_rel {S T : Type} (R : nat -> S -> T -> Prop) (n : nat)
    (f : nat -> S -> S) (g : nat -> T -> T) (s : S) (t : T) :
  R 0%nat s t ->
  (forall i a b, (i < n)%nat -> R i a b -> R (Datatypes.S i) (f i a) (g i b)) ->
  R n (for_loop n f s) (for_loop n g t).
Proof.
  intros H0 Hstep.
  assert (G : forall m, (m <= n)%nat ->
                R m (for_loop m f s) (for_loop m g t)).
  { induction m as [|m IH]; intros Hm.
    - exact H0.
    - rewrite !for_loop_S. apply Hstep; [lia | apply IH; lia]. }
  apply G. lia.
Qed.

Lemma getParticle_length sys pos i n :
  length pos = (n * Z.to_nat (d sys))%nat -> (i < n)%nat ->
  length (getParticle sys pos i) = Z.to_nat (d sys).
Proof.
  intros Hlen Hi. unfold getParticle, subarray.
  rewrite length_firstn, length_skipn, Hlen. nia.
Qed.

(** The radial pair body on two [diff] buffers of the right length. *)
Lemma radial_pair_scratch (g : R -> R) (dd : nat) (xi xj df df' gp : vec) :
  length df = dd -> length df' = dd -> length gp = dd ->
  radial_pair g dd xi xj df' gp = radial_pair g dd xi xj df gp /\
  length (fst (radial_pair g dd xi xj df gp)) = dd /\
  length (snd (radial_pair g dd xi xj df gp)) = dd.
Proof.
  intros H1 H2 H3.
  pose proof (radial_pair_distance dd xi xj df H1) as HA.
  pose proof (radial_pair_distance dd xi xj df' H2) as HB.
  cbv zeta in HA, HB.
  pose proof (radial_pair_spec g dd xi xj df gp H1 H3) as HS.
  cbv zeta in HS. destruct HS as [HSl _].
  unfold radial_pair in *.
  destruct (for_loop dd _ (df, 0)) as [d1 r1].
  destruct (for_loop dd _ (df', 0)) as [d2 r2].
  cbn [fst snd] in *.
  destruct HA as (LA & VA & SA). destruct HB as (LB & VB & SB).
  assert (E : d2 = d1).
  { apply vec_ext; [congruence|]. intros j Hj.
    rewrite VA, VB by lia. reflexivity. }
  assert (Er : r2 = r1) by (rewrite SA, SB; reflexivity).
  rewrite E, Er. repeat split; assumption.
Qed.

(** The vector pair body on two pairs of scratch buffers. *)
Lemma vector_pair_scratch (g : vec -> vec -> vec) (dd : nat)
    (xi xj df df' go go' gp : vec) :
  fills g ->
  length df = dd -> length df' = dd ->
  length go = dd -> length go' = dd -> length gp = dd ->
  vector_pair g dd xi xj df' go' gp = vector_pair g dd xi xj df go gp /\
  length (fst (fst (vector_pair g dd xi xj df go gp))) = dd /\
  length (snd (fst (vector_pair g dd xi xj df go gp))) = dd /\
  length (snd (vector_pair g dd xi xj df go gp)) = dd.
Proof.
  intros Hg H1 H2 H3 H4 H5. unfold vector_pair.
  destruct (write_loop (fun k => at_ xi k - at_ xj k) dd df H1) as [LA VA].
  destruct (write_loop (fun k => at_ xi k - at_ xj k) dd df' H2) as [LB VB].
  set (d1 := for_loop dd (fun k o => upd k (at_ xi k - at_ xj k) o) df) in *.
  set (d2 := for_loop dd (fun k o => upd k (at_ xi k - at_ xj k) o) df') in *.
  assert (E : d2 = d1).
  { apply vec_ext; [congruence|]. intros j Hj.
    rewrite VA, VB by lia. reflexivity. }
  rewrite E.
  destruct (Hg d1 go) as [Lg Sg]; [congruence|].
  rewrite (Sg go') by congruence.
  cbn [fst snd].
  pose proof (for_loop_upd (fun k v => v + at_ (g d1 go) k) dd gp) as H.
  cbv beta zeta in H. destruct H as [Lp _].
  repeat split; congruence.
Qed.

Lemma interaction_scratch i pos (a b : ParticleSystem) :
  scratch_agree a b -> filling_laws a ->
  gradV a = gradV b -> gradPhi a = gradPhi b ->
  scratch_agree (interaction i pos a) (interaction i pos b) /\
  gradV (interaction i pos a) = gradV (interaction i pos b) /\
  gradPhi (interaction i pos a) = gradPhi (interaction i pos b).
Proof.
  intros Hab [_ HPhi] HgV HgP.
  assert (HP : Phi a = Phi b) by apply Hab.
  assert (Hd : d a = d b) by apply Hab.
  assert (HN : N a = N b) by apply Hab.
  unfold interaction. rewrite <- HP, <- HN, <- Hd.
  assert (Hx : forall j, getParticle b pos j = getParticle a pos j).
  { intros j. unfold getParticle. rewrite Hd. reflexivity. }
  rewrite Hx.
  destruct (Phi a) as [ev g | ev g].
  - match goal with
    | |- scratch_agree ?X ?Y /\ _ =>
        enough (scratch_agree X Y /\ gradV X = gradV Y /\
                gradPhi X = gradPhi Y /\ d X = d a) by tauto
    end.
    apply (for_loop_rel
      (fun _ sa sb =>
         scratch_agree sa sb /\ gradV sa = gradV sb /\
         gradPhi sa = gradPhi sb /\ d sa = d a)).
    + repeat (split; [assumption|]). reflexivity.
    + intros j sa sb _ (Hs & H1 & H2 & H3).
      destruct (Nat.eqb i j); [repeat (split; [assumption|]); assumption|].
      assert (Hx' : getParticle sb pos j = getParticle sa pos j).
      { unfold getParticle.
        replace (d sb) with (d sa) by apply Hs. reflexivity. }
      rewrite Hx', <- H2.
      destruct Hs as (e1 & e2 & e3 & e4 & e5 & e6 & e7 & [l1 l2] & [l3 l4]
                      & [l5 l6] & [l7 l8]).
      rewrite H3 in *.
      destruct (radial_pair_scratch g (Z.to_nat (d a))
                  (getParticle a pos i) (getParticle sa pos j)
                  (diff sa) (diff sb) (gradPhi sa) l5 l6 l3)
        as (E & L1 & L2).
      rewrite E.
      destruct (radial_pair g _ _ _ (diff sa) (gradPhi sa)) as [df gp].
      cbn [fst snd] in L1, L2.
      unfold scratch_agree. cbn. rewrite H3. repeat split; assumption.
  - match goal with
    | |- scratch_agree ?X ?Y /\ _ =>
        enough (scratch_agree X Y /\ gradV X = gradV Y /\
                gradPhi X = gradPhi Y /\ d X = d a) by tauto
    end.
    apply (for_loop_rel
      (fun _ sa sb =>
         scratch_agree sa sb /\ gradV sa = gradV sb /\
         gradPhi sa = gradPhi sb /\ d sa = d a)).
    + repeat (split; [assumption|]). reflexivity.
    + intros j sa sb _ (Hs & H1 & H2 & H3).
      destruct (Nat.eqb i j); [repeat (split; [assumption|]); assumption|].
      assert (Hx' : getParticle sb pos j = getParticle sa pos j).
      { unfold getParticle.
        replace (d sb) with (d sa) by apply Hs. reflexivity. }
      rewrite Hx', <- H2.
      destruct Hs as (e1 & e2 & e3 & e4 & e5 & e6 & e7 & [l1 l2] & [l3 l4]
                      & [l5 l6] & [l7 l8]).
      rewrite H3 in *.
      destruct (vector_pair_scratch g (Z.to_nat (d a))
                  (getParticle a pos i) (getParticle sa pos j)
                  (diff sa) (diff sb) (gradOut sa) (gradOut sb) (gradPhi sa)
                  HPhi l5 l6 l7 l8 l3)
        as (E & L1 & L2 & L3).
      rewrite E.
      destruct (vector_pair g _ _ _ (diff sa) (gradOut sa) (gradPhi sa))
        as [[df go] gp].
      cbn [fst snd] in L1, L2, L3.
      unfold scratch_agree. cbn. rewrite H3. repeat split; assumption.
Qed.

Lemma scratch_agree_params (a b : ParticleSystem) :
  scratch_agree a b ->
  V a = V b /\ Phi a = Phi b /\ sigma a = sigma b /\ dt a = dt b /\
  N a = N b /\ d a = d b /\ noise a = noise b.
Proof. unfold scratch_agree. tauto. Qed.

(** One particle's turn on two integrators that differ in scratch content
    only. *)
Lemma step_particle_scratch q i n (a b : ParticleSystem) (pos : vec) :
  scratch_agree a b -> filling_laws a ->
  length pos = (n * Z.to_nat (d a))%nat -> (i < n)%nat ->
  snd (step_particle q i (a, pos)) = snd (step_particle q i (b, pos)) /\
  scratch_agree (fst (step_particle q i (a, pos)))
                (fst (step_particle q i (b, pos))) /\
  filling_laws (fst (step_particle q i (a, pos))).
Proof.
  intros Hab Hfill Hlen Hi.
  destruct (scratch_agree_params a b Hab)
    as (eV & ePhi & esig & edt & eN & ed & enz).
  assert (Hx : getParticle b pos i = getParticle a pos i).
  { unfold getParticle. rewrite ed. reflexivity. }
  pose proof (getParticle_length a pos i n Hlen Hi) as Lx.
  destruct Hab as (_ & _ & _ & _ & _ & _ & _ & [l1 l2] & [l3 l4]
                   & [l5 l6] & [l7 l8]).
  destruct Hfill as [HV HPhi].
  destruct (HV (getParticle a pos i) (gradV a)) as [LgV SgV]; [congruence|].
  unfold step_particle.
  cbn [fst snd d gradV gradPhi V set_gradV set_gradPhi].
  rewrite <- ed, Hx, <- eV.
  rewrite (SgV (gradV b)) by congruence.
  rewrite (zero_loop _ (gradPhi a)), (zero_loop _ (gradPhi b)) by assumption.
  set (a2 := set_gradPhi (repeat 0 (Z.to_nat (d a)))
               (set_gradV (gradient (V a) (getParticle a pos i) (gradV a)) a)).
  set (b2 := set_gradPhi (repeat 0 (Z.to_nat (d a)))
               (set_gradV (gradient (V a) (getParticle a pos i) (gradV a)) b)).
  assert (H2 : scratch_agree a2 b2).
  { unfold scratch_agree, a2, b2. cbn. rewrite repeat_length, LgV, Lx.
    repeat split; assumption. }
  assert (F2 : filling_laws a2).
  { unfold filling_laws, a2. cbn. split; assumption. }
  destruct (interaction_scratch i pos a2 b2 H2 F2 eq_refl eq_refl)
    as (H3 & G3 & P3).
  destruct (scratch_agree_params _ _ H3)
    as (eV3 & ePhi3 & esig3 & edt3 & eN3 & ed3 & enz3).
  pose proof (interaction_same_draws i pos a2) as Sa.
  destruct Sa as (sV & sPhi & _ & _ & _ & sd & _ & _).
  cbn [V Phi d a2 set_gradPhi set_gradV] in sV, sPhi, sd.
  set (a3 := interaction i pos a2) in *.
  set (b3 := interaction i pos b2) in *.
  cbn [N gradV gradPhi dt sigma noise set_gradPhi].
  rewrite <- eN3, <- G3, <- P3, <- edt3, <- esig3, <- enz3.
  split; [reflexivity|]. split.
  - pose proof (for_loop_upd (fun k v => v / IZR (N a3)) (Z.to_nat (d a))
                  (gradPhi a3)) as H.
    cbv beta zeta in H. destruct H as [Lq _].
    destruct H3 as (_ & _ & _ & _ & _ & _ & _ & [m1 m2] & [m3 m4]
                    & [m5 m6] & [m7 m8]).
    unfold scratch_agree. cbn. rewrite <- sd in *.
    repeat split; try assumption; rewrite Lq; assumption.
  - unfold filling_laws. cbn. rewrite <- sV, <- sPhi. split; assumption.
Qed.

Lemma step_length (sys : ParticleSystem) (state : ParticleState) :
  length (positions (snd (step sys state))) = length (positions state).
Proof.
  unfold step.
  destruct (PRNG.randnArray (noise sys) (prng sys)) as [nz p].
  match goal with
  | |- context [for_loop ?n ?f (?s, ?p0)] =>
      assert (G : length (snd (for_loop n f (s, p0))) = length p0)
  end.
  { apply (for_loop_inv
             (fun _ (acc : ParticleSystem * vec) =>
                length (snd acc) = length (positions state))).
    - reflexivity.
    - intros i [s1 p1] _ H. cbn [snd] in H.
      destruct (step_particle_positions (sqrt (dt sys)) i s1 p1) as [L _].
      congruence. }
  destruct (for_loop _ _ _) as [s2 p2]. exact G.
Qed.

Lemma step_ignores_scratch_once (a b : ParticleSystem) (state : ParticleState) :
  same_run a b -> filling_laws a ->
  length (positions state) = (Z.to_nat (N a) * Z.to_nat (d a))%nat ->
  snd (step a state) = snd (step b state) /\
  same_run (fst (step a state)) (fst (step b state)) /\
  filling_laws (fst (step a state)) /\
  N (fst (step a state)) = N a /\ d (fst (step a state)) = d a.
Proof.
  intros Hab Hfill Hlen.
  destruct Hab as (eV & ePhi & esig & edt & eN & ed & Hp & Hnz & L1 & L2 & L3
                   & L4).
  destruct (randnArray_spec (noise a) (prng a)) as (La & Sa & Va).
  destruct (randnArray_spec (noise b) (prng a)) as (Lb & Sb & Vb).
  assert (Enz : PRNG.randnArray (noise b) (prng a)
                = PRNG.randnArray (noise a) (prng a)).
  { rewrite (surjective_pairing (PRNG.randnArray (noise b) (prng a))),
      (surjective_pairing (PRNG.randnArray (noise a) (prng a))).
    f_equal.
    - apply vec_ext; [congruence|].
      intros j Hj. rewrite Va, Vb by lia. reflexivity.
    - rewrite Sa, Sb, Hnz. reflexivity. }
  unfold step. rewrite <- Hp, Enz.
  destruct (PRNG.randnArray (noise a) (prng a)) as [nz p].
  cbn [N dt set_prng set_noise].
  set (a1 := set_prng p (set_noise nz a)).
  set (b1 := set_prng p (set_noise nz b)).
  assert (H1 : scratch_agree a1 b1).
  { unfold scratch_agree, a1, b1. cbn. tauto. }
  assert (F1 : filling_laws a1) by exact Hfill.
  rewrite <- eN, <- edt.
  assert (G :
    let ra := for_loop (Z.to_nat (N a)) (step_particle (sqrt (dt a)))
                (a1, positions state) in
    let rb := for_loop (Z.to_nat (N a)) (step_particle (sqrt (dt a)))
                (b1, positions state) in
    snd ra = snd rb /\ scratch_agree (fst ra) (fst rb) /\
    filling_laws (fst ra) /\ d (fst ra) = d a /\ N (fst ra) = N a /\
    length (snd ra) = length (positions state) /\
    prng (fst ra) = p /\ prng (fst rb) = p).
  { cbv zeta.
    apply (for_loop_rel
      (fun _ (ra rb : ParticleSystem * vec) =>
         snd ra = snd rb /\ scratch_agree (fst ra) (fst rb) /\
         filling_laws (fst ra) /\ d (fst ra) = d a /\ N (fst ra) = N a /\
         length (snd ra) = length (positions state) /\
         prng (fst ra) = p /\ prng (fst rb) = p)).
    - cbn [fst snd]. repeat (split; [assumption || reflexivity|]).
      reflexivity.
    - intros i [sa pa] [sb pb] Hi (E & Hs & Hf & Hd & HN & Hl & Pa & Pb).
      cbn [fst snd] in *. subst pb.
      assert (Hl' : length pa = (Z.to_nat (N a) * Z.to_nat (d sa))%nat)
        by (rewrite Hd; congruence).
      destruct (step_particle_scratch (sqrt (dt a)) i (Z.to_nat (N a))
                  sa sb pa Hs Hf Hl' Hi) as (E1 & E2 & E3).
      pose proof (step_particle_same_draws (sqrt (dt a)) i sa pa) as Ua.
      pose proof (step_particle_same_draws (sqrt (dt a)) i sb pa) as Ub.
      destruct Ua as (_ & _ & _ & _ & sN & sd & _ & spa).
      destruct Ub as (_ & _ & _ & _ & _ & _ & _ & spb).
      destruct (step_particle_positions (sqrt (dt a)) i sa pa) as [Lp _].
      repeat (split; [assumption || congruence|]). congruence. }
  cbv zeta in G.
  destruct (for_loop _ _ (a1, positions state)) as [sa pa].
  destruct (for_loop _ _ (b1, positions state)) as [sb pb].
  cbn [fst snd] in *.
  destruct G as (E & Hs & Hf & Hd & HN & _ & Pa & Pb).
  subst pb. split; [reflexivity|].
  split; [|split; [exact Hf | split; assumption]].
  unfold scratch_agree in Hs. unfold same_run.
  destruct Hs as (h1 & h2 & h3 & h4 & h5 & h6 & h7 & h8).
  rewrite h7. repeat (split; [assumption || congruence|]). exact h8.
Qed.

(** X8.  The scratch buffers carry nothing from one call to the next: two
    integrators with the same parameters and generator state, whose buffers
    have the right lengths but any contents, and whose force laws fill
    their output buffer, leave the same positions after any number of
    [step] calls on the same state of [N * d] positions. *)
Theorem steps_ignore_scratch (n : nat) (a b : ParticleSystem)
    (state : ParticleState) :
  same_run a b -> filling_laws a ->
  length (positions state) = (Z.to_nat (N a) * Z.to_nat (d a))%nat ->
  snd (steps n a state) = snd (steps n b state) /\
  same_run (fst (steps n a state)) (fst (steps n b state)).
Proof.
  intros Hab Hfill Hlen.
  enough (G : snd (steps n a state) = snd (steps n b state) /\
              same_run (fst (steps n a state)) (fst (steps n b state)) /\
              filling_laws (fst (steps n a state)) /\
              N (fst (steps n a state)) = N a /\
              d (fst (steps n a state)) = d a /\
              length (positions (snd (steps n a state)))
              = length (positions state)) by tauto.
  induction n as [|n IH].
  - cbn [steps fst snd]. repeat (split; [assumption || reflexivity|]).
    reflexivity.
  - cbn [steps].
    destruct (steps n a state) as [sa sta].
    destruct (steps n b state) as [sb stb].
    cbn [fst snd] in IH. destruct IH as (E & Hs & Hf & HN & Hd & Hl).
    subst stb.
    destruct (step_ignores_scratch_once sa sb sta Hs Hf)
      as (E1 & E2 & E3 & E4 & E5); [congruence|].
    pose proof (step_length sa sta) as L.
    destruct (step sa sta) as [sa' sta'].
    destruct (step sb sta) as [sb' stb'].
    cbn [fst snd] in *.
    repeat (split; [assumption || congruence|]). congruence.
Qed.

Lemma steps_ignore_scratch_witness :
  snd (steps 3 two_particles two_particles_state)
  = snd (steps 3 two_particles_used two_particles_state).
Proof.
  apply (steps_ignore_scratch 3 two_particles two_particles_used
           two_particles_state).
  - unfold same_run. repeat split; reflexivity.
  - split; [exact (write_loop_fills (fun x i => 1 * at_ x i)) | exact I].
  - reflexivity.
Defined.

End ScratchBuffers.

(** ** The first particle of a step *)

Section FirstParticle.
Import Potentials EulerMaruyama.
Local Open Scope R_scope.

Lemma step_particle_snapshot_same_draws q pos0 i sys out :
  same_draws sys (fst (step_particle_snapshot q pos0 i (sys, out))).
Proof.
  unfold step_particle_snapshot. cbn [fst].
  match goal with
  | |- same_draws _ (set_gradPhi _ (interaction ?i ?p ?s)) =>
      apply same_draws_trans with (interaction i p s);
      [apply same_draws_trans with s;
         [unfold same_draws; cbn; tauto | apply interaction_same_draws]
      | unfold same_draws; cbn; tauto]
  end.
Qed.

Lemma step_particle_snapshot_positions q pos0 i sys out :
  let dd := Z.to_nat (d sys) in
  length (snd (step_particle_snapshot q pos0 i (sys, out))) = length out /\
  forall j, ((j < i * dd)%nat \/ ((i + 1) * dd <= j)%nat) ->
    at_ (snd (step_particle_snapshot q pos0 i (sys, out))) j = at_ out j.
Proof.
  intros dd. unfold step_particle_snapshot. cbn [snd].
  match goal with
  | |- context [for_loop ?n (fun k p => upd (?b + k) (@?c k) p) out] =>
      pose proof (for_loop_upd_at (fun k _ => c k) b n out) as H
  end.
  cbv beta zeta in H. destruct H as [Hl Hv].
  split; [exact Hl|].
  intros j Hj. rewrite Hv.
  cbn [d set_gradV set_gradPhi]. fold dd.
  destruct (i * dd <=? j)%nat eqn:E1; cbn [andb]; [|reflexivity].
  apply Nat.leb_le in E1.
  destruct (j <? i * dd + dd)%nat eqn:E2; cbn [andb]; [|reflexivity].
  apply Nat.ltb_lt in E2. lia.
Qed.

(** The first particle's turn is the same in both schemes. *)
Lemma first_turn_agrees q sys pos j :
  at_ (snd (step_particle q 0 (sys, pos))) j =
  at_ (snd (step_particle_snapshot q pos 0 (sys, pos))) j.
Proof.
  unfold step_particle, step_particle_snapshot. cbn [snd].
  match goal with
  | |- at_ (for_loop ?n (fun k p => upd (?b + k) (at_ p (?b + k) + @?c k) p) pos) j = _ =>
      pose proof (for_loop_upd_at (fun k v => v + c k) b n pos) as H1;
      pose proof (for_loop_upd_at (fun k _ => at_ pos (b + k) + c k) b n pos)
        as H2
  end.
  cbv beta zeta in H1, H2. destruct H1 as [_ V1]. destruct H2 as [_ V2].
  rewrite V1, V2. cbn [Nat.mul Nat.add]. rewrite Nat.sub_0_r.
  reflexivity.
Qed.

(** X9.  The first particle of a step reads pre-step positions only: with
    [N >= 1], its [d] coordinates after [step] are those of the scheme that
    computes every force from the positions at the start of the step. *)
Theorem first_particle_reads_pre_step
    (sys : ParticleSystem) (state : ParticleState) :
  (1 <= N sys)%Z ->
  forall j, (j < Z.to_nat (d sys))%nat ->
    at_ (positions (snd (step sys state))) j =
    at_ (positions (snd (step_snapshot sys state))) j.
Proof.
  intros HN j Hj. unfold step, step_snapshot.
  destruct (PRNG.randnArray (noise sys) (prng sys)) as [nz p].
  cbn [N set_prng set_noise].
  set (s1 := set_prng p (set_noise nz sys)).
  set (q := sqrt (dt sys)).
  set (pos := positions state).
  assert (Hd1 : d s1 = d sys) by reflexivity.
  assert (GA : forall m,
    let acc := for_loop (S m) (step_particle q) (s1, pos) in
    d (fst acc) = d sys /\
    at_ (snd acc) j = at_ (snd (step_particle q 0 (s1, pos))) j).
  { induction m as [|m IH]; cbv zeta.
    - rewrite for_loop_S, for_loop_0. split; [|reflexivity].
      pose proof (step_particle_same_draws q 0 s1 pos) as Hs.
      destruct Hs as (_ & _ & _ & _ & _ & Hd & _). congruence.
    - rewrite for_loop_S. cbv zeta in IH.
      destruct (for_loop (S m) _ (s1, pos)) as [s2 p2].
      cbn [fst snd] in IH. destruct IH as [Hd2 Hv2].
      pose proof (step_particle_same_draws q (S m) s2 p2) as Hs.
      destruct Hs as (_ & _ & _ & _ & _ & Hd & _).
      destruct (step_particle_positions q (S m) s2 p2) as [_ Hv].
      split; [congruence|].
      rewrite Hv; [exact Hv2|]. left. rewrite Hd2. nia. }
  assert (GB : forall m,
    let acc := for_loop (S m) (step_particle_snapshot q pos) (s1, pos) in
    d (fst acc) = d sys /\
    at_ (snd acc) j = at_ (snd (step_particle_snapshot q pos 0 (s1, pos))) j).
  { induction m as [|m IH]; cbv zeta.
    - rewrite for_loop_S, for_loop_0. split; [|reflexivity].
      pose proof (step_particle_snapshot_same_draws q pos 0 s1 pos) as Hs.
      destruct Hs as (_ & _ & _ & _ & _ & Hd & _). congruence.
    - rewrite for_loop_S. cbv zeta in IH.
      destruct (for_loop (S m) _ (s1, pos)) as [s2 p2].
      cbn [fst snd] in IH. destruct IH as [Hd2 Hv2].
      pose proof (step_particle_snapshot_same_draws q pos (S m) s2 p2) as Hs.
      destruct Hs as (_ & _ & _ & _ & _ & Hd & _).
      destruct (step_particle_snapshot_positions q pos (S m) s2 p2)
        as [_ Hv].
      split; [congruence|].
      rewrite Hv; [exact Hv2|]. left. rewrite Hd2. nia. }
  destruct (Z.to_nat (N sys)) as [|m] eqn:En; [lia|].
  specialize (GA m). specialize (GB m). cbv zeta in GA, GB.
  destruct (for_loop (S m) (step_particle q) (s1, pos)) as [sa pa].
  destruct (for_loop (S m) (step_particle_snapshot q pos) (s1, pos))
    as [sb pb].
  cbn [fst snd positions] in *.
  destruct GA as [_ GA]. destruct GB as [_ GB].
  rewrite GA, GB. apply first_turn_agrees.
Qed.

Lemma first_particle_reads_pre_step_witness :
  at_ (positions (snd (step two_particles two_particles_state))) 0 =
  at_ (positions (snd (step_snapshot two_particles two_particles_state))) 0.
Proof.
  apply (first_particle_reads_pre_step two_particles two_particles_state);
    cbn; lia.
Defined.

End FirstParticle.

(** ** Pair terms: coincident particles and the vector branch *)

Section PairTerms.
Import Potentials EulerMaruyama.
Local Open Scope R_scope.

(** A sum of non-negative terms is at least each of them. *)
Lemma sum_loop_term (f : nat -> R) (n : nat) :
  (forall k, 0 <= f k) ->
  forall k, (k < n)%nat -> f k <= for_loop n (fun k s => s + f k) 0.
Proof.
  intros Hf.
  assert (G : 0 <= for_loop n (fun k s => s + f k) 0 /\
              forall k, (k < n)%nat ->
                f k <= for_loop n (fun k s => s + f k) 0).
  { apply (for_loop_inv
             (fun i s => 0 <= s /\ forall k, (k < i)%nat -> f k <= s)).
    - split; [lra | intros k Hk; lia].
    - intros i s _ [Hs Hk]. pose proof (Hf i). split; [lra|].
      intros k Hlt. destruct (Nat.eq_dec k i) as [->|Hne]; [lra|].
      assert (f k <= s) by (apply Hk; lia). lra. }
  exact (proj2 G).
Qed.

(** X10.  Near contact the radial branch works at the floor distance: for
    a pair at squared distance at most [1e-10 * 1e-10], the law is
    evaluated at [1e-10] and the terms are divided by [1e-10], so that
    entry [k] of the accumulator gains [g(1e-10) * (x_k - y_k) / 1e-10], at
    most [|g(1e-10)|] in absolute value; two particles at the same position
    add nothing. *)
Theorem radial_pair_near_contact (g : R -> R) (dd : nat) (x y diff gp : vec) :
  length diff = dd -> length gp = dd ->
  for_loop dd (fun k s => s + (at_ x k - at_ y k) * (at_ x k - at_ y k)) 0
  <= 1e-10 * 1e-10 ->
  (forall k, (k < dd)%nat ->
     at_ (snd (radial_pair g dd x y diff gp)) k
     = at_ gp k + g 1e-10 * (at_ x k - at_ y k) / 1e-10 /\
     Rabs (g 1e-10 * (at_ x k - at_ y k) / 1e-10) <= Rabs (g 1e-10)) /\
  (x = y -> snd (radial_pair g dd x y diff gp) = gp).
Proof.
  intros Hd Hg Hsmall.
  destruct (radial_pair_spec g dd x y diff gp Hd Hg) as [L V].
  cbv zeta in V.
  set (rSq := for_loop dd
                (fun k s => s + (at_ x k - at_ y k) * (at_ x k - at_ y k)) 0)
    in *.
  assert (Er : Rmax (sqrt rSq) 1e-10 = 1e-10).
  { apply Rmax_right.
    apply Rle_trans with (sqrt (1e-10 * 1e-10));
      [apply sqrt_le_1_alt; exact Hsmall | rewrite sqrt_square by lra; lra]. }
  rewrite Er in V.
  assert (Hc : 0 < 1e-10) by lra.
  split.
  - intros k Hk. split; [apply V; exact Hk|].
    pose proof (sum_loop_term
                  (fun k => (at_ x k - at_ y k) * (at_ x k - at_ y k)) dd
                  (fun k => Rle_0_sqr _) k Hk) as Hterm.
    cbv beta in Hterm. fold rSq in Hterm.
    clear V Er. revert Hsmall Hc. generalize 1e-10. intros c Hsmall Hc.
    set (u := at_ x k - at_ y k) in *.
    assert (Hu : Rabs u <= c).
    { apply Rabs_le. split; nra. }
    unfold Rdiv. rewrite !Rabs_mult, Rabs_inv, (Rabs_pos_eq c) by lra.
    pose proof (Rabs_pos (g c)) as Hgp.
    assert (Hq : Rabs u * / c <= 1).
    { apply Rmult_le_reg_r with c; [exact Hc|].
      rewrite Rmult_assoc, Rinv_l by lra. lra. }
    pose proof (Rabs_pos u).
    assert (0 <= Rabs u * / c).
    { apply Rmult_le_pos; [assumption|].
      left. apply Rinv_0_lt_compat. exact Hc. }
    rewrite Rmult_assoc. nra.
  - intros <-. apply vec_ext; [congruence|].
    intros j Hj. rewrite L in Hj. rewrite V by exact Hj.
    unfold Rdiv. ring.
Qed.

Lemma radial_pair_near_contact_witness :
  snd (radial_pair (Inverse_gradient 1) 2 [1; 2] [1; 2] [0; 0] [3; 4]) = [3; 4].
Proof.
  apply (proj2 (radial_pair_near_contact (Inverse_gradient 1) 2
                  [1; 2] [1; 2] [0; 0] [3; 4] eq_refl eq_refl
                  ltac:(run_buffers; lra))).
  reflexivity.
Defined.

(** The anisotropic Gaussian is even. *)
Lemma AnisotropicGaussian_even (A : R) (sSq : list R) (z z' : vec) :
  length z = length z' ->
  (forall k, (k < length z)%nat -> at_ z k = - at_ z' k) ->
  AnisotropicGaussian_evaluate A sSq z = AnisotropicGaussian_evaluate A sSq z'.
Proof.
  intros Hl Hv. unfold AnisotropicGaussian_evaluate. cbv zeta.
  rewrite <- Hl. do 3 f_equal.
  apply for_loop_ext. intros k e Hk. rewrite (Hv k Hk).
  unfold Rdiv. ring.
Qed.

(** X11.  In the vector branch with the anisotropic Gaussian law, the term
    a pair adds to a zeroed accumulator for [x - y] is the negation of the
    term it adds for [y - x]. *)
Theorem vector_pair_antisymmetric
    (A : R) (sSq : list R) (dd : nat) (x y df1 df2 go1 go2 : vec) :
  length x = dd -> length y = dd ->
  length df1 = dd -> length df2 = dd ->
  length go1 = dd -> length go2 = dd ->
  snd (vector_pair (AnisotropicGaussian_gradient A sSq) dd x y df1 go1
         (repeat 0 dd)) =
  map Ropp
    (snd (vector_pair (AnisotropicGaussian_gradient A sSq) dd y x df2 go2
            (repeat 0 dd))).
Proof.
  intros Hx Hy H1 H2 H3 H4. unfold vector_pair. cbn [snd].
  destruct (write_loop (fun k => at_ x k - at_ y k) dd df1 H1) as [LA VA].
  destruct (write_loop (fun k => at_ y k - at_ x k) dd df2 H2) as [LB VB].
  set (d1 := for_loop dd (fun k o => upd k (at_ x k - at_ y k) o) df1) in *.
  set (d2 := for_loop dd (fun k o => upd k (at_ y k - at_ x k) o) df2) in *.
  assert (Hopp : forall k, (k < length d1)%nat -> at_ d1 k = - at_ d2 k).
  { intros k Hk. rewrite VA, VB by lia. ring. }
  assert (Hev : AnisotropicGaussian_evaluate A sSq d1
                = AnisotropicGaussian_evaluate A sSq d2).
  { apply AnisotropicGaussian_even; [congruence | exact Hopp]. }
  unfold AnisotropicGaussian_gradient. cbv zeta.
  rewrite LA, LB, Hev.
  set (phi := AnisotropicGaussian_evaluate A sSq d2).
  destruct (write_loop (fun i => - phi * at_ d1 i / at_ sSq i) dd go1 H3)
    as [L1 V1].
  destruct (write_loop (fun i => - phi * at_ d2 i / at_ sSq i) dd go2 H4)
    as [L2 V2].
  set (o1 := for_loop dd (fun i o => upd i (- phi * at_ d1 i / at_ sSq i) o)
               go1) in *.
  set (o2 := for_loop dd (fun i o => upd i (- phi * at_ d2 i / at_ sSq i) o)
               go2) in *.
  pose proof (for_loop_upd (fun k v => v + at_ o1 k) dd (repeat 0 dd)) as HA.
  pose proof (for_loop_upd (fun k v => v + at_ o2 k) dd (repeat 0 dd)) as HB.
  cbv beta zeta in HA, HB.
  destruct HA as [LpA VpA]. destruct HB as [LpB VpB].
  rewrite repeat_length in *.
  apply vec_ext; [rewrite length_map; congruence|].
  intros j Hj. rewrite LpA in Hj.
  rewrite at_map_opp, VpA, VpB.
  replace (j <? dd)%nat with true by (symmetry; apply Nat.ltb_lt; lia).
  cbn [andb]. rewrite at_zeros, V1, V2 by exact Hj.
  rewrite (Hopp j) by lia. unfold Rdiv. ring.
Qed.

Lemma vector_pair_antisymmetric_witness :
  snd (vector_pair (AnisotropicGaussian_gradient 2 [0.25; 2.25]) 2
         [1; 2] [0; 1] [0; 0] [0; 0] (repeat 0 2)) =
  map Ropp
    (snd (vector_pair (AnisotropicGaussian_gradient 2 [0.25; 2.25]) 2
            [0; 1] [1; 2] [0; 0] [0; 0] (repeat 0 2))).
Proof.
  apply (vector_pair_antisymmetric 2 [0.25; 2.25] 2 [1; 2] [0; 1]
           [0; 0] [0; 0] [0; 0] [0; 0]); reflexivity.
Defined.

End PairTerms.

(** ** The recorded trajectory *)

Section Trajectory.
Import Potentials EulerMaruyama.
Local Open Scope R_scope.

Lemma steps_S n sys state :
  steps (S n) sys state =
  step (fst (steps n sys state)) (snd (steps n sys state)).
Proof. cbn [steps]. destruct (steps n sys state). reflexivity. Qed.

Lemma tenth_multiple (i : nat) :
  (Z.of_nat i mod 10 = 0)%Z -> ((S i + 9) / 10 = S ((i + 9) / 10))%nat.
Proof.
  intros H. apply Nat2Z.inj. rewrite Nat2Z.inj_succ, !Nat2Z.inj_div.
  replace (Z.of_nat (S i + 9)) with (Z.of_nat i + 10)%Z by lia.
  replace (Z.of_nat (i + 9)) with (Z.of_nat i + 9)%Z by lia.
  change (Z.of_nat 10) with 10%Z.
  Z.div_mod_to_equations. lia.
Qed.

Lemma tenth_other (i : nat) :
  (Z.of_nat i mod 10 <> 0)%Z -> ((S i + 9) / 10 = (i + 9) / 10)%nat.
Proof.
  intros H. apply Nat2Z.inj. rewrite !Nat2Z.inj_div.
  replace (Z.of_nat (S i + 9)) with (Z.of_nat i + 10)%Z by lia.
  replace (Z.of_nat (i + 9)) with (Z.of_nat i + 9)%Z by lia.
  change (Z.of_nat 10) with 10%Z.
  Z.div_mod_to_equations. lia.
Qed.

Lemma snapshot_count (nSteps : Z) :
  (1 <= nSteps)%Z ->
  (2 + (Z.to_nat nSteps + 8) / 10)%nat = Z.to_nat (2 + (nSteps + 8) / 10).
Proof.
  intros H. apply Nat2Z.inj.
  rewrite Nat2Z.inj_add, Nat2Z.inj_div, Z2Nat.id.
  - replace (Z.of_nat (Z.to_nat nSteps + 8)) with (nSteps + 8)%Z by lia.
    reflexivity.
  - assert (0 <= (nSteps + 8) / 10)%Z by (apply Z.div_pos; lia). lia.
Qed.

(** X12.  [simulate(nSteps, initStd)] records the initial positions first;
    for [nSteps <= 0] nothing else; for [nSteps >= 1] it records
    [2 + (nSteps + 8) / 10] snapshots (integer division), the last one being
    the positions after the [nSteps] steps.  It leaves the integrator as
    [initialize] and [nSteps] calls of [step] leave it. *)
Theorem simulate_trajectory (nSteps : Z) (initStd : R) (sys : ParticleSystem) :
  let st0 := fst (initialize initStd sys) in
  let sys0 := snd (initialize initStd sys) in
  let n := Z.to_nat nSteps in
  let trajectory := map positions (fst (simulate nSteps initStd sys)) in
  snd (simulate nSteps initStd sys) = fst (steps n sys0 st0) /\
  hd [] trajectory = positions st0 /\
  ((nSteps <= 0)%Z -> trajectory = [positions st0]) /\
  ((1 <= nSteps)%Z ->
     length trajectory = Z.to_nat (2 + (nSteps + 8) / 10) /\
     last trajectory [] = positions (snd (steps n sys0 st0))).
Proof.
  cbv zeta. unfold simulate.
  destruct (initialize initStd sys) as [st0 sys0]. cbn [fst snd].
  set (snapshot := fun st : ParticleState =>
         {| positions := positions st; st_N := N sys0; st_d := d sys0 |}).
  set (n := Z.to_nat nSteps).
  set (body := fun (s : nat)
                   (acc : list ParticleState * ParticleState * ParticleSystem) =>
         let '(trajectory, state, sys1) := acc in
         let '(sys2, state0) := step sys1 state in
         if ((Z.of_nat s mod 10 =? 0) || (Z.of_nat s =? nSteps - 1))%Z
         then (trajectory ++ [snapshot state0], state0, sys2)
         else (trajectory, state0, sys2)).
  set (P := fun (i : nat)
                (acc : list ParticleState * ParticleState * ParticleSystem) =>
         (snd acc, snd (fst acc)) = steps i sys0 st0 /\
         hd [] (map positions (fst (fst acc))) = positions st0 /\
         (i = 0%nat -> map positions (fst (fst acc)) = [positions st0]) /\
         ((i < n)%nat ->
            length (map positions (fst (fst acc))) = (1 + (i + 9) / 10)%nat) /\
         ((1 <= i)%nat -> i = n ->
            length (map positions (fst (fst acc))) = (2 + (n + 8) / 10)%nat /\
            last (map positions (fst (fst acc))) []
            = positions (snd (fst acc)))).
  assert (G : P n (for_loop n body ([snapshot st0], st0, sys0))).
  { apply for_loop_inv; unfold P.
    - cbn [fst snd map hd steps]. repeat split; try reflexivity; intros; lia.
    - intros i [[traj st] s1] Hi (Hs & Hh & _ & Hl & _).
      cbn [fst snd] in *. unfold body.
      rewrite steps_S, <- Hs. cbn [fst snd].
      destruct (step s1 st) as [s2 st2] eqn:Est.
      specialize (Hl Hi).
      assert (Hne : traj <> []).
      { intros ->. cbn in Hl. lia. }
      assert (Hhd : forall x, hd [] (map positions (traj ++ [x]))
                              = positions st0).
      { intros x. destruct traj; [congruence | exact Hh]. }
      assert (Hlast : forall x,
                last (map positions (traj ++ [x])) [] = positions x).
      { intros x. rewrite map_app. cbn [map]. apply last_last. }
      assert (Hlen : forall x,
                length (map positions (traj ++ [x]))
                = S (length (map positions traj))).
      { intros x. rewrite !length_map, length_app. cbn [length]. lia. }
      destruct (Z.of_nat i mod 10 =? 0)%Z eqn:E1;
        destruct (Z.of_nat i =? nSteps - 1)%Z eqn:E2; cbn [orb fst snd];
        repeat match goal with
               | H : (_ =? _)%Z = true |- _ => apply Z.eqb_eq in H
               | H : (_ =? _)%Z = false |- _ => apply Z.eqb_neq in H
               end;
        (split; [reflexivity|]);
        (split; [first [apply Hhd | exact Hh]|]);
        (split; [intros; lia|]);
        rewrite ?Hlen, ?Hlast, Hl; subst n;
        (split; [intros Hlt
                | intros H1 H2;
                  first [exfalso; lia | split; [|reflexivity]]]);
        first
          [ rewrite <- H2; replace (S i + 8)%nat with (i + 9)%nat by lia; lia
          | rewrite tenth_multiple by assumption; lia
          | rewrite tenth_other by assumption; lia ]. }
  unfold P in G. clear P. subst body snapshot. cbv beta in G.
  destruct (for_loop n _ _) as [[traj st] s1].
  cbn [fst snd] in *.
  destruct G as (Hs & Hh & H0 & _ & H1).
  rewrite <- Hs. cbn [fst snd].
  split; [reflexivity|]. split; [exact Hh|]. split.
  - intros Hle. apply H0. subst n. lia.
  - intros Hge. destruct H1 as [Hl Hlast]; [subst n; lia | reflexivity |].
    split; [|exact Hlast].
    rewrite Hl. subst n. apply snapshot_count. exact Hge.
Qed.

Lemma simulate_trajectory_witness :
  length (map positions (fst (simulate 25 1 two_particles))) = 5%nat.
Proof.
  destruct (simulate_trajectory 25 1 two_particles) as (_ & _ & _ & H).
  destruct H as [H _]; [lia|]. exact H.
Defined.

End Trajectory.

(** ** Shapes of the radial laws *)

Section RadialShapes.
Import Potentials.
Local Open Scope R_scope.

(** X13.  The Morse law has its well at [r0]: value and derivative vanish
    there, the value is nowhere negative for [D >= 0], and for [D >= 0],
    [a >= 0] the derivative is nowhere positive below [r0] and nowhere
    negative above. *)
Theorem Morse_well (D a r0 r : R) :
  Morse_evaluate D a r0 r0 = 0 /\
  Morse_gradient D a r0 r0 = 0 /\
  (0 <= D -> 0 <= Morse_evaluate D a r0 r) /\
  (0 <= D -> 0 <= a ->
     (r <= r0 -> Morse_gradient D a r0 r <= 0) /\
     (r0 <= r -> 0 <= Morse_gradient D a r0 r)).
Proof.
  unfold Morse_evaluate, Morse_gradient. cbv zeta.
  replace (- a * (r0 - r0)) with 0 by ring. rewrite exp_0.
  split; [ring|]. split; [ring|]. split.
  - intros HD. apply Rmult_le_pos; [exact HD|]. apply pow2_ge_0.
  - intros HD Ha.
    pose proof (exp_pos (- a * (r - r0))) as He.
    assert (Hmono : forall u, 0 <= u -> 1 <= exp u).
    { intros u [Hu | <-]; [|rewrite exp_0; lra].
      left. rewrite <- exp_0. apply exp_increasing. exact Hu. }
    assert (Hmono' : forall u, u <= 0 -> exp u <= 1).
    { intros u [Hu | ->]; [|rewrite exp_0; lra].
      left. rewrite <- exp_0. apply exp_increasing. exact Hu. }
    assert (0 <= 2 * D * a) by nra.
    split; intros Hr.
    + assert (1 <= exp (- a * (r - r0))) by (apply Hmono; nra).
      assert (0 <= (exp (- a * (r - r0)) - 1) * exp (- a * (r - r0)))
        by (apply Rmult_le_pos; lra).
      nra.
    + assert (exp (- a * (r - r0)) <= 1) by (apply Hmono'; nra).
      assert (0 <= (1 - exp (- a * (r - r0))) * exp (- a * (r - r0)))
        by (apply Rmult_le_pos; lra).
      nra.
Qed.

Lemma Morse_well_witness :
  0 <= Morse_evaluate 0.5 2 0.8 1 /\ 0 <= Morse_gradient 0.5 2 0.8 1.
Proof.
  destruct (Morse_well 0.5 2 0.8 1) as (_ & _ & H1 & H2).
  split; [apply H1; lra|].
  apply (proj2 (H2 ltac:(lra) ltac:(lra))). lra.
Defined.




(** X15.  The inverse law is bounded on [r >= 0]: for [gamma >= 0] its value
    lies in [[0, gamma]], with [gamma] at [r = 0], and its derivative in
    [[-gamma, 0]]. *)
Theorem Inverse_bounded (gamma r : R) :
  0 <= gamma -> 0 <= r ->
  Inverse_evaluate gamma 0 = gamma /\
  0 <= Inverse_evaluate gamma r <= gamma /\
  - gamma <= Inverse_gradient gamma r <= 0.
Proof.
  intros Hg Hr. unfold Inverse_evaluate, Inverse_gradient.
  replace 1.0 with 1 by lra.
  assert (H1 : 0 < / (r + 1) <= 1).
  { split; [apply Rinv_0_lt_compat; lra|].
    assert (H : / (r + 1) <= / 1) by (apply Rinv_le_contravar; lra).
    rewrite Rinv_1 in H. exact H. }
  assert (H2 : 0 < / ((r + 1) * (r + 1)) <= 1).
  { split; [apply Rinv_0_lt_compat; nra|].
    assert (H : / ((r + 1) * (r + 1)) <= / 1)
      by (apply Rinv_le_contravar; nra).
    rewrite Rinv_1 in H. exact H. }
  unfold Rdiv. split; [field|]. split; split; nra.
Qed.

Lemma Inverse_bounded_witness :
  0 <= Inverse_evaluate 0.5 1 <= 0.5.
Proof.
  destruct (Inverse_bounded 0.5 1) as (_ & H & _); [lra | lra | exact H].
Defined.

(** X16.  The Gaussian law peaks at [r = 0]: its value there is [A], its
    derivative there is [0], the value is bounded by [|A|] everywhere, it is
    even and its derivative odd; for [A >= 0] the derivative is nowhere
    positive on [r >= 0]. *)
Theorem Gaussian_peak (A sigma r : R) :
  sigma <> 0 ->
  Gaussian_evaluate A sigma 0 = A /\
  Gaussian_gradient A sigma 0 = 0 /\
  Rabs (Gaussian_evaluate A sigma r) <= Rabs A /\
  Gaussian_evaluate A sigma (- r) = Gaussian_evaluate A sigma r /\
  Gaussian_gradient A sigma (- r) = - Gaussian_gradient A sigma r /\
  (0 <= A -> 0 <= r -> Gaussian_gradient A sigma r <= 0).
Proof.
  intros Hs. unfold Gaussian_evaluate, Gaussian_gradient. cbv zeta.
  assert (Hs2 : 0 < sigma * sigma).
  { destruct (Rtotal_order sigma 0) as [H|[H|H]]; [nra | contradiction | nra]. }
  replace (- 0 * 0 / (2 * sigma * sigma)) with 0 by (field; exact Hs).
  replace (- 0 * 0 / (2 * (sigma * sigma))) with 0 by (field; exact Hs).
  replace (- - r * - r) with (- r * r) by ring.
  rewrite exp_0.
  assert (Hle : exp (- r * r / (2 * sigma * sigma)) <= 1).
  { rewrite <- exp_0.
    destruct (Req_dec r 0) as [->|Hr].
    - right. f_equal. field. exact Hs.
    - left. apply exp_increasing.
      assert (0 < r * r / (2 * sigma * sigma)).
      { apply Rdiv_lt_0_compat; [nra | nra]. }
      unfold Rdiv in *. nra. }
  pose proof (exp_pos (- r * r / (2 * sigma * sigma))) as Hp.
  split; [ring|]. split; [unfold Rdiv; ring|]. split.
  { rewrite Rabs_mult, (Rabs_pos_eq (exp _)) by lra.
    pose proof (Rabs_pos A). nra. }
  split; [reflexivity|]. split; [unfold Rdiv; ring|].
  intros HA Hr.
  pose proof (exp_pos (- r * r / (2 * (sigma * sigma)))) as Hp'.
  assert (0 <= A * r / (sigma * sigma)).
  { unfold Rdiv. apply Rmult_le_pos; [nra|].
    left. apply Rinv_0_lt_compat. exact Hs2. }
  assert (0 <= A * r / (sigma * sigma) * exp (- r * r / (2 * (sigma * sigma))))
    by (apply Rmult_le_pos; lra).
  unfold Rdiv in *. nra.
Qed.

Lemma Gaussian_peak_witness :
  Rabs (Gaussian_evaluate 1 1 2) <= Rabs 1 /\ Gaussian_gradient 1 1 2 <= 0.
Proof.
  destruct (Gaussian_peak 1 1 2) as (_ & _ & H1 & _ & _ & H2); [lra|].
  split; [exact H1 | apply H2; lra].
Defined.

End RadialShapes.

(** ** Bounds that the clamps and the smoothing give *)

Section Bounds.
Import Potentials.
Local Open Scope R_scope.

Lemma sixth_power_nonneg (x : R) : 0 <= x ^ 6.
Proof. replace (x ^ 6) with ((x ^ 3) ^ 2) by ring. apply pow2_ge_0. Qed.

(** X17.  The clamp keeps the Lennard-Jones force bounded: with a positive
    clamp radius, at every distance the derivative returned is at most
    [4 |epsilon| / rSafe * (12 S^2 + 6 S)] in absolute value, where
    [S = (|sigmaLJ| / rSafe)^6]. *)
Theorem LennardJones_force_bounded (p : LennardJones) (r : R) :
  0 < rSafe p ->
  let S := (Rabs (sigmaLJ p) / rSafe p) ^ 6 in
  Rabs (LennardJones_gradient p r)
  <= 4 * Rabs (epsilon p) / rSafe p * (12 * S * S + 6 * S).
Proof.
  intros Hs S.
  assert (HS : 0 <= S) by apply sixth_power_nonneg.
  assert (He : 0 <= Rabs (epsilon p)) by apply Rabs_pos.
  assert (Hbound : 0 <= 4 * Rabs (epsilon p) / rSafe p * (12 * S * S + 6 * S)).
  { apply Rmult_le_pos; [|nra].
    apply Rmult_le_pos; [lra | left; apply Rinv_0_lt_compat; exact Hs]. }
  destruct (Rle_lt_dec (rCut p) r) as [Hge|Hlt].
  - rewrite LJ_gradient_beyond by exact Hge. rewrite Rabs_R0. exact Hbound.
  - rewrite LJ_gradient_below by exact Hlt. unfold LJ_force.
    set (rc := Rmax r (rSafe p)).
    assert (Hrc : rSafe p <= rc) by apply Rmax_r.
    assert (Hrc0 : 0 < rc) by lra.
    set (t := (sigmaLJ p / rc) ^ 6).
    assert (Ht0 : 0 <= t) by apply sixth_power_nonneg.
    assert (HtS : t <= S).
    { unfold t, S. rewrite <- (Rabs_pos_eq ((sigmaLJ p / rc) ^ 6))
        by apply sixth_power_nonneg.
      rewrite <- RPow_abs. apply pow_incr. split; [apply Rabs_pos|].
      unfold Rdiv. rewrite Rabs_mult, Rabs_inv, (Rabs_pos_eq rc) by lra.
      apply Rmult_le_compat_l; [apply Rabs_pos|].
      apply Rinv_le_contravar; assumption. }
    rewrite Rabs_mult.
    apply Rmult_le_compat; try apply Rabs_pos.
    + unfold Rdiv. rewrite !Rabs_mult, Rabs_inv, (Rabs_pos_eq rc) by lra.
      replace (Rabs 4.0) with 4 by (rewrite Rabs_pos_eq; lra).
      apply Rmult_le_compat_l; [lra|].
      apply Rinv_le_contravar; assumption.
    + apply Rabs_le. decimals. split; nra.
Qed.

Lemma LennardJones_force_bounded_witness :
  Rabs (LennardJones_gradient (LennardJones_new 0.5 0.5 2.5 0.7) 0.01)
  <= 4 * Rabs 0.5 / (0.7 * 0.5)
     * (12 * (Rabs 0.5 / (0.7 * 0.5)) ^ 6 * (Rabs 0.5 / (0.7 * 0.5)) ^ 6
        + 6 * (Rabs 0.5 / (0.7 * 0.5)) ^ 6).
Proof.
  apply (LennardJones_force_bounded (LennardJones_new 0.5 0.5 2.5 0.7) 0.01).
  cbn. lra.
Defined.

Lemma tanh_bounds (x : R) : -1 < tanh x < 1.
Proof.
  unfold tanh, sinh, cosh.
  pose proof (exp_pos x). pose proof (exp_pos (- x)).
  set (s := (exp x - exp (- x)) / 2). set (c := (exp x + exp (- x)) / 2).
  assert (Hc : 0 < c) by (unfold c; lra).
  assert (Hlo : 0 < (s + c) / c)
    by (apply Rdiv_lt_0_compat; [unfold s, c; lra | exact Hc]).
  assert (Hhi : 0 < (c - s) / c)
    by (apply Rdiv_lt_0_compat; [unfold s, c; lra | exact Hc]).
  replace ((s + c) / c) with (s / c + 1) in Hlo by (field; lra).
  replace ((c - s) / c) with (1 - s / c) in Hhi by (field; lra).
  lra.
Qed.

Lemma cosh_ge_1 (x : R) : 1 <= cosh x.
Proof.
  unfold cosh. rewrite exp_Ropp.
  pose proof (exp_pos x) as H.
  assert (2 <= exp x + / exp x); [|lra].
  apply Rmult_le_reg_r with (exp x); [exact H|].
  rewrite Rmult_plus_distr_r, Rinv_l by lra.
  pose proof (pow2_ge_0 (exp x - 1)). nra.
Qed.

Lemma sech2_bounds (x : R) : 0 < 1.0 / cosh x ^ 2 <= 1.
Proof.
  pose proof (cosh_ge_1 x) as H.
  assert (H2 : 1 <= cosh x ^ 2) by (simpl; nra).
  replace 1.0 with 1 by lra. unfold Rdiv. rewrite Rmult_1_l. split.
  - apply Rinv_0_lt_compat. lra.
  - assert (E : / cosh x ^ 2 <= / 1) by (apply Rinv_le_contravar; lra).
    rewrite Rinv_1 in E. exact E.
Qed.

(** X18.  The smoothed piecewise law and its derivative are bounded at
    every distance: the value by [|beta1| + |beta2|] and the derivative by
    [(|beta1| + |beta2|) * 0.5 / |eps|]. *)
Theorem Piecewise_bounded (beta1 beta2 eps r : R) :
  eps <> 0 ->
  Rabs (Piecewise_evaluate beta1 beta2 eps r) <= Rabs beta1 + Rabs beta2 /\
  Rabs (Piecewise_gradient beta1 beta2 eps r)
  <= (Rabs beta1 + Rabs beta2) * (0.5 / Rabs eps).
Proof.
  intros He.
  assert (HI : forall lo hi, Rabs (smoothInd eps r lo hi) <= 1).
  { intros lo hi. unfold smoothInd.
    pose proof (tanh_bounds ((r - lo) / eps)).
    pose proof (tanh_bounds ((r - hi) / eps)).
    apply Rabs_le. lra. }
  assert (Hpe : 0 < Rabs eps) by (apply Rabs_pos_lt; exact He).
  assert (HG : forall lo hi,
            Rabs (smoothIndGrad eps r lo hi) <= 0.5 / Rabs eps).
  { intros lo hi. unfold smoothIndGrad. cbv zeta.
    pose proof (sech2_bounds ((r - lo) / eps)) as B1.
    pose proof (sech2_bounds ((r - hi) / eps)) as B2.
    assert (E : Rabs (0.5 / eps) = 0.5 / Rabs eps).
    { unfold Rdiv. rewrite Rabs_mult, Rabs_inv, (Rabs_pos_eq 0.5) by lra.
      reflexivity. }
    rewrite Rabs_mult, E.
    assert (H1 : Rabs (1.0 / cosh ((r - lo) / eps) ^ 2
                       - 1.0 / cosh ((r - hi) / eps) ^ 2) <= 1)
      by (apply Rabs_le; lra).
    assert (0 < 0.5 / Rabs eps) by (apply Rdiv_lt_0_compat; lra).
    nra. }
  unfold Piecewise_evaluate, Piecewise_gradient. split.
  - eapply Rle_trans; [apply Rabs_triang|]. rewrite !Rabs_mult.
    pose proof (HI 0.5 1.0). pose proof (HI 1.0 2.0).
    pose proof (Rabs_pos beta1). pose proof (Rabs_pos beta2). nra.
  - eapply Rle_trans; [apply Rabs_triang|]. rewrite !Rabs_mult.
    pose proof (HG 0.5 1.0). pose proof (HG 1.0 2.0).
    pose proof (Rabs_pos beta1). pose proof (Rabs_pos beta2).
    assert (0 < 0.5 / Rabs eps) by (apply Rdiv_lt_0_compat; lra).
    nra.
Qed.

Lemma Piecewise_bounded_witness :
  Rabs (Piecewise_evaluate (-3) 2 0.05 1) <= Rabs (-3) + Rabs 2.
Proof.
  apply (proj1 (Piecewise_bounded (-3) 2 0.05 1 ltac:(lra))).
Defined.

(** X19.  Where the confinement forces vanish, and the quadratic law near
    the origin.  The double-well value is nowhere negative and is zero
    exactly on the unit sphere, where its gradient is the zero vector; the
    harmonic value is nowhere negative for [k >= 0]; and within [1e-10] of
    the origin the quadratic law works at the floor radius: entry [i] of
    its gradient is [0.5 * alpha1 / 1e-10 * x_i + 2 * alpha2 * x_i]. *)
Theorem confinement_wells (x out : vec) (k alpha1 alpha2 : R) :
  length out = length x ->
  0 <= DoubleWell_evaluate x /\
  (DoubleWell_evaluate x = 0 <-> sum_squares x = 1) /\
  (sum_squares x = 1 ->
     DoubleWell_gradient x out = repeat 0 (length x)) /\
  (0 <= k -> 0 <= Harmonic_evaluate k x) /\
  (sum_squares x <= 1e-10 * 1e-10 ->
   forall i, (i < length x)%nat ->
     at_ (Quadratic_gradient alpha1 alpha2 x out) i
     = 0.5 * alpha1 / 1e-10 * at_ x i + 2.0 * alpha2 * at_ x i).
Proof.
  intros Hlen. unfold DoubleWell_evaluate. cbv zeta.
  replace 1.0 with 1 by lra.
  split; [pose proof (pow2_ge_0 (sum_squares x - 1)); lra|].
  split.
  { split; intros H.
    - assert ((sum_squares x - 1) ^ 2 = 0) by lra.
      assert (sum_squares x - 1 = 0); [|lra].
      simpl in H0. rewrite Rmult_1_r in H0.
      apply Rmult_integral in H0. tauto.
    - rewrite H. replace (1 - 1) with 0 by ring. simpl. lra. }
  split.
  { intros H. unfold DoubleWell_gradient. cbv zeta.
    destruct (write_loop (fun i => (sum_squares x - 1.0) * at_ x i)
                (length x) out Hlen) as [Hl Hv].
    apply vec_ext; [rewrite repeat_length; exact Hl|].
    intros j Hj. rewrite Hl in Hj. rewrite Hv, at_zeros, H by exact Hj.
    lra. }
  split.
  { intros Hk. unfold Harmonic_evaluate. cbv zeta.
    pose proof (sum_squares_nonneg x). nra. }
  intros Hsmall i Hi.
  assert (Er : Rmax (sqrt (sum_squares x)) 1e-10 = 1e-10).
  { apply Rmax_right.
    apply Rle_trans with (sqrt (1e-10 * 1e-10));
      [apply sqrt_le_1_alt; exact Hsmall | rewrite sqrt_square by lra; lra]. }
  unfold Quadratic_gradient. cbv zeta. rewrite Er.
  destruct (write_loop
              (fun i => 0.5 * alpha1 / 1e-10 * at_ x i + 2.0 * alpha2 * at_ x i)
              (length x) out Hlen) as [_ Hv].
  apply Hv. exact Hi.
Qed.

Lemma confinement_wells_witness :
  DoubleWell_gradient [1; 0] [5; 5] = repeat 0 2 /\
  at_ (Quadratic_gradient (-1) 2 [0; 0] [5; 5]) 1
  = 0.5 * -1 / 1e-10 * at_ [0; 0] 1 + 2.0 * 2 * at_ [0; 0] 1.
Proof.
  destruct (confinement_wells [1; 0] [5; 5] 1 (-1) 2 eq_refl)
    as (_ & _ & H & _).
  destruct (confinement_wells [0; 0] [5; 5] 1 (-1) 2 eq_refl)
    as (_ & _ & _ & _ & H').
  split.
  - apply H. unfold sum_squares. run_buffers. ring.
  - apply H'; [unfold sum_squares; run_buffers; lra | cbn; lia].
Defined.

End Bounds.

(** ** The islands: the dissipation of the ledger and the two snapshots *)

Section Islands.
Import Potentials.
Local Open Scope R_scope.

(** X21.  The dissipation of the ledger is a mean of squares: for every
    configuration and every pair of scales it is not negative. *)
Theorem computeDissipation_nonneg (positions : vec) (vScale phiScale : R) :
  0 <= EnergyBalanceViz.computeDissipation positions vScale phiScale.
Proof.
  unfold EnergyBalanceViz.computeDissipation.
  match goal with
  | |- context [for_loop ?n ?f ?s] =>
      pose proof (for_loop_inv
        (fun _ acc => 0 <= fst (fst (fst acc))) n f s) as H
  end.
  cbv beta in H.
  match type of H with
  | _ -> _ -> 0 <= fst (fst (fst ?run)) =>
      assert (G : 0 <= fst (fst (fst run)));
      [apply H; clear H | clear H; destruct run as [[[sum gV] df] tX]]
  end.
  - cbn. lra.
  - intros i [[[sum gV] df] tX] _ Hs. cbn [fst] in Hs.
    match goal with
    | |- context [for_loop EnergyBalanceViz.N ?f ?s] =>
        destruct (for_loop EnergyBalanceViz.N f s) as [[gx gy] df']
    end.
    cbn [fst].
    match goal with
    | |- 0 <= sum + (?a * ?a + ?b * ?b) =>
        pose proof (Rle_0_sqr a); pose proof (Rle_0_sqr b)
    end.
    unfold Rsqr in *. lra.
  - cbn [fst] in G. unfold EnergyBalanceViz.N. cbn [INR]. lra.
Qed.

(** X22.  The two snapshots of the shuffle demo, from any generator state:
    eight points each; every point of the first lies in
    [[-0.8, 0.8) x [-0.7, 0.7)]; the point of the second with the same
    index is at most [0.3] away in each coordinate; and the generator is
    left 32 uniform draws further. *)
Theorem snapshots_in_frame (p : PRNG.state) :
  let '(snapshot1, snapshot2, p') := ShuffleDemo.snapshots p in
  length snapshot1 = 8%nat /\ length snapshot2 = 8%nat /\
  Forall (fun a => -0.8 <= fst a < 0.8 /\ -0.7 <= snd a < 0.7) snapshot1 /\
  Forall2 (fun a b => Rabs (fst b - fst a) <= 0.3 /\
                      Rabs (snd b - snd a) <= 0.3) snapshot1 snapshot2 /\
  p' = draws 32 p.
Proof.
  unfold ShuffleDemo.snapshots.
  match goal with
  | |- context [for_loop ?n ?f ?s] =>
      pose proof (for_loop_inv
        (fun i acc =>
           length (fst (fst acc)) = i /\ length (snd (fst acc)) = i /\
           Forall (fun a => -0.8 <= fst a < 0.8 /\ -0.7 <= snd a < 0.7)
             (fst (fst acc)) /\
           Forall2 (fun a b => Rabs (fst b - fst a) <= 0.3 /\
                               Rabs (snd b - snd a) <= 0.3)
             (fst (fst acc)) (snd (fst acc)) /\
           snd acc = draws (4 * i) p) n f s) as H;
      cbv beta in H;
      assert (G := H); clear H;
      destruct (for_loop n f s) as [[s1 s2] p']
  end.
  cbn [fst snd] in G.
  change 8%nat with ShuffleDemo.N.
  change (draws 32 p) with (draws (4 * ShuffleDemo.N) p).
  apply G; clear G.
  - repeat split; constructor.
  - intros i [[a1 a2] q] _ (L1 & L2 & F1 & F2 & Eq). cbn [fst snd] in *.
    unfold PRNG.random, PRNG.next.
    pose proof (next_range q) as R1.
    pose proof (next_range (PRNG.next_state q)) as R2.
    pose proof (next_range (PRNG.next_state (PRNG.next_state q))) as R3.
    pose proof (next_range
      (PRNG.next_state (PRNG.next_state (PRNG.next_state q)))) as R4.
    unfold PRNG.next in R1, R2, R3, R4. cbn [fst] in R1, R2, R3, R4.
    assert (0 < / 4294967296) by (apply Rinv_0_lt_compat; lra).
    cbn [fst snd].
    split; [rewrite length_app, L1; simpl; lia|].
    split; [rewrite length_app, L2; simpl; lia|].
    split.
    { apply Forall_app. split; [exact F1|].
      constructor; [|constructor]. cbn [fst snd]. lra. }
    split.
    { apply Forall2_app; [exact F2|].
      constructor; [|constructor]. cbn [fst snd].
      split; apply Rabs_le; lra. }
    subst q. unfold draws.
    replace (4 * S i)%nat with (S (S (S (S (4 * i))))) by lia.
    rewrite !Nat.iter_succ. reflexivity.
Qed.

End Islands.

(** ** The registry of models *)

Section Registry.
Import Potentials EulerMaruyama.
Local Open Scope R_scope.

(** X23.  Every model of the registry is stored under its own name, has
    [sigma = 0.1], and gives an integrator that meets what the independence
    from the scratch buffers asks for: whenever the construction from the
    model's [V], [Phi] and [sigma] succeeds, the gradients it calls fill
    their output buffer and the four scratch buffers have the length
    [d]. *)
Theorem registry_models_fill (allocates : Z -> bool)
    (key : String.string) (m : Models.ModelConfig)
    (dt0 : R) (N0 d0 seed : Z) (sys : ParticleSystem) :
  In (key, m) Models.MODELS ->
  construct allocates (Models.V m) (Models.Phi m) (Models.sigma m)
    dt0 N0 d0 seed
  = Ok sys ->
  Models.name m = key /\ sigma sys = 0.1 /\ filling_laws sys /\
  same_run sys sys.
Proof.
  intros Hin HC. apply construct_Ok_inv in HC. destruct HC as [_ ->].
  assert (SR : forall V0 Phi0 s0,
            same_run
              {| V := V0; Phi := Phi0; sigma := s0; dt := dt0; N := N0;
                 d := d0;
                 gradV := repeat 0 (Z.to_nat d0);
                 gradPhi := repeat 0 (Z.to_nat d0);
                 diff := repeat 0 (Z.to_nat d0);
                 noise := repeat 0 (Z.to_nat (N0 * d0));
                 gradOut := repeat 0 (Z.to_nat d0);
                 prng := PRNG.construct seed |}
              {| V := V0; Phi := Phi0; sigma := s0; dt := dt0; N := N0;
                 d := d0;
                 gradV := repeat 0 (Z.to_nat d0);
                 gradPhi := repeat 0 (Z.to_nat d0);
                 diff := repeat 0 (Z.to_nat d0);
                 noise := repeat 0 (Z.to_nat (N0 * d0));
                 gradOut := repeat 0 (Z.to_nat d0);
                 prng := PRNG.construct seed |}).
  { intros V0 Phi0 s0. unfold same_run.
    cbn [V Phi sigma dt N d gradV gradPhi diff noise gradOut prng].
    rewrite !repeat_length. repeat split; reflexivity. }
  unfold Models.MODELS in Hin. cbn [In] in Hin.
  destruct Hin as [E|[E|[E|[E|[E|[]]]]]]; injection E as <- <-;
    cbn [Models.name Models.V Models.Phi Models.sigma];
    (split; [reflexivity|]); (split; [reflexivity|]);
    (split; [|apply SR]); unfold filling_laws; cbn [V Phi].
  - split; [|exact I].
    exact (write_loop_fills
             (fun x i => 0.5 * (-1.0) / Rmax (sqrt (sum_squares x)) 1e-10
                         * at_ x i + 2.0 * 2.0 * at_ x i)).
  - split; [|exact I].
    exact (write_loop_fills (fun x i => (sum_squares x - 1.0) * at_ x i)).
  - split; [|exact I].
    exact (write_loop_fills (fun x i => 2.0 * at_ x i)).
  - split; [|exact I].
    exact (write_loop_fills (fun x i => (sum_squares x - 1.0) * at_ x i)).
  - split.
    + exact (write_loop_fills (fun x i => 2.0 * at_ [1.0; 4.0] i * at_ x i)).
    + exact (write_loop_fills
               (fun z i =>
                  - AnisotropicGaussian_evaluate 2.0
                      (map (fun si => si * si) [0.5; 1.5]) z * at_ z i
                  / at_ (map (fun si => si * si) [0.5; 1.5]) i)).
Qed.

Lemma registry_models_fill_witness :
  filling_laws
    {| V := AnisotropicConfinement [1.0; 4.0];
       Phi := AnisotropicGaussianInteraction 2.0 [0.5; 1.5];
       sigma := 0.1; dt := 0.005; N := 10; d := 2;
       gradV := repeat 0 (Z.to_nat 2);
       gradPhi := repeat 0 (Z.to_nat 2);
       diff := repeat 0 (Z.to_nat 2);
       noise := repeat 0 (Z.to_nat (10 * 2));
       gradOut := repeat 0 (Z.to_nat 2);
       prng := PRNG.construct 42 |}.
Proof.
  eapply (fun key m H1 H2 =>
            proj1 (proj2 (proj2
              (registry_models_fill (fun _ => true) key m 0.005 10 2 42 _
                 H1 H2)))).
  - unfold Models.MODELS. cbn [In]. do 4 right. left. reflexivity.
  - apply construct_ok; (split; [unfold max_length; lia | reflexivity]).
Defined.

End Registry.

(** ** Determinism: two instances in one heap *)

Section Determinism.
Import Potentials EulerMaruyama.
Local Open Scope R_scope.

Lemma read_f64_upd_same (h : World.heap) (r : nat) (v : vec) :
  (r < length h)%nat ->
  World.read_f64 (upd r (World.Float64Array v) h) r = v.
Proof.
  intros H. unfold World.read_f64. rewrite nth_upd_same by exact H.
  reflexivity.
Qed.

Lemma read_u32_upd_same (h : World.heap) (r : nat) (w : list Z) :
  (r < length h)%nat ->
  World.read_u32 (upd r (World.Uint32Array w) h) r = w.
Proof.
  intros H. unfold World.read_u32. rewrite nth_upd_same by exact H.
  reflexivity.
Qed.

Lemma length_write_all l (h : World.heap) :
  length (World.write_all l h) = length h.
Proof.
  induction l as [|rc l IH]; [reflexivity|].
  cbn [World.write_all fold_right]. rewrite length_upd. exact IH.
Qed.

(** A write list leaves the other objects as they were. *)
Lemma nth_write_all_other l (h : World.heap) (r : nat) (dflt : World.cell) :
  ~ In r (map fst l) ->
  nth r (World.write_all l h) dflt = nth r h dflt.
Proof.
  induction l as [|rc l IH]; intros H; [reflexivity|].
  cbn [World.write_all fold_right]. cbn [map In] in H.
  rewrite nth_upd_other by tauto. apply IH. tauto.
Qed.

(** An object written once in a write list holds what was written. *)
Lemma nth_write_all_same l (h : World.heap) (r : nat) (c dflt : World.cell) :
  NoDup (map fst l) -> In (r, c) l -> (r < length h)%nat ->
  nth r (World.write_all l h) dflt = c.
Proof.
  induction l as [|rc l IH]; intros Hnd Hin Hr; [destruct Hin|].
  cbn [World.write_all fold_right]. cbn [map] in Hnd.
  inversion Hnd as [|? ? Hnotin Hnd']; subst.
  destruct Hin as [->|Hin].
  - cbn [fst snd]. apply nth_upd_same.
    change (fold_right _ h l) with (World.write_all l h).
    rewrite length_write_all. exact Hr.
  - rewrite nth_upd_other.
    + apply IH; assumption.
    + intros E. apply Hnotin. rewrite E.
      change r with (fst (r, c)). apply in_map. exact Hin.
Qed.

Lemma alloc_old (c : World.cell) (h : World.heap) (r : nat) dflt :
  (r < length h)%nat ->
  nth r (fst (World.alloc c h)) dflt = nth r h dflt.
Proof. intros H. cbn [World.alloc fst]. apply app_nth1. exact H. Qed.

Lemma alloc_new (c : World.cell) (h : World.heap) dflt :
  nth (snd (World.alloc c h)) (fst (World.alloc c h)) dflt = c.
Proof. cbn [World.alloc fst snd]. apply nth_middle. Qed.


Lemma load_frame l (h : World.heap) (o : World.ParticleSystem) :
  (forall r, In r (World.refs o) -> ~ In r (map fst l)) ->
  World.load (World.write_all l h) o = World.load h o.
Proof.
  intros H. unfold World.load, World.read_f64, World.read_u32.
  rewrite !nth_write_all_other; [reflexivity | ..];
    apply H; unfold World.refs; cbn [In]; tauto.
Qed.

Lemma load_state_frame l (h : World.heap) (s : World.ParticleState) :
  ~ In (World.positions s) (map fst l) ->
  World.load_state (World.write_all l h) s = World.load_state h s.
Proof.
  intros H. unfold World.load_state, World.read_f64.
  rewrite nth_write_all_other by exact H. reflexivity.
Qed.

(** Writing back an instance's arrays and reading them again. *)
Lemma load_store (sys : ParticleSystem) (o : World.ParticleSystem)
    (h : World.heap) :
  NoDup (World.refs o) ->
  Forall (fun r => (r < length h)%nat) (World.refs o) ->
  V sys = World.V o -> Phi sys = World.Phi o -> sigma sys = World.sigma o ->
  dt sys = World.dt o -> N sys = World.N o -> d sys = World.d o ->
  World.load (World.store sys o h) o = sys.
Proof.
  intros Hnd Hb e1 e2 e3 e4 e5 e6.
  destruct sys as [V0 Phi0 s0 t0 N0 d0 b1 b2 b3 b4 b5 p0].
  cbn [V Phi sigma dt N d] in *. subst.
  unfold World.load, World.store, World.read_f64, World.read_u32.
  cbn [gradV gradPhi diff noise gradOut prng].
  unfold World.refs in Hnd, Hb.
  repeat match goal with
  | |- context [nth ?r (World.write_all ?l h) ?dflt] =>
      match l with
      | context [(r, ?c)] =>
          rewrite (nth_write_all_same l h r c dflt);
            [ | exact Hnd | cbn [In]; tauto
              | rewrite Forall_forall in Hb; apply Hb; cbn [In]; tauto ]
      end
  end.
  reflexivity.
Qed.

Lemma store_length sys o (h : World.heap) :
  length (World.store sys o h) = length h.
Proof. unfold World.store. apply length_write_all. Qed.

Lemma store_refs sys o :
  map fst
    [ (World.prng o, World.Uint32Array (prng sys));
      (World.gradV o, World.Float64Array (gradV sys));
      (World.gradPhi o, World.Float64Array (gradPhi sys));
      (World.diff o, World.Float64Array (diff sys));
      (World.noise o, World.Float64Array (noise sys));
      (World.gradOut o, World.Float64Array (gradOut sys)) ]
  = World.refs o.
Proof. reflexivity. Qed.

(** The parameters and the state's [N] and [d] across a step. *)
Lemma step_keeps (sys : ParticleSystem) (st : ParticleState) :
  (V (fst (step sys st)) = V sys /\ Phi (fst (step sys st)) = Phi sys /\
   sigma (fst (step sys st)) = sigma sys /\ dt (fst (step sys st)) = dt sys /\
   N (fst (step sys st)) = N sys /\ d (fst (step sys st)) = d sys) /\
  snd (step sys st)
  = {| positions := positions (snd (step sys st));
       st_N := st_N st; st_d := st_d st |} /\
  length (noise (fst (step sys st))) = length (noise sys) /\
  prng (fst (step sys st)) = draws (2 * length (noise sys)) (prng sys).
Proof.
  pose proof (step_system sys st) as H.
  destruct (randnArray_spec (noise sys) (prng sys)) as (Ln & Sn & _).
  destruct H as (h1 & h2 & h3 & h4 & h5 & h6 & h7 & h8).
  cbn [V Phi sigma dt N d noise prng set_prng set_noise] in *.
  split; [repeat split; congruence|].
  split.
  - unfold step.
    destruct (PRNG.randnArray (noise sys) (prng sys)) as [nz p].
    destruct (for_loop _ _ _) as [s' pos']. reflexivity.
  - split; [congruence|]. rewrite <- h8. exact Sn.
Qed.

Lemma initialize_keeps (std : R) (sys : ParticleSystem) :
  snd (initialize std sys)
  = set_prng (draws (2 * Z.to_nat (N sys * d sys)) (prng sys)) sys /\
  fst (initialize std sys)
  = {| positions := positions (fst (initialize std sys));
       st_N := N sys; st_d := d sys |}.
Proof.
  unfold initialize.
  pose proof (initialize_loop std (repeat 0 (Z.to_nat (N sys * d sys)))
                (prng sys)) as H.
  cbv zeta in H. rewrite repeat_length in H.
  rewrite repeat_length.
  destruct (for_loop _ _ _) as [pos p]. cbn [fst snd] in *.
  destruct H as (_ & -> & _). split; reflexivity.
Qed.

(** A construction in the heap: the instance refers to six fresh objects,
    which hold what the constructor's value holds, and the objects the heap
    had are left as they were. *)
Lemma construct_in_heap (allocates : Z -> bool)
    (V0 : ConfinementPotential) (Phi0 : InteractionPotential)
    (sigma0 dt0 : R) (N0 d0 seed : Z) (h h' : World.heap)
    (o : World.ParticleSystem) :
  World.construct allocates V0 Phi0 sigma0 dt0 N0 d0 seed h = Ok (h', o) ->
  exists sys,
    construct allocates V0 Phi0 sigma0 dt0 N0 d0 seed = Ok sys /\
    World.load h' o = sys /\
    NoDup (World.refs o) /\
    Forall (fun r => (length h <= r < length h')%nat) (World.refs o) /\
    (length h <= length h')%nat /\
    (forall r dflt, (r < length h)%nat -> nth r h' dflt = nth r h dflt).
Proof.
  intros E.
  destruct (accepted_dec allocates d0) as [H1|H1];
    [destruct (accepted_dec allocates (N0 * d0)) as [H2|H2]|].
  2: { exfalso. unfold World.construct in E. cbn [World.alloc] in E.
       rewrite !(Float64Array_new_ok allocates d0) in E by exact H1.
       cbn [bind] in E.
       rewrite (Float64Array_new_error allocates (N0 * d0)) in E by exact H2.
       discriminate E. }
  2: { exfalso. unfold World.construct in E. cbn [World.alloc] in E.
       rewrite (Float64Array_new_error allocates d0) in E by exact H1.
       discriminate E. }
  eexists. split; [apply construct_ok; assumption|].
  unfold World.construct in E. cbn [World.alloc] in E.
  rewrite !(Float64Array_new_ok allocates d0) in E by exact H1.
  cbn [bind] in E.
  rewrite (Float64Array_new_ok allocates (N0 * d0)) in E by exact H2.
  cbn [bind] in E. injection E as <- <-.
  rewrite <- !app_assoc. cbn [app]. rewrite !length_app. cbn [length].
  set (n := length h).
  replace (n + 1 + 1 + 1 + 1 + 1)%nat with (n + 5)%nat by lia.
  replace (n + 1 + 1 + 1 + 1)%nat with (n + 4)%nat by lia.
  replace (n + 1 + 1 + 1)%nat with (n + 3)%nat by lia.
  replace (n + 1 + 1)%nat with (n + 2)%nat by lia.
  split.
  { unfold World.load, World.read_f64, World.read_u32.
    cbn [World.V World.Phi World.sigma World.dt World.N World.d World.gradV
         World.gradPhi World.diff World.noise World.gradOut World.prng].
    replace n with (n + 0)%nat at 6 by lia. unfold n.
    rewrite !app_nth2_plus. reflexivity. }
  split.
  { unfold World.refs.
    cbn [World.gradV World.gradPhi World.diff World.noise World.gradOut
         World.prng].
    repeat (constructor; [cbn [In]; lia|]). constructor. }
  split.
  { unfold World.refs.
    cbn [World.gradV World.gradPhi World.diff World.noise World.gradOut
         World.prng].
    repeat (constructor; [lia|]). constructor. }
  split; [lia|].
  intros r dflt Hr. apply app_nth1. exact Hr.
Qed.

Lemma separate_sym h a b : World.separate h a b -> World.separate h b a.
Proof.
  unfold World.separate. intros (h1 & h2 & h3 & h4 & h5).
  repeat (split; [assumption|]). split; [|split; assumption].
  intros r Hb Ha. exact (h3 r Ha Hb).
Qed.

(** One call on an instance of the heap does what the call does on the
    instance alone, and leaves the arrays of the other instance as they
    were. *)
Lemma act_in_heap (c : call) (ia ib : World.instance) (pa pb : instance)
    (h : World.heap) :
  World.holds h ia pa -> World.holds h ib pb -> World.separate h ia ib ->
  let h' := fst (fst (World.act c ia h)) in
  let ia' := snd (fst (World.act c ia h)) in
  snd (World.act c ia h) = snd (act c pa) /\
  World.holds h' ia' (fst (act c pa)) /\
  World.holds h' ib pb /\
  World.separate h' ia' ib /\
  fst ia' = fst ia.
Proof.
  intros [La Sa] [Lb Sb] (Na & Nb & Dab & Ba & Bb). cbv zeta.
  destruct ia as [o sa]. destruct pa as [sys sta].
  destruct ib as [ob sb]. destruct pb as [sysb stb].
  cbn [fst snd] in *. unfold World.owned in *. cbn [fst snd] in *.
  assert (Nrefs : NoDup (World.refs o)).
  { destruct sa; [inversion Na; assumption | exact Na]. }
  assert (Brefs : Forall (fun r => (r < length h)%nat) (World.refs o)).
  { destruct sa; [inversion Ba; assumption | exact Ba]. }
  assert (Brefsb : Forall (fun r => (r < length h)%nat) (World.refs ob)).
  { destruct sb; [inversion Bb; assumption | exact Bb]. }
  assert (Pa : V sys = World.V o /\ Phi sys = World.Phi o /\
               sigma sys = World.sigma o /\ dt sys = World.dt o /\
               N sys = World.N o /\ d sys = World.d o).
  { rewrite <- La. repeat split. }
  destruct Pa as (p1 & p2 & p3 & p4 & p5 & p6).
  destruct c as [std|].
  - (* initialize *)
    cbn [World.act act].
    unfold World.initialize. cbn [World.alloc].
    set (zeros := World.Float64Array
                    (repeat 0 (Z.to_nat (World.N o * World.d o)))).
    set (h1 := h ++ [zeros]).
    assert (L1 : World.load h1 o = sys).
    { rewrite <- La. unfold World.load, World.read_f64, World.read_u32, h1.
      rewrite Forall_forall in Brefs.
      rewrite !app_nth1; [reflexivity | ..];
        apply Brefs; unfold World.refs; cbn [In]; tauto. }
    rewrite L1.
    destruct (initialize_keeps std sys) as [Es Est].
    destruct (initialize std sys) as [st sys'] eqn:EI. cbn [fst snd] in *.
    assert (Len1 : length h1 = S (length h))
      by (unfold h1; rewrite length_app; cbn; lia).
    assert (Fresh : ~ In (length h) (World.refs o)).
    { intros Hin. rewrite Forall_forall in Brefs.
      specialize (Brefs _ Hin). lia. }
    assert (Freshb : forall r, In r (World.refs ob) -> r <> length h).
    { intros r Hin. rewrite Forall_forall in Brefsb.
      specialize (Brefsb _ Hin). lia. }
    split; [|split; [split|split; [split|split]]].
    + (* what the caller sees *)
      f_equal. unfold World.positions at 1.
      unfold World.write_all. cbn [fold_right fst snd].
      rewrite read_f64_upd_same; [reflexivity|].
      rewrite store_length. lia.
    + cbn [fst].
      rewrite load_frame
        by (intros r Hr [E|[]]; cbn [fst] in E; subst r; exact (Fresh Hr)).
      apply load_store; try assumption.
      * rewrite Forall_forall in *. intros r Hr. specialize (Brefs r Hr). lia.
      * rewrite Es. exact p1.
      * rewrite Es. exact p2.
      * rewrite Es. exact p3.
      * rewrite Es. exact p4.
      * rewrite Es. exact p5.
      * rewrite Es. exact p6.
    + cbn [snd]. unfold World.load_state.
      cbn [World.positions World.st_N World.st_d].
      unfold World.write_all at 1. cbn [fold_right fst snd].
      rewrite read_f64_upd_same by (rewrite store_length; lia).
      rewrite Est. cbn [positions]. rewrite p5, p6. reflexivity.
    + (* the other instance *)
      rewrite <- Lb.
      rewrite load_frame
        by (intros r Hr [E|[]]; cbn [fst] in E; subst r;
            exact (Freshb _ Hr eq_refl)).
      unfold World.store.
      rewrite load_frame.
      * unfold World.load, World.read_f64, World.read_u32, h1.
        rewrite Forall_forall in Brefsb.
        rewrite !app_nth1; [reflexivity | ..];
          apply Brefsb; unfold World.refs; cbn [In]; tauto.
      * intros r Hr. rewrite store_refs. intros Hin.
        apply (Dab r); [|destruct sb; [right|]; exact Hr].
        destruct sa; [right|]; exact Hin.
    + destruct sb as [s2|]; destruct stb as [st2|]; try exact Sb.
      change (World.load_state h s2 = st2) in Sb.
      cbn [fst snd].
      rewrite <- Sb.
      assert (B2 : (World.positions s2 < length h)%nat)
        by (inversion Bb; assumption).
      rewrite load_state_frame
        by (intros [E|[]]; cbn [fst] in E; lia).
      unfold World.store. rewrite load_state_frame.
      * unfold World.load_state, World.read_f64, h1.
        rewrite app_nth1 by exact B2. reflexivity.
      * rewrite store_refs. intros Hin.
        apply (Dab (World.positions s2)); [|left; reflexivity].
        destruct sa; [right|]; exact Hin.
    + (* separation *)
      unfold World.separate, World.owned.
      cbn [fst snd World.positions]. rewrite length_write_all, store_length.
      split; [constructor; assumption|].
      split; [exact Nb|].
      split.
      { intros r [E|Hr] Hb.
        - subst r. rewrite Forall_forall in Bb. specialize (Bb _ Hb). lia.
        - apply (Dab r); [|exact Hb]. destruct sa; [right|]; exact Hr. }
      split.
      { constructor; [lia|]. rewrite Forall_forall in *.
        intros r Hr. specialize (Brefs r Hr). lia. }
      rewrite Forall_forall in *. intros r Hr. specialize (Bb r Hr). lia.
    + reflexivity.
  - (* step *)
    cbn [World.act act].
    destruct sa as [s|]; destruct sta as [st|]; try contradiction.
    2: { cbn [fst snd]. repeat split; try assumption; reflexivity. }
    unfold World.step. rewrite La, Sa.
    destruct (step_keeps sys st) as ((q1 & q2 & q3 & q4 & q5 & q6) & Est & _).
    destruct (step sys st) as [sys' st'] eqn:ES. cbn [fst snd] in *.
    assert (Bs : (World.positions s < length h)%nat)
      by (inversion Ba; assumption).
    assert (Fresh : ~ In (World.positions s) (World.refs o))
      by (inversion Na; assumption).
    split; [|split; [split|split; [split|split]]].
    + f_equal. unfold World.write_all. cbn [fold_right fst snd].
      rewrite read_f64_upd_same; [reflexivity|].
      rewrite store_length. exact Bs.
    + rewrite load_frame
        by (intros r Hr [E|[]]; cbn [fst] in E; subst r; exact (Fresh Hr)).
      apply load_store; try assumption; cbn [fst]; congruence.
    + unfold World.load_state.
      unfold World.write_all at 1. cbn [fold_right fst snd].
      rewrite read_f64_upd_same by (rewrite store_length; exact Bs).
      rewrite Est. cbn [positions]. rewrite <- Sa. reflexivity.
    + rewrite <- Lb.
      rewrite load_frame.
      * unfold World.store. apply load_frame.
        intros r Hr. rewrite store_refs. intros Hin.
        apply (Dab r); [right; exact Hin|].
        destruct sb; [right|]; exact Hr.
      * intros r Hr [E|[]]. cbn [fst] in E. subst r.
        apply (Dab (World.positions s)); [left; reflexivity|].
        destruct sb; [right|]; exact Hr.
    + destruct sb as [s2|]; destruct stb as [st2|]; try exact Sb.
      change (World.load_state h s2 = st2) in Sb.
      cbn [fst snd].
      rewrite <- Sb.
      rewrite load_state_frame.
      * unfold World.store. apply load_state_frame.
        rewrite store_refs. intros Hin.
        apply (Dab (World.positions s2)); [right; exact Hin|].
        left; reflexivity.
      * intros [E|[]]. cbn [fst] in E.
        apply (Dab (World.positions s)); [left; reflexivity|].
        rewrite E. left; reflexivity.
    + unfold World.separate, World.owned. cbn [fst snd].
      rewrite length_write_all, store_length.
      repeat (split; [assumption|]). assumption.
    + reflexivity.
Qed.

Lemma draws_add (m n : nat) (s : PRNG.state) :
  draws m (draws n s) = draws (m + n) s.
Proof. unfold draws. symmetry. apply Nat.iter_add. Qed.

Lemma length_record (out : option vec) (seen : list vec) :
  length (record out seen) = (length (record out []) + length seen)%nat.
Proof. destruct out; reflexivity. Qed.

(** What a call draws: an effective call, one whose positions the caller
    sees, advances the generator by [2 * N * d] uniform draws. *)
Lemma act_draws (c : call) (pa : instance) :
  length (noise (fst pa)) = Z.to_nat (N (fst pa) * d (fst pa)) ->
  N (fst (fst (act c pa))) = N (fst pa) /\
  d (fst (fst (act c pa))) = d (fst pa) /\
  length (noise (fst (fst (act c pa)))) = length (noise (fst pa)) /\
  prng (fst (fst (act c pa)))
  = draws (2 * Z.to_nat (N (fst pa) * d (fst pa))
           * length (record (snd (act c pa)) []))
      (prng (fst pa)).
Proof.
  destruct pa as [sys state]. cbn [fst snd]. intros Hn.
  destruct c as [std|]; cbn [act].
  - destruct (initialize_keeps std sys) as [Es _].
    destruct (initialize std sys) as [st sys']. cbn [fst snd] in *.
    subst sys'. cbn [N d noise prng set_prng record length].
    rewrite Nat.mul_1_r. repeat split.
  - destruct state as [st|].
    + destruct (step_keeps sys st) as ((_ & _ & _ & _ & q5 & q6) & _ & Ln & Ep).
      destruct (step sys st) as [sys' st']. cbn [fst snd] in *.
      cbn [record length]. rewrite Nat.mul_1_r, <- Hn.
      repeat split; assumption.
    + cbn [fst snd record length]. rewrite Nat.mul_0_r.
      repeat split.
Qed.

(** A schedule on two separate instances of one heap: each shows what it
    would show alone, and its generator has advanced by its own calls
    only. *)
Lemma interleave_in_heap (schedule : list (which * call)) :
  forall (h : World.heap) (ia ib : World.instance) (pa pb : instance),
    World.holds h ia pa -> World.holds h ib pb -> World.separate h ia ib ->
    length (noise (fst pa)) = Z.to_nat (N (fst pa) * d (fst pa)) ->
    length (noise (fst pb)) = Z.to_nat (N (fst pb) * d (fst pb)) ->
    let res := World.interleave schedule ia ib h in
    fst (fst res) = run (calls_of First schedule) pa /\
    snd (fst res) = run (calls_of Second schedule) pb /\
    World.read_u32 (snd res) (World.prng (fst ia))
    = draws (2 * Z.to_nat (N (fst pa) * d (fst pa)) * length (fst (fst res)))
        (prng (fst pa)) /\
    World.read_u32 (snd res) (World.prng (fst ib))
    = draws (2 * Z.to_nat (N (fst pb) * d (fst pb)) * length (snd (fst res)))
        (prng (fst pb)).
Proof.
  induction schedule as [|[w c] rest IH];
    intros h ia ib pa pb Ha Hb Hsep Hna Hnb; cbv zeta.
  - cbn [World.interleave calls_of run fst snd length].
    rewrite !Nat.mul_0_r. unfold draws. cbn [Nat.iter].
    destruct Ha as [La _]. destruct Hb as [Lb _].
    rewrite <- La, <- Lb. repeat split.
  - destruct w; cbn [World.interleave calls_of run].
    + destruct (act_in_heap c ia ib pa pb h Ha Hb Hsep)
        as (Eo & Ha' & Hb' & Hsep' & Eref).
      destruct (act_draws c pa Hna) as (EN & Ed & Ln & Ep).
      destruct (World.act c ia h) as [[h1 ia1] out].
      destruct (act c pa) as [pa1 out']. cbn [fst snd] in *. subst out'.
      assert (Hna1 : length (noise (fst pa1))
                     = Z.to_nat (N (fst pa1) * d (fst pa1)))
        by (rewrite Ln, EN, Ed; exact Hna).
      specialize (IH h1 ia1 ib pa1 pb Ha' Hb' Hsep' Hna1 Hnb).
      cbv zeta in IH.
      destruct (World.interleave rest ia1 ib h1) as [[seenA seenB] h2].
      cbn [fst snd] in *. destruct IH as (I1 & I2 & I3 & I4).
      split; [rewrite I1; reflexivity|]. split; [exact I2|].
      split; [|exact I4].
      rewrite <- Eref, I3, Ep, draws_add, EN, Ed. f_equal.
      rewrite (length_record out seenA). lia.
    + apply separate_sym in Hsep.
      destruct (act_in_heap c ib ia pb pa h Hb Ha Hsep)
        as (Eo & Hb' & Ha' & Hsep' & Eref).
      destruct (act_draws c pb Hnb) as (EN & Ed & Ln & Ep).
      destruct (World.act c ib h) as [[h1 ib1] out].
      destruct (act c pb) as [pb1 out']. cbn [fst snd] in *. subst out'.
      assert (Hnb1 : length (noise (fst pb1))
                     = Z.to_nat (N (fst pb1) * d (fst pb1)))
        by (rewrite Ln, EN, Ed; exact Hnb).
      apply separate_sym in Hsep'.
      specialize (IH h1 ia ib1 pa pb1 Ha' Hb' Hsep' Hna Hnb1).
      cbv zeta in IH.
      destruct (World.interleave rest ia ib1 h1) as [[seenA seenB] h2].
      cbn [fst snd] in *. destruct IH as (I1 & I2 & I3 & I4).
      split; [exact I1|]. split; [rewrite I2; reflexivity|].
      split; [exact I3|].
      rewrite <- Eref, I4, Ep, draws_add, EN, Ed. f_equal.
      rewrite (length_record out seenB). lia.
Qed.

(** C2.  Two integrators constructed one after the other in the same heap
    from the same [V], [Phi], [sigma], [dt], [N], [d] and seed share no
    array, and under any schedule of [initialize] and [step] calls each
    shows, call after call, the position buffers that the same calls show
    on an integrator alone.  So two integrators sent the same sequence of
    calls show the same sequence of position buffers, whatever the
    interleaving; and each generator ends advanced by [2 * N * d] uniform
    draws for every call made on its own integrator, and by none for the
    calls made on the other. *)
Theorem two_runs_agree (allocates : Z -> bool)
    (V0 : ConfinementPotential) (Phi0 : InteractionPotential)
    (sigma0 dt0 : R) (N0 d0 seed : Z)
    (h0 h1 h2 : World.heap) (a b : World.ParticleSystem)
    (schedule : list (which * call)) :
  World.construct allocates V0 Phi0 sigma0 dt0 N0 d0 seed h0 = Ok (h1, a) ->
  World.construct allocates V0 Phi0 sigma0 dt0 N0 d0 seed h1 = Ok (h2, b) ->
  let res := World.interleave schedule (a, None) (b, None) h2 in
  let seenA := fst (fst res) in
  let seenB := snd (fst res) in
  exists sys,
    construct allocates V0 Phi0 sigma0 dt0 N0 d0 seed = Ok sys /\
    seenA = run (calls_of First schedule) (sys, None) /\
    seenB = run (calls_of Second schedule) (sys, None) /\
    (calls_of First schedule = calls_of Second schedule -> seenA = seenB) /\
    World.read_u32 (snd res) (World.prng a)
    = draws (2 * Z.to_nat (N0 * d0) * length seenA) (PRNG.construct seed) /\
    World.read_u32 (snd res) (World.prng b)
    = draws (2 * Z.to_nat (N0 * d0) * length seenB) (PRNG.construct seed).
Proof.
  intros HA HB. cbv zeta.
  destruct (construct_in_heap _ _ _ _ _ _ _ _ _ _ _ HA)
    as (sys & Csys & La & NDa & Ra & Len1 & _).
  destruct (construct_in_heap _ _ _ _ _ _ _ _ _ _ _ HB)
    as (sys' & Csys' & Lb & NDb & Rb & Len2 & Old).
  assert (E : sys' = sys) by congruence. subst sys'.
  destruct (construct_Ok_inv _ _ _ _ _ _ _ _ _ Csys) as [_ Esys].
  assert (La2 : World.load h2 a = sys).
  { rewrite <- La. unfold World.load, World.read_f64, World.read_u32.
    rewrite Forall_forall in Ra.
    rewrite !Old; [reflexivity | ..];
      apply Ra; unfold World.refs; cbn [In]; tauto. }
  assert (Hsep : World.separate h2 (a, None) (b, None)).
  { unfold World.separate, World.owned. cbn [fst snd app].
    rewrite Forall_forall in Ra, Rb.
    split; [exact NDa|]. split; [exact NDb|]. split.
    - intros r Hr Hr'. specialize (Ra r Hr). specialize (Rb r Hr'). lia.
    - split; rewrite Forall_forall; intros r Hr.
      + specialize (Ra r Hr). lia.
      + specialize (Rb r Hr). lia. }
  assert (Hn : length (noise (fst (sys, @None ParticleState)))
               = Z.to_nat (N (fst (sys, @None ParticleState))
                           * d (fst (sys, @None ParticleState)))).
  { cbn [fst]. rewrite Esys. cbn [noise N d]. apply repeat_length. }
  destruct (interleave_in_heap schedule h2 (a, None) (b, None)
              (sys, None) (sys, None)) as (I1 & I2 & I3 & I4);
    try assumption; try (split; [assumption | exact I]).
  exists sys. split; [exact Csys|].
  split; [exact I1|]. split; [exact I2|].
  split; [intros Ecalls; rewrite I1, I2, Ecalls; reflexivity|].
  cbn [fst] in I3, I4.
  assert (EN : N sys = N0) by (rewrite Esys; reflexivity).
  assert (Ed : d sys = d0) by (rewrite Esys; reflexivity).
  assert (Ep : prng sys = PRNG.construct seed) by (rewrite Esys; reflexivity).
  rewrite EN, Ed, Ep in I3, I4. split; assumption.
Qed.

Lemma two_runs_agree_witness :
  let cells :=
    [ World.Uint32Array (PRNG.construct 42);
      World.Float64Array [0]; World.Float64Array [0]; World.Float64Array [0];
      World.Float64Array [0; 0]; World.Float64Array [0] ] in
  let a :=
    {| World.V := HarmonicPotential 1; World.Phi := InverseInteraction 1;
       World.sigma := 0; World.dt := 1; World.N := 2; World.d := 1;
       World.gradV := 1; World.gradPhi := 2; World.diff := 3;
       World.noise := 4; World.gradOut := 5; World.prng := 0 |} in
  let b :=
    {| World.V := HarmonicPotential 1; World.Phi := InverseInteraction 1;
       World.sigma := 0; World.dt := 1; World.N := 2; World.d := 1;
       World.gradV := 7; World.gradPhi := 8; World.diff := 9;
       World.noise := 10; World.gradOut := 11; World.prng := 6 |} in
  let res :=
    World.interleave
      [(First, Initialize 1); (Second, Initialize 1);
       (Second, Step); (First, Step)]
      (a, None) (b, None) (cells ++ cells) in
  fst (fst res) = snd (fst res).
Proof.
  cbv zeta.
  destruct (two_runs_agree (fun _ => true)
              (HarmonicPotential 1) (InverseInteraction 1) 0 1 2 1 42
              [] _ _ _ _
              [(First, Initialize 1); (Second, Initialize 1);
               (Second, Step); (First, Step)] eq_refl eq_refl)
    as (sys & _ & _ & _ & H & _).
  apply H. reflexivity.
Defined.

End Determinism.
